(** * Renderer: viewport fitting, frame durations and the draw/quantize pipeline

    A shallow embedding of [render.go] (package [main] of ScrappersIO/Renderer)
    and the properties of its coordinate transformer, its rebuild policy,
    its frame renderer, its delay table and its worker pool.

    Conventions of the embedding:
    - Go's [int] is the 64-bit two's complement integer of the usual
      targets (amd64, arm64): a [Z] kept in range by [GoInt.wrap] after
      every arithmetic operation; [/] truncates toward zero and panics on
      a zero divisor.
    - Go's [float64] is idealised as an exact rational, extended with the
      infinities and NaN that a division by zero produces; rounding and
      the sign of zero are not modelled.
    - Slices ([drawn], [converted], [delays]) are lists read with [!!] and
      written with [<[i:=x]>].
    - [log.Fatal*] and run-time panics end a run: they are the [Fatal] and
      [Panic] outcomes of the [result] monad.
    - Memory is not modelled: an allocation fails only where the library
      or the run-time system rejects the requested length, as
      [image.NewRGBA] and [make] do; a length that they accept is
      allocated. *)

From Stdlib Require Import ZArith QArith Lia Lqa Bool List String.
From stdpp Require Import base option list.

Local Open Scope Z_scope.

(** ** Go's [int] *)

Module GoInt.

Definition MinInt : Z := - 2 ^ 63.
Definition MaxInt : Z := 2 ^ 63 - 1.

(** Reduction of a mathematical integer to its 64-bit signed value. *)
Definition wrap (z : Z) : Z := (z + 2 ^ 63) mod 2 ^ 64 - 2 ^ 63.

Definition add (a b : Z) : Z := wrap (a + b).
Definition sub (a b : Z) : Z := wrap (a - b).
Definition mul (a b : Z) : Z := wrap (a * b).

(** [a / b]: truncated quotient; [None] is the run-time panic
    "integer divide by zero". *)
Definition quo (a b : Z) : option Z :=
  if b =? 0 then None else Some (wrap (Z.quot a b)).

(** [a / c] and [a % c] for a constant divisor [c] other than 0 and -1:
    no panic and no overflow are possible. *)
Definition quo_const (a c : Z) : Z := Z.quot a c.
Definition rem_const (a c : Z) : Z := Z.rem a c.

Definition in_range (z : Z) : Prop := MinInt <= z <= MaxInt.

End GoInt.

Infix "[+]" := GoInt.add (at level 50, left associativity).
Infix "[-]" := GoInt.sub (at level 50, left associativity).
Infix "[*]" := GoInt.mul (at level 40, left associativity).

(** ** Go's [float64], idealised *)

Module F.

Inductive float64 : Type :=
| Fin (q : Q)
| Inf (negative : bool)
| NaN.

Definition of_int (z : Z) : float64 := Fin (inject_Z z).

Definition is_zero (q : Q) : bool := Qeq_bool q 0.
Definition is_neg (q : Q) : bool := negb (Qle_bool 0 q).

Definition mul (a b : float64) : float64 :=
  match a, b with
  | NaN, _ | _, NaN => NaN
  | Fin x, Fin y => Fin (x * y)
  | Fin x, Inf s | Inf s, Fin x =>
      if is_zero x then NaN else Inf (xorb s (is_neg x))
  | Inf s, Inf t => Inf (xorb s t)
  end.

Definition div (a b : float64) : float64 :=
  match a, b with
  | NaN, _ | _, NaN => NaN
  | Fin x, Fin y =>
      if is_zero y
      then (if is_zero x then NaN else Inf (is_neg x))
      else Fin (x / y)
  | Fin _, Inf _ => Fin 0
  | Inf s, Fin y => Inf (xorb s (is_neg y))
  | Inf _, Inf _ => NaN
  end.

(** [lo <= f <= hi] for a finite [f]; false for infinities and NaN. *)
Definition between (lo hi : Q) (f : float64) : Prop :=
  match f with
  | Fin q => (lo <= q)%Q /\ (q <= hi)%Q
  | _ => False
  end.

End F.

(** ** The data model *)

Module image.

Record Point : Type := mkPoint { X : Z; Y : Z }.
Record Rectangle : Type := mkRect { Min : Point; Max : Point }.

Definition Dx (r : Rectangle) : Z := X (Max r) [-] X (Min r).
Definition Dy (r : Rectangle) : Z := Y (Max r) [-] Y (Min r).

End image.

Definition BotSize : Z := 60.
Definition MaxBotSpeed : Z := 12.
Definition MaxBotHealth : Z := 12.
Definition Padding : Z := BotSize [*] 2.
Definition ShrinkPercent : Z := 75.
Definition GridLineSpacing : Z := 180.
Definition PowerColorWeight : Z := GoInt.quo_const 255 12.

Module Bot.

Record t : Type := mk {
  PID : Z; BID : Z;
  X : Z; Y : Z;
  TX : Z; TY : Z;
  Health : Z;
  Fired : bool;
  HitX : Z; HitY : Z;
  Scrap : N;
  Shield : bool;
  FPow : Z; MPow : Z; SPow : Z
}.

End Bot.

Module Tick.

Record t : Type := mk { Tick : Z; Bots : list Bot.t }.

(** The four assignments that initialise [bounds] from the first bot. *)
Definition start (b0 : Bot.t) : image.Rectangle :=
  image.mkRect (image.mkPoint (Bot.X b0) (Bot.Y b0))
               (image.mkPoint (Bot.X b0) (Bot.Y b0)).

(** One iteration of the [range t.Bots] loop: four independent tests,
    each of which overwrites one field. *)
Definition widen (bounds : image.Rectangle) (bot : Bot.t) : image.Rectangle :=
  let maxX := if Bot.X bot >? image.X (image.Max bounds)
              then Bot.X bot else image.X (image.Max bounds) in
  let maxY := if Bot.Y bot >? image.Y (image.Max bounds)
              then Bot.Y bot else image.Y (image.Max bounds) in
  let minX := if Bot.X bot <? image.X (image.Min bounds)
              then Bot.X bot else image.X (image.Min bounds) in
  let minY := if Bot.Y bot <? image.Y (image.Min bounds)
              then Bot.Y bot else image.Y (image.Min bounds) in
  image.mkRect (image.mkPoint minX minY) (image.mkPoint maxX maxY).

(** [Bounds]: [None] is the panic "index out of range" raised by
    [t.Bots[0]] on a tick without bots. *)
Definition Bounds (t : t) : option image.Rectangle :=
  match Bots t with
  | [] => None
  | b0 :: _ => Some (fold_left widen (Bots t) (start b0))
  end.

End Tick.

(** [r] is the tight axis-aligned box of the positions in [bots]: every
    position is inside (bounds included) and each side is attained. *)
Definition tight_box (r : image.Rectangle) (bots : list Bot.t) : Prop :=
  (∀ b, b ∈ bots →
     image.X (image.Min r) <= Bot.X b <= image.X (image.Max r) ∧
     image.Y (image.Min r) <= Bot.Y b <= image.Y (image.Max r)) ∧
  (∃ b, b ∈ bots ∧ Bot.X b = image.X (image.Min r)) ∧
  (∃ b, b ∈ bots ∧ Bot.X b = image.X (image.Max r)) ∧
  (∃ b, b ∈ bots ∧ Bot.Y b = image.Y (image.Min r)) ∧
  (∃ b, b ∈ bots ∧ Bot.Y b = image.Y (image.Max r)).

(** ** The point transformer *)

Module PointTransformer.

Record t : Type := mk { Bounds : image.Rectangle; ratio : F.float64 }.

Definition X (pt : t) (x : Z) : F.float64 :=
  let nx := F.of_int (x [+] (-1) [*] image.X (image.Min (Bounds pt))) in
  F.mul nx (ratio pt).

Definition Y (pt : t) (y : Z) : F.float64 :=
  let ny := F.of_int (y [+] (-1) [*] image.Y (image.Min (Bounds pt))) in
  F.mul ny (ratio pt).

Definition Resize (pt : t) (val : Z) : F.float64 :=
  F.mul (F.of_int val) (ratio pt).

End PointTransformer.

(** The box after "Add padding". *)
Definition padded (bounds : image.Rectangle) (padding : Z) : image.Rectangle :=
  image.mkRect
    (image.mkPoint (image.X (image.Min bounds) [-] padding)
                   (image.Y (image.Min bounds) [-] padding))
    (image.mkPoint (image.X (image.Max bounds) [+] padding)
                   (image.Y (image.Max bounds) [+] padding)).

Definition NewPointTransformer (bounds : image.Rectangle) (padding maxDim : Z)
  : PointTransformer.t :=
  let b := padded bounds padding in
  let xLength := image.X (image.Max b) [-] image.X (image.Min b) in
  let yLength := image.Y (image.Max b) [-] image.Y (image.Min b) in
  if xLength >? yLength then
    let ratio := F.div (F.of_int maxDim) (F.of_int xLength) in
    let extra := xLength [-] yLength in
    PointTransformer.mk
      (image.mkRect
         (image.mkPoint (image.X (image.Min b))
                        (image.Y (image.Min b) [-] GoInt.quo_const extra 2))
         (image.mkPoint (image.X (image.Max b))
                        (image.Y (image.Max b) [+] GoInt.quo_const extra 2)))
      ratio
  else
    let ratio := F.div (F.of_int maxDim) (F.of_int yLength) in
    let extra := yLength [-] xLength in
    PointTransformer.mk
      (image.mkRect
         (image.mkPoint (image.X (image.Min b) [-] GoInt.quo_const extra 2)
                        (image.Y (image.Min b)))
         (image.mkPoint (image.X (image.Max b) [+] GoInt.quo_const extra 2)
                        (image.Y (image.Max b))))
      ratio.


(** Coordinates far enough from the ends of the [int] range for every
    operation of [NewPointTransformer] and of the rebuild tests to stay
    clear of wrap-around. *)
Definition moderate (z : Z) : Prop := - 2 ^ 60 <= z <= 2 ^ 60.

Definition moderate_box (B : image.Rectangle) : Prop :=
  moderate (image.X (image.Min B)) ∧ moderate (image.Y (image.Min B)) ∧
  moderate (image.X (image.Max B)) ∧ moderate (image.Y (image.Max B)).

(** A box as [Tick.Bounds] returns them: [Min] is not beyond [Max]. *)
Definition well_formed (B : image.Rectangle) : Prop :=
  image.X (image.Min B) <= image.X (image.Max B) ∧
  image.Y (image.Min B) <= image.Y (image.Max B).

(** A point of the plane lies in a box, sides included. *)
Definition inside (B : image.Rectangle) (p : image.Point) : Prop :=
  image.X (image.Min B) <= image.X p <= image.X (image.Max B) ∧
  image.Y (image.Min B) <= image.Y p <= image.Y (image.Max B).

(** ** The rebuild policy of the draw loop *)

(** First test of the loop body: the tick's bounds, widened by [BotSize],
    leave the transformer's box on some side. *)
Definition overflows (pt : PointTransformer.t) (tickBounds : image.Rectangle)
  : bool :=
  let ptB := PointTransformer.Bounds pt in
  (image.Y (image.Min tickBounds) [-] BotSize <? image.Y (image.Min ptB))
  || (image.X (image.Min tickBounds) [-] BotSize <? image.X (image.Min ptB))
  || (image.Y (image.Max tickBounds) [+] BotSize >? image.Y (image.Max ptB))
  || (image.X (image.Max tickBounds) [+] BotSize >? image.X (image.Max ptB)).

(** Second test: both sides of the tick's bounds are [ShrinkPercent] or
    less of the transformer's. [None] is the panic of an integer division
    by zero; as [&&] does in Go, the X quotient is computed only when the
    Y test has passed. *)
Definition shrinks (pt : PointTransformer.t) (tickBounds : image.Rectangle)
  : option bool :=
  let ptB := PointTransformer.Bounds pt in
  let thisYSize := image.Y (image.Max tickBounds) [-] image.Y (image.Min tickBounds) in
  let thisXSize := image.X (image.Max tickBounds) [-] image.X (image.Min tickBounds) in
  let ptYSize := image.Y (image.Max ptB) [-] image.Y (image.Min ptB) in
  let ptXSize := image.X (image.Max ptB) [-] image.X (image.Min ptB) in
  match GoInt.quo (thisYSize [*] 100) ptYSize with
  | None => None
  | Some qy =>
      if qy <=? ShrinkPercent then
        match GoInt.quo (thisXSize [*] 100) ptXSize with
        | None => None
        | Some qx => Some (qx <=? ShrinkPercent)
        end
      else Some false
  end.

(** The two tests in the order of the loop body. The transformer that
    draws the tick is returned with a flag, which is not in the program:
    it records whether one of the two calls of [NewPointTransformer] was
    executed during this iteration. *)
Definition refit (imageSize : Z) (pt : PointTransformer.t)
    (tickBounds : image.Rectangle) : option (PointTransformer.t * bool) :=
  let '(pt1, rebuilt1) :=
    if overflows pt tickBounds
    then (NewPointTransformer tickBounds Padding imageSize, true)
    else (pt, false) in
  match shrinks pt1 tickBounds with
  | None => None
  | Some true => Some (NewPointTransformer tickBounds Padding imageSize, true)
  | Some false => Some (pt1, rebuilt1)
  end.

(** ** Outcomes of a run *)

(** [Fatal] is [log.Fatalln]/[log.Fatalf] (message, then exit status 1),
    [Panic] a run-time panic, [Hang] a counting loop [for x := a; x <= b;
    x++] whose bound [b] is [MaxInt], which never ends. *)
Inductive result (A : Type) : Type :=
| Ok (a : A)
| Fatal (msg : string)
| Panic (msg : string)
| Hang.

Arguments Ok {A} a.
Arguments Fatal {A} msg.
Arguments Panic {A} msg.
Arguments Hang {A}.

#[global] Instance result_ret : MRet result := λ A a, Ok a.

#[global] Instance result_bind : MBind result := λ A B f r,
  match r with
  | Ok a => f a
  | Fatal msg => Fatal msg
  | Panic msg => Panic msg
  | Hang => Hang
  end.

Definition or_panic {A : Type} (msg : string) (o : option A) : result A :=
  match o with
  | Some a => Ok a
  | None => Panic msg
  end.

(** The values of [x] in [for x := lo; x <= hi; x++]. *)
Definition count_up (lo hi : Z) : result (list Z) :=
  if (lo <=? hi) && (hi =? GoInt.MaxInt) then Hang
  else Ok (seqZ lo (hi - lo + 1)).

(** ** The frame renderer *)

Module color.

Record RGBA : Type := mk { R : Z; G : Z; B : Z; A : Z }.

End color.

(** Conversion of an [int] to [uint8]: the low eight bits. *)
Definition uint8 (z : Z) : Z := z mod 256.

Definition ColorBlack : color.RGBA := color.mk 0 0 0 255.
Definition ColorWhite : color.RGBA := color.mk 255 255 255 255.
Definition GridColor : color.RGBA := color.mk 26 26 26 255.
Definition ColorBlue : color.RGBA := color.mk 0 0 255 255.
Definition ColorRed : color.RGBA := color.mk 255 0 0 255.
Definition ColorExplosion : color.RGBA := color.mk 255 0 0 204.
Definition ColorTransparent : color.RGBA := color.mk 0 0 0 0.

(** The calls made on the graphic context. The shape and letter helpers
    of the source ([circleAt], [hexagonAt], [sAt], ...) only emit path
    segments computed from their three arguments; each is kept as one
    operation. *)
Inductive GcOp : Type :=
| SetStrokeColor (c : color.RGBA)
| SetFillColor (c : color.RGBA)
| SetLineWidth (w : F.float64)
| BeginPath
| MoveTo (x y : F.float64)
| LineTo (x y : F.float64)
| Stroke
| Fill
| FillStroke
| circleAt (x y radius : F.float64)
| hexagonAt (x y radius : F.float64)
| sAt (sx sy unit : F.float64)
| cAt (sx sy unit : F.float64)
| rAt (sx sy unit : F.float64)
| aAt (sx sy unit : F.float64)
| pAt (sx sy unit : F.float64)
| eAt (sx sy unit : F.float64).

(** An [*image.RGBA] of [imageSize] by [imageSize] pixels, as the list of
    operations applied to its graphic context. *)
Record Frame : Type := mkFrame { Side : Z; Paint : list GcOp }.

(** An [*image.Paletted]: the frame it was dithered from by
    [draw.FloydSteinberg] against [palette.Plan9]. *)
Inductive Paletted : Type := FloydSteinberg (img : Frame).

Definition gridLinesX (pt : PointTransformer.t) : result (list GcOp) :=
  let b := PointTransformer.Bounds pt in
  xs ← count_up (image.X (image.Min b)) (image.X (image.Max b));
  mret (flat_map (λ x,
    if GoInt.rem_const x GridLineSpacing =? 0 then
      [BeginPath;
       MoveTo (PointTransformer.X pt x) (PointTransformer.Y pt (image.Y (image.Min b)));
       LineTo (PointTransformer.X pt x) (PointTransformer.Y pt (image.Y (image.Max b)));
       Stroke]
    else []) xs).

Definition gridLinesY (pt : PointTransformer.t) : result (list GcOp) :=
  let b := PointTransformer.Bounds pt in
  ys ← count_up (image.Y (image.Min b)) (image.Y (image.Max b));
  mret (flat_map (λ y,
    if GoInt.rem_const y GridLineSpacing =? 0 then
      [BeginPath;
       MoveTo (PointTransformer.X pt (image.X (image.Min b))) (PointTransformer.Y pt y);
       LineTo (PointTransformer.X pt (image.X (image.Max b))) (PointTransformer.Y pt y);
       Stroke]
    else []) ys).

(** The nine letters, each 150 units right of the previous one. *)
Fixpoint letters (pt : PointTransformer.t) (sx sy : Z)
    (glyphs : list (F.float64 → F.float64 → F.float64 → GcOp)) : list GcOp :=
  match glyphs with
  | [] => []
  | glyph :: rest =>
      [BeginPath;
       glyph (PointTransformer.X pt sx) (PointTransformer.Y pt sy)
             (PointTransformer.Resize pt 100);
       Stroke]
      ++ letters pt (sx [+] 150) sy rest
  end.

Definition logo (pt : PointTransformer.t) : list GcOp :=
  SetLineWidth (PointTransformer.Resize pt 24)
  :: letters pt (-650) (-100) [sAt; cAt; rAt; aAt; pAt; pAt; eAt; rAt; sAt].

Definition shots (pt : PointTransformer.t) (bots : list Bot.t) : list GcOp :=
  [SetLineWidth (F.of_int 1); SetStrokeColor ColorRed]
  ++ flat_map (λ bot,
       if Bot.Fired bot then
         [BeginPath;
          MoveTo (PointTransformer.X pt (Bot.HitX bot)) (PointTransformer.Y pt (Bot.HitY bot));
          LineTo (PointTransformer.X pt (Bot.X bot)) (PointTransformer.Y pt (Bot.Y bot));
          Stroke]
       else []) bots.

Definition explosions (pt : PointTransformer.t) (bots : list Bot.t) : list GcOp :=
  SetFillColor ColorExplosion
  :: flat_map (λ bot,
       if Bot.Health bot <=? 0 then
         [BeginPath;
          circleAt (PointTransformer.X pt (Bot.X bot)) (PointTransformer.Y pt (Bot.Y bot))
                   (PointTransformer.Resize pt (BotSize [*] 2));
          Fill]
       else []) bots.

(** [healthSize > 0] on the idealised floats. *)
Definition positive (f : F.float64) : bool :=
  match f with
  | F.Fin q => negb (Qle_bool q 0)
  | F.Inf negative => negb negative
  | F.NaN => false
  end.

(** Body, health mark and shield of one living bot; [shape] is [circleAt]
    for player 1 and [hexagonAt] for player 2. *)
Definition body (pt : PointTransformer.t) (bot : Bot.t)
    (shape : F.float64 → F.float64 → F.float64 → GcOp) : list GcOp :=
  let healthSize :=
    F.div (F.of_int (MaxBotHealth [-] Bot.Health bot)) (F.of_int MaxBotHealth) in
  let x := PointTransformer.X pt (Bot.X bot) in
  let y := PointTransformer.Y pt (Bot.Y bot) in
  let radius := PointTransformer.Resize pt (GoInt.quo_const BotSize 2) in
  [shape x y radius; FillStroke]
  ++ (if positive healthSize then
        [SetFillColor ColorBlack; SetLineWidth (F.of_int 0);
         shape x y (F.mul radius healthSize); FillStroke]
      else []).

Definition shield (pt : PointTransformer.t) (bot : Bot.t) : list GcOp :=
  if Bot.Shield bot then
    [SetStrokeColor ColorWhite; SetFillColor ColorTransparent;
     circleAt (PointTransformer.X pt (Bot.X bot)) (PointTransformer.Y pt (Bot.Y bot))
              (F.mul (PointTransformer.Resize pt (GoInt.quo_const BotSize 2))
                     (F.Fin (11 # 10)));
     FillStroke]
  else [].

Definition unsupported_player : string :=
  "This program does not support more than two players."%string.

(** The loop "Draw bot bodies and shields". *)
Fixpoint bodies (pt : PointTransformer.t) (bots : list Bot.t) : result (list GcOp) :=
  match bots with
  | [] => Ok []
  | bot :: rest =>
      if Bot.Health bot <=? 0 then bodies pt rest
      else
        let bodyColor :=
          color.mk (uint8 (PowerColorWeight [*] Bot.FPow bot))
                   (uint8 (PowerColorWeight [*] Bot.MPow bot))
                   (uint8 (PowerColorWeight [*] Bot.SPow bot))
                   255 in
        let setup :=
          [SetStrokeColor ColorBlack; SetFillColor bodyColor;
           SetLineWidth (F.of_int 1)] in
        drawn_body ←
          (if Bot.PID bot =? 1 then Ok (body pt bot circleAt)
           else if Bot.PID bot =? 2 then Ok (body pt bot hexagonAt)
           else Fatal unsupported_player);
        others ← bodies pt rest;
        Ok (setup ++ drawn_body ++ shield pt bot ++ others)
  end.

(** [image.Rect(x0, y0, x1, y1)] of Go's [image] package: the corners are
    swapped where needed, so that [Min] is not beyond [Max]. *)
Definition Rect (x0 y0 x1 y1 : Z) : image.Rectangle :=
  let '(x0, x1) := if x0 >? x1 then (x1, x0) else (x0, x1) in
  let '(y0, y1) := if y0 >? y1 then (y1, y0) else (y0, y1) in
  image.mkRect (image.mkPoint x0 y0) (image.mkPoint x1 y1).

(** [mul3NonNeg] of Go's [image] package: [x * y * z], or -1 when an
    argument is negative or a product leaves [int]. The two products are
    taken on 64-bit unsigned words with their high words tested, and the
    result is read back as an [int]. *)
Definition mul3NonNeg (x y z : Z) : Z :=
  if (x <? 0) || (y <? 0) || (z <? 0) then -1
  else
    let lo := x * y in
    if 2 ^ 64 <=? lo then -1
    else
      let lo := lo * z in
      if 2 ^ 64 <=? lo then -1
      else if 2 ^ 63 <=? lo then -1
      else lo.

(** The largest length in bytes that [make] accepts: [maxAlloc] of Go's
    run-time system, [2 ^ 48] on amd64 and arm64. *)
Definition maxAlloc : Z := 2 ^ 48.

(** [image.NewRGBA(r)]: the pixel buffer has four bytes for every pixel.
    [pixelBufferLength] panics on a length that [mul3NonNeg] could not
    compute, and [make([]uint8, n)] on a length beyond [maxAlloc]. The
    result is the rectangle of the image. *)
Definition NewRGBA (r : image.Rectangle) : result image.Rectangle :=
  let totalLength := mul3NonNeg 4 (image.Dx r) (image.Dy r) in
  if totalLength <? 0
  then Panic "image: NewRGBA Rectangle has huge or negative dimensions"
  else if maxAlloc <? totalLength then Panic "makeslice: len out of range"
  else Ok r.

(** One frame: everything from [image.NewRGBA] to [drawn[i] = img]. *)
Definition drawTick (pt : PointTransformer.t) (imageSize : Z) (tick : Tick.t)
  : result Frame :=
  _ ← NewRGBA (Rect 0 0 imageSize imageSize);
  gx ← gridLinesX pt;
  gy ← gridLinesY pt;
  bs ← bodies pt (Tick.Bots tick);
  Ok (mkFrame imageSize
        ([SetStrokeColor GridColor; SetLineWidth (F.of_int 1)]
         ++ gx ++ gy ++ logo pt
         ++ shots pt (Tick.Bots tick)
         ++ explosions pt (Tick.Bots tick)
         ++ bs)).

(** ** [main] *)

Record Flags : Type := mkFlags {
  inFile : string;
  outFile : string;
  ticksPerSecond : Z;
  threads : Z;
  imageSize : Z
}.

(** What is handed to [gif.EncodeAll]. *)
Record GIF : Type := mkGIF {
  Image : list (option Paletted);
  Delay : list Z
}.

(** The variables that the draw loop updates: the transformer [pt] and the
    three package-level slices. [used] is not in the program: it lists,
    tick by tick, the transformer each frame was drawn with and the flag
    of [refit]. *)
Record Loop : Type := mkLoop {
  pt : PointTransformer.t;
  drawn : list (option Frame);
  converted : list (option Paletted);
  delays : list Z;
  used : list (PointTransformer.t * bool)
}.

(** The body of [convert] for one received index, run to its end: the
    single-threaded reading of the hand-over [index <- i]. [None] is the
    nil dereference of [img.Bounds()] on an empty slot. *)
Definition convert_slot (i : nat) (drawn : list (option Frame))
    (converted : list (option Paletted))
  : option (list (option Frame) * list (option Paletted)) :=
  match drawn !! i with
  | Some (Some img) =>
      Some (<[i := None]> drawn, <[i := Some (FloydSteinberg img)]> converted)
  | _ => None
  end.

(** The loop [for i, tick := range ticks]: [i] is the index of the head
    of [ticks]. *)
Fixpoint draw_loop (fl : Flags) (i : nat) (ticks : list Tick.t) (st : Loop)
  : result Loop :=
  match ticks with
  | [] => Ok st
  | tick :: rest =>
      tickBounds ← or_panic "index out of range" (Tick.Bounds tick);
      '(pt', rebuilt) ← or_panic "integer divide by zero"
                          (refit (imageSize fl) (pt st) tickBounds);
      img ← drawTick pt' (imageSize fl) tick;
      d ← or_panic "integer divide by zero" (GoInt.quo 100 (ticksPerSecond fl));
      '(drawn', converted') ← or_panic "nil pointer dereference"
                                (convert_slot i (<[i := Some img]> (drawn st))
                                   (converted st));
      draw_loop fl (S i) rest
        (mkLoop pt' drawn' converted' (<[i := d]> (delays st))
                (used st ++ [(pt', rebuilt)]))
  end.

(** "Let first and last frame linger": the two assignments after the
    loop. *)
Definition linger (fl : Flags) (delays : list Z) : result (list Z) :=
  match delays with
  | [] => Panic "index out of range"
  | _ :: _ =>
      let delays := <[0%nat := GoInt.quo_const 100 100]> delays in
      d ← or_panic "integer divide by zero" (GoInt.quo 100 (ticksPerSecond fl));
      Ok (<[Nat.pred (length delays) := d [*] 10]> delays)
  end.

(** The state after [main] has validated its flags, sized the slices,
    built the first transformer and run the draw loop. Reading and parsing
    the input file are left out: [ticks] is the parsed file. *)
Definition drawAll (fl : Flags) (ticks : list Tick.t) : result Loop :=
  if threads fl <? 1 then Fatal "Threads must be greater than zero."
  else if (ticksPerSecond fl >? 100) || (ticksPerSecond fl <? 1)
  then Fatal "Speed must be between 1 and 100."
  else if imageSize fl <? 1 then Fatal "Image size must be greater than zero."
  else
    let n := length ticks in
    _ ← count_up 1 (threads fl);
    tick0 ← or_panic "index out of range" (ticks !! 0%nat);
    tickBounds ← or_panic "index out of range" (Tick.Bounds tick0);
    draw_loop fl 0 ticks
      (mkLoop (NewPointTransformer tickBounds Padding (imageSize fl))
              (replicate n None) (replicate n None) (replicate n 0) []).

Definition main (fl : Flags) (ticks : list Tick.t) : result GIF :=
  st ← drawAll fl ticks;
  delays' ← linger fl (delays st);
  Ok (mkGIF (converted st) delays').

(** The transformers of a run, tick by tick: starting from the carried
    transformer [c], each tick has bounds, [refit] succeeds on them and
    its result is both recorded and carried to the next tick. *)
Fixpoint refits (imageSize : Z) (c : PointTransformer.t) (ticks : list Tick.t)
    (trace : list (PointTransformer.t * bool)) : Prop :=
  match ticks, trace with
  | [], [] => True
  | tick :: ticks', (p, rebuilt) :: trace' =>
      (∃ tickBounds, Tick.Bounds tick = Some tickBounds ∧
                     refit imageSize c tickBounds = Some (p, rebuilt)) ∧
      refits imageSize p ticks' trace'
  | _, _ => False
  end.

(** A tick that the renderer accepts: at least one bot, positions of
    moderate size, and living bots of players 1 and 2 only. *)
Definition drawable (tick : Tick.t) : Prop :=
  Tick.Bots tick ≠ [] ∧
  ∀ bot, bot ∈ Tick.Bots tick →
    moderate (Bot.X bot) ∧ moderate (Bot.Y bot) ∧
    (0 < Bot.Health bot → Bot.PID bot = 1 ∨ Bot.PID bot = 2).

(** A transformer on which neither the grid loops nor the shrink test can
    go wrong. *)
Definition sound (pt : PointTransformer.t) : Prop :=
  image.Dx (PointTransformer.Bounds pt) ≠ 0 ∧
  image.Dy (PointTransformer.Bounds pt) ≠ 0 ∧
  image.X (image.Max (PointTransformer.Bounds pt)) < GoInt.MaxInt ∧
  image.Y (image.Max (PointTransformer.Bounds pt)) < GoInt.MaxInt.

(** ** Sample data *)

Definition circle_bot (x y : Z) : Bot.t :=
  Bot.mk 1 1 x y 0 0 12 false 0 0 0%N false 4 4 4.

Definition hexagon_bot (x y : Z) : Bot.t :=
  Bot.mk 2 1 x y 0 0 5 true 3 3 0%N true 12 0 6.

Definition sample_flags : Flags :=
  mkFlags "scrappers.json" "scrappers.gif" 12 8 600.

(** Three ticks: the second keeps the transformer of the first, the third
    leaves its box on the right. *)
Definition sample_ticks : list Tick.t :=
  [Tick.mk 0 [circle_bot 0 0; hexagon_bot 1000 0];
   Tick.mk 1 [circle_bot 10 0; hexagon_bot 1000 0];
   Tick.mk 2 [circle_bot 0 0; hexagon_bot 1100 0]].

(** ** The draw/quantize pipeline *)

(** The goroutines of [main] and [convert] as an interleaving of atomic
    steps. The channels [index], [drawDone] and [convertDone] are
    unbuffered: a send and its receive are one joint step of the driver
    and one worker. [quantize] is the dithering of one frame, [imgs] the
    frames that the driver draws, in tick order, and [W] the number of
    workers ([*threads]). *)
Module Pipeline.

Section pool.

Context {Img Pal : Type}.
Variable quantize : Img → Pal.
Variable imgs : list Img.
Variable W : nat.

(** Where the driver stands in [main]. *)
Inductive Driver : Type :=
| DDraw (i : nat)      (* at the head of the draw loop, [i] ticks done *)
| DPublish (i : nat)   (* [drawn[i]] written, blocked in [index <- i] *)
| DSignal (n : nat)    (* [n] sends of [drawDone <- true] done *)
| DWait (n : nat)      (* [n] receives of [<-convertDone] done *)
| DWrite.              (* past both loops: [converted] goes to the encoder *)

(** Where a worker stands in [convert]. *)
Inductive Worker : Type :=
| WSelect                       (* blocked in [select] *)
| WGot (i : nat)                (* received [i], before [img := drawn[i]] *)
| WDither (i : nat) (img : Img) (* holds [img], before [converted[i] = pal] *)
| WClear (i : nat)              (* before [drawn[i] = nil] *)
| WAck                          (* got [drawDone], blocked in [convertDone <- true] *)
| WExit                         (* returned *)
| WPanic.                       (* [img.Bounds()] on a nil [img] *)

Record State : Type := mkState {
  driver : Driver;
  workers : list Worker;
  drawn : list (option Img);
  converted : list (option Pal)
}.

Definition init : State :=
  mkState (DDraw 0) (replicate W WSelect)
          (replicate (length imgs) None) (replicate (length imgs) None).

(** A scheduler's choice: the driver moves (with worker [w] as its partner
    when the move is a channel operation), or worker [w] moves. *)
Inductive Action : Type :=
| Drive (w : nat)
| Work (w : nat).

(** One step; [None] when the chosen goroutine is blocked. *)
Definition exec (s : State) (a : Action) : option State :=
  match a with
  | Drive w =>
      match driver s with
      | DDraw i =>
          match imgs !! i with
          | Some img =>
              Some (mkState (DPublish i) (workers s)
                            (<[i := Some img]> (drawn s)) (converted s))
          | None => Some (mkState (DSignal 0) (workers s) (drawn s) (converted s))
          end
      | DPublish i =>
          match workers s !! w with
          | Some WSelect =>
              Some (mkState (DDraw (S i)) (<[w := WGot i]> (workers s))
                            (drawn s) (converted s))
          | _ => None
          end
      | DSignal n =>
          if decide (n < W)%nat then
            match workers s !! w with
            | Some WSelect =>
                Some (mkState (DSignal (S n)) (<[w := WAck]> (workers s))
                              (drawn s) (converted s))
            | _ => None
            end
          else Some (mkState (DWait 0) (workers s) (drawn s) (converted s))
      | DWait n =>
          if decide (n < W)%nat then
            match workers s !! w with
            | Some WAck =>
                Some (mkState (DWait (S n)) (<[w := WExit]> (workers s))
                              (drawn s) (converted s))
            | _ => None
            end
          else Some (mkState DWrite (workers s) (drawn s) (converted s))
      | DWrite => None
      end
  | Work w =>
      match workers s !! w with
      | Some (WGot i) =>
          match drawn s !! i with
          | Some (Some img) =>
              Some (mkState (driver s) (<[w := WDither i img]> (workers s))
                            (drawn s) (converted s))
          | _ =>
              Some (mkState (driver s) (<[w := WPanic]> (workers s))
                            (drawn s) (converted s))
          end
      | Some (WDither i img) =>
          Some (mkState (driver s) (<[w := WClear i]> (workers s))
                        (drawn s) (<[i := Some (quantize img)]> (converted s)))
      | Some (WClear i) =>
          Some (mkState (driver s) (<[w := WSelect]> (workers s))
                        (<[i := None]> (drawn s)) (converted s))
      | _ => None
      end
  end.

(** A schedule, step after step. *)
Fixpoint run (sched : list Action) (s : State) : option State :=
  match sched with
  | [] => Some s
  | a :: sched' =>
      match exec s a with
      | Some s' => run sched' s'
      | None => None
      end
  end.

(** The index that a worker is busy with. *)
Definition held (wk : Worker) : option nat :=
  match wk with
  | WGot i | WDither i _ | WClear i => Some i
  | _ => None
  end.

(** The number of indices sent on [index] so far. *)
Definition published (s : State) : nat :=
  match driver s with
  | DDraw i | DPublish i => i
  | _ => length imgs
  end.

Fixpoint acked (ws : list Worker) : nat :=
  match ws with
  | [] => 0
  | WAck :: ws' => S (acked ws')
  | _ :: ws' => acked ws'
  end.

Fixpoint exited (ws : list Worker) : nat :=
  match ws with
  | [] => 0
  | WExit :: ws' => S (exited ws')
  | _ :: ws' => exited ws'
  end.

(** The number of steps that a goroutine still has before it, the
    hand-overs it takes part in included. *)
Definition worker_steps (wk : Worker) : nat :=
  match wk with
  | WGot _ => 5
  | WDither _ _ => 4
  | WClear _ => 3
  | WSelect => 2
  | WAck => 1
  | WExit | WPanic => 0
  end.

Definition driver_steps (d : Driver) : nat :=
  match d with
  | DDraw i => 5 * (length imgs - i) + 3
  | DPublish i => 5 * (length imgs - i) + 2
  | DSignal _ => 2
  | DWait _ => 1
  | DWrite => 0
  end.

Definition steps_left (s : State) : nat :=
  driver_steps (driver s) + sum_list_with worker_steps (workers s).

(** Slot [i] holds the dithering of frame [i]. *)
Definition slot_done (s : State) (i : nat) : Prop :=
  ∃ img, imgs !! i = Some img ∧ converted s !! i = Some (Some (quantize img)).

(** Which workers have been told to stop, by the place of the driver. *)
Definition phase (d : Driver) (ws : list Worker) : Prop :=
  match d with
  | DDraw _ | DPublish _ => ∀ w, ws !! w ≠ Some WAck ∧ ws !! w ≠ Some WExit
  | DSignal n => (n ≤ W)%nat ∧ acked ws = n ∧ ∀ w, ws !! w ≠ Some WExit
  | DWait n =>
      (n ≤ W)%nat ∧ exited ws = n ∧
      ∀ w wk, ws !! w = Some wk → wk = WAck ∨ wk = WExit
  | DWrite => ∀ w wk, ws !! w = Some wk → wk = WAck ∨ wk = WExit
  end.

(** What every reachable state satisfies. *)
Record Inv (s : State) : Prop := mkInv {
  inv_drawn : length (drawn s) = length imgs;
  inv_converted : length (converted s) = length imgs;
  inv_workers : length (workers s) = W;
  inv_published : (published s ≤ length imgs)%nat;
  inv_publish :
    ∀ i, driver s = DPublish i →
         ∃ img, imgs !! i = Some img ∧ drawn s !! i = Some (Some img);
  inv_held :
    ∀ w wk i, workers s !! w = Some wk → held wk = Some i →
              (i < published s)%nat;
  inv_unique :
    ∀ w w' wk wk' i, workers s !! w = Some wk → workers s !! w' = Some wk' →
                     held wk = Some i → held wk' = Some i → w = w';
  inv_got :
    ∀ w i, workers s !! w = Some (WGot i) →
           ∃ img, imgs !! i = Some img ∧ drawn s !! i = Some (Some img);
  inv_dither :
    ∀ w i img, workers s !! w = Some (WDither i img) → imgs !! i = Some img;
  inv_clear :
    ∀ w i, workers s !! w = Some (WClear i) → slot_done s i;
  inv_slots :
    ∀ i, (i < published s)%nat →
         (∃ w wk, workers s !! w = Some wk ∧ held wk = Some i) ∨ slot_done s i;
  inv_no_panic : ∀ w, workers s !! w ≠ Some WPanic;
  inv_phase : phase (driver s) (workers s)
}.

(** The schedule in which worker 0 dithers every frame as soon as it is
    published, and the workers are then stopped in order. *)
Definition one_frame : list Action := [Drive 0; Drive 0; Work 0; Work 0; Work 0]%nat.

Definition in_turn : list Action := Drive <$> seq 0 W.

Definition orderly : list Action :=
  concat (replicate (length imgs) one_frame)
  ++ [Drive 0%nat] ++ in_turn ++ [Drive 0%nat] ++ in_turn ++ [Drive 0%nat].

End pool.

End Pipeline.

(** ** Further notions *)

(** A box and a transformer for the examples: the box of two bots at
    [(0, 0)] and [(100, 50)], and the transformer of a field of 2000 units
    drawn on 600 pixels. *)
Definition sample_box : image.Rectangle :=
  image.mkRect (image.mkPoint 0 0) (image.mkPoint 100 50).

Definition sample_pt : PointTransformer.t :=
  PointTransformer.mk
    (image.mkRect (image.mkPoint (-1000) (-1000)) (image.mkPoint 1000 1000))
    (F.Fin (3 # 10)).

(** Every position of [t] is also a position of [t']. *)
Definition covers (t t' : Tick.t) : Prop :=
  ∀ b, b ∈ Tick.Bots t →
       ∃ b', b' ∈ Tick.Bots t' ∧ Bot.X b' = Bot.X b ∧ Bot.Y b' = Bot.Y b.

(** [inner] lies within [outer], sides included. *)
Definition within (inner outer : image.Rectangle) : Prop :=
  image.X (image.Min outer) <= image.X (image.Min inner) ∧
  image.Y (image.Min outer) <= image.Y (image.Min inner) ∧
  image.X (image.Max inner) <= image.X (image.Max outer) ∧
  image.Y (image.Max inner) <= image.Y (image.Max outer).

(** The positions of a tick are of moderate size. *)
Definition moderate_tick (tick : Tick.t) : Prop :=
  ∀ bot, bot ∈ Tick.Bots tick → moderate (Bot.X bot) ∧ moderate (Bot.Y bot).

(** Positions small enough for a side of their box, times 100, to stay
    within [int]: the shrink test multiplies before it divides. *)
Definition small_tick (tick : Tick.t) : Prop :=
  ∀ bot, bot ∈ Tick.Bots tick →
         - 2 ^ 55 <= Bot.X bot <= 2 ^ 55 ∧ - 2 ^ 55 <= Bot.Y bot <= 2 ^ 55.

(** A transformer built by [NewPointTransformer], with the padding of the
    draw loop, from a box of moderate size. *)
Definition built_for (S : Z) (p : PointTransformer.t) : Prop :=
  ∃ b, moderate_box b ∧ well_formed b ∧ p = NewPointTransformer b Padding S.

(** A tick with at least one bot whose living bots belong to player 1 or
    player 2. *)
Definition supported (tick : Tick.t) : Prop :=
  Tick.Bots tick ≠ [] ∧
  ∀ bot, bot ∈ Tick.Bots tick → 0 < Bot.Health bot →
         Bot.PID bot = 1 ∨ Bot.PID bot = 2.

(** ** The shape and letter helpers *)

(** [circleAt] and the six letter helpers, as the path segments that they
    send to the graphic context. [hexagonAt] is left out: its corners are
    computed with [math.Cos] and [math.Sin] and are not rational. *)
Module Shapes.

(** [a + b] and [a - b] on the idealised floats. *)
Definition add (a b : F.float64) : F.float64 :=
  match a, b with
  | F.NaN, _ | _, F.NaN => F.NaN
  | F.Fin x, F.Fin y => F.Fin (x + y)
  | F.Fin _, F.Inf s | F.Inf s, F.Fin _ => F.Inf s
  | F.Inf s, F.Inf t => if eqb s t then F.Inf s else F.NaN
  end.

Definition sub (a b : F.float64) : F.float64 :=
  match a, b with
  | F.NaN, _ | _, F.NaN => F.NaN
  | F.Fin x, F.Fin y => F.Fin (x - y)
  | F.Fin _, F.Inf s => F.Inf (negb s)
  | F.Inf s, F.Fin _ => F.Inf s
  | F.Inf s, F.Inf t => if eqb s t then F.NaN else F.Inf s
  end.

Record Point : Type := mkPoint { X : F.float64; Y : F.float64 }.

(** The calls that build a path. *)
Inductive PathOp : Type :=
| MoveTo (x y : F.float64)
| LineTo (x y : F.float64)
| CubicCurveTo (cx1 cy1 cx2 cy2 x y : F.float64)
| Close.

Definition circleAt (x y radius : F.float64) : list PathOp :=
  let cpDist := F.div (F.mul radius (F.of_int 4)) (F.of_int 3) in
  let hp := mkPoint x (sub y radius) in
  let lp := mkPoint x (add y radius) in
  let rhcp := mkPoint (add x cpDist) (sub y radius) in
  let rlcp := mkPoint (add x cpDist) (add y radius) in
  let lhcp := mkPoint (sub x cpDist) (sub y radius) in
  let llcp := mkPoint (sub x cpDist) (add y radius) in
  [MoveTo (X hp) (Y hp);
   CubicCurveTo (X rhcp) (Y rhcp) (X rlcp) (Y rlcp) (X lp) (Y lp);
   CubicCurveTo (X llcp) (Y llcp) (X lhcp) (Y lhcp) (X hp) (Y hp);
   Close].

Definition sAt (sx sy unit : F.float64) : list PathOp :=
  [MoveTo (add sx unit) sy;
   LineTo sx sy;
   LineTo sx (add sy unit);
   LineTo (add sx unit) (add sy unit);
   LineTo (add sx unit) (add sy (F.mul unit (F.of_int 2)));
   LineTo sx (add sy (F.mul unit (F.of_int 2)))].

Definition cAt (sx sy unit : F.float64) : list PathOp :=
  [MoveTo (add sx unit) sy;
   LineTo sx sy;
   LineTo sx (add sy (F.mul unit (F.of_int 2)));
   LineTo (add sx unit) (add sy (F.mul unit (F.of_int 2)))].

Definition rAt (sx sy unit : F.float64) : list PathOp :=
  [MoveTo sx (add sy (F.mul unit (F.of_int 2)));
   LineTo sx sy;
   LineTo (add sx unit) sy;
   LineTo (add sx unit) (add sy unit);
   LineTo sx (add sy unit);
   MoveTo (add sx (F.div unit (F.of_int 2))) (add sy unit);
   LineTo (add sx unit) (add sy (F.mul unit (F.of_int 2)))].

Definition aAt (sx sy unit : F.float64) : list PathOp :=
  [MoveTo sx (add sy (F.mul unit (F.of_int 2)));
   LineTo sx sy;
   LineTo (add sx unit) sy;
   LineTo (add sx unit) (add sy (F.mul unit (F.of_int 2)));
   MoveTo sx (add sy unit);
   LineTo (add sx unit) (add sy unit)].

Definition pAt (sx sy unit : F.float64) : list PathOp :=
  [MoveTo sx (add sy (F.mul unit (F.of_int 2)));
   LineTo sx sy;
   LineTo (add sx unit) sy;
   LineTo (add sx unit) (add sy unit);
   LineTo sx (add sy unit)].

Definition eAt (sx sy unit : F.float64) : list PathOp :=
  [MoveTo (add sx unit) sy;
   LineTo sx sy;
   LineTo sx (add sy (F.mul unit (F.of_int 2)));
   LineTo (add sx unit) (add sy (F.mul unit (F.of_int 2)));
   MoveTo sx (add sy unit);
   LineTo (add sx unit) (add sy unit)].

(** The points that a path names: end points and control points. *)
Definition points (path : list PathOp) : list Point :=
  flat_map (λ op,
    match op with
    | MoveTo x y | LineTo x y => [mkPoint x y]
    | CubicCurveTo cx1 cy1 cx2 cy2 x y =>
        [mkPoint cx1 cy1; mkPoint cx2 cy2; mkPoint x y]
    | Close => []
    end) path.

(** A point with finite coordinates in [[x0, x1]] by [[y0, y1]]. *)
Definition in_box (x0 x1 y0 y1 : Q) (p : Point) : Prop :=
  F.between x0 x1 (X p) ∧ F.between y0 y1 (Y p).

End Shapes.

(** The path behind an operation of the graphic context. *)
Definition outline (op : GcOp) : option (list Shapes.PathOp) :=
  match op with
  | MoveTo x y => Some [Shapes.MoveTo x y]
  | LineTo x y => Some [Shapes.LineTo x y]
  | circleAt x y radius => Some (Shapes.circleAt x y radius)
  | hexagonAt _ _ _ => None
  | sAt sx sy unit => Some (Shapes.sAt sx sy unit)
  | cAt sx sy unit => Some (Shapes.cAt sx sy unit)
  | rAt sx sy unit => Some (Shapes.rAt sx sy unit)
  | aAt sx sy unit => Some (Shapes.aAt sx sy unit)
  | pAt sx sy unit => Some (Shapes.pAt sx sy unit)
  | eAt sx sy unit => Some (Shapes.eAt sx sy unit)
  | _ => Some []
  end.

(** The indices of the frames that are drawn and not yet released: the
    non-nil entries of [drawn]. *)
Definition in_flight {Img Pal : Type} (s : @Pipeline.State Img Pal) : list nat :=
  filter (λ i, is_Some (mjoin (Pipeline.drawn s !! i)))
         (seq 0 (length (Pipeline.drawn s))).

(** Who answers for the frames in flight: a non-nil entry of [drawn] is
    the frame of its tick, and it is either the one that the driver is
    sending or one that a worker is busy with; and once the driver is
    past both loops, every worker has returned. *)
Record Owned {Img Pal : Type} (imgs : list Img) (s : @Pipeline.State Img Pal)
  : Prop := mkOwned {
  own_live :
    ∀ i img, Pipeline.drawn s !! i = Some (Some img) →
      imgs !! i = Some img ∧
      (Pipeline.driver s = Pipeline.DPublish i ∨
       ∃ w wk, Pipeline.workers s !! w = Some wk ∧ Pipeline.held wk = Some i);
  own_done :
    Pipeline.driver s = Pipeline.DWrite →
    ∀ w wk, Pipeline.workers s !! w = Some wk → wk = Pipeline.WExit
}.

(** * Properties *)

(** ** Integer arithmetic without wrap-around *)

Lemma wrap_small (z : Z) : GoInt.in_range z → GoInt.wrap z = z.
Proof.
  unfold GoInt.in_range, GoInt.wrap, GoInt.MinInt, GoInt.MaxInt. intros Hz.
  rewrite Z.mod_small; lia.
Qed.

Lemma wrap_in_range (z : Z) : GoInt.in_range (GoInt.wrap z).
Proof.
  unfold GoInt.in_range, GoInt.wrap, GoInt.MinInt, GoInt.MaxInt.
  pose proof (Z.mod_pos_bound (z + 2 ^ 63) (2 ^ 64)). lia.
Qed.

(** [wrap z] differs from [z] by a multiple of [2^64]. *)
Lemma wrap_congruent (z : Z) : ∃ k, GoInt.wrap z = z + k * 2 ^ 64.
Proof.
  exists (- ((z + 2 ^ 63) / 2 ^ 64)). unfold GoInt.wrap.
  pose proof (Z.div_mod (z + 2 ^ 63) (2 ^ 64)). lia.
Qed.

Lemma wrap_unique (z r : Z) (k : Z) :
  GoInt.in_range r → r = z + k * 2 ^ 64 → GoInt.wrap z = r.
Proof.
  intros Hr ->. destruct (wrap_congruent z) as [k' Hk'].
  pose proof (wrap_in_range z) as Hw. rewrite Hk' in *.
  unfold GoInt.in_range, GoInt.MinInt, GoInt.MaxInt in *.
  assert (k = k') by lia. congruence.
Qed.

(** ** [Tick.Bounds] *)

Section widen.

Variable proj : Bot.t → Z.
Variable lo hi : image.Rectangle → Z.
Hypothesis widen_lo : ∀ r b, lo (Tick.widen r b) = Z.min (lo r) (proj b).
Hypothesis widen_hi : ∀ r b, hi (Tick.widen r b) = Z.max (hi r) (proj b).

Lemma fold_widen_axis (bots : list Bot.t) (acc : image.Rectangle) :
  let r := fold_left Tick.widen bots acc in
  (lo r <= lo acc ∧ hi acc <= hi r) ∧
  (∀ b, b ∈ bots → lo r <= proj b <= hi r) ∧
  (lo r = lo acc ∨ ∃ b, b ∈ bots ∧ proj b = lo r) ∧
  (hi r = hi acc ∨ ∃ b, b ∈ bots ∧ proj b = hi r).
Proof.
  revert acc. induction bots as [|b bots IH]; intros acc; simpl.
  - split; [lia |]. split; [| auto]. intros b' Hb. inversion Hb.
  - destruct (IH (Tick.widen acc b)) as ((Hlo & Hhi) & Hin & Hmin & Hmax).
    rewrite widen_lo, widen_hi in *.
    split; [lia |]. split; [| split].
    + intros b' [-> | H]%elem_of_cons; [lia | apply Hin, H].
    + destruct Hmin as [Hmin | (b' & Hb' & Hmin)].
      * destruct (Z.min_spec (lo acc) (proj b)) as [[_ E] | [_ E]];
          rewrite E in Hmin; [left; exact Hmin |].
        right. exists b. split; [left | congruence].
      * right. exists b'. split; [right; exact Hb' | exact Hmin].
    + destruct Hmax as [Hmax | (b' & Hb' & Hmax)].
      * destruct (Z.max_spec (hi acc) (proj b)) as [[_ E] | [_ E]];
          rewrite E in Hmax; [| left; exact Hmax].
        right. exists b. split; [left | congruence].
      * right. exists b'. split; [right; exact Hb' | exact Hmax].
Qed.

End widen.

Lemma widen_X_lo r b :
  image.X (image.Min (Tick.widen r b)) = Z.min (image.X (image.Min r)) (Bot.X b).
Proof. unfold Tick.widen; simpl. destruct (Z.ltb_spec (Bot.X b) (image.X (image.Min r))); lia. Qed.

Lemma widen_X_hi r b :
  image.X (image.Max (Tick.widen r b)) = Z.max (image.X (image.Max r)) (Bot.X b).
Proof.
  unfold Tick.widen; simpl. rewrite Z.gtb_ltb.
  destruct (Z.ltb_spec (image.X (image.Max r)) (Bot.X b)); lia.
Qed.

Lemma widen_Y_lo r b :
  image.Y (image.Min (Tick.widen r b)) = Z.min (image.Y (image.Min r)) (Bot.Y b).
Proof. unfold Tick.widen; simpl. destruct (Z.ltb_spec (Bot.Y b) (image.Y (image.Min r))); lia. Qed.

Lemma widen_Y_hi r b :
  image.Y (image.Max (Tick.widen r b)) = Z.max (image.Y (image.Max r)) (Bot.Y b).
Proof.
  unfold Tick.widen; simpl. rewrite Z.gtb_ltb.
  destruct (Z.ltb_spec (image.Y (image.Max r)) (Bot.Y b)); lia.
Qed.

Lemma fold_widen_tight (b0 : Bot.t) (rest : list Bot.t) :
  tight_box (fold_left Tick.widen (b0 :: rest) (Tick.start b0)) (b0 :: rest).
Proof.
  pose proof (fold_widen_axis Bot.X (λ r, image.X (image.Min r))
                (λ r, image.X (image.Max r)) widen_X_lo widen_X_hi
                (b0 :: rest) (Tick.start b0)) as (_ & HX & HXlo & HXhi).
  pose proof (fold_widen_axis Bot.Y (λ r, image.Y (image.Min r))
                (λ r, image.Y (image.Max r)) widen_Y_lo widen_Y_hi
                (b0 :: rest) (Tick.start b0)) as (_ & HY & HYlo & HYhi).
  cbv beta in *. simpl (image.X _) in *. simpl (image.Y _) in *.
  assert (Hb0 : b0 ∈ b0 :: rest) by left.
  repeat split; try (apply HX; assumption); try (apply HY; assumption).
  - destruct HXlo as [E | ?]; [exists b0; split; [exact Hb0 | symmetry; exact E] | assumption].
  - destruct HXhi as [E | ?]; [exists b0; split; [exact Hb0 | symmetry; exact E] | assumption].
  - destruct HYlo as [E | ?]; [exists b0; split; [exact Hb0 | symmetry; exact E] | assumption].
  - destruct HYhi as [E | ?]; [exists b0; split; [exact Hb0 | symmetry; exact E] | assumption].
Qed.

(** C7. [Tick.Bounds] panics (the out-of-range read of [t.Bots[0]]) exactly
    on a tick without bots; on every other tick it returns the box whose
    sides are the least and greatest X and Y among the bots' positions,
    bounds included. *)
Theorem Bounds_fails_iff_empty_else_tight (t : Tick.t) :
  (Tick.Bounds t = None ↔ Tick.Bots t = []) ∧
  match Tick.Bots t with
  | [] => Tick.Bounds t = None
  | _ :: _ => ∃ r, Tick.Bounds t = Some r ∧ tight_box r (Tick.Bots t)
  end.
Proof.
  unfold Tick.Bounds. destruct (Tick.Bots t) as [|b0 rest] eqn:E.
  - split; [split; reflexivity | reflexivity].
  - split; [split; discriminate |].
    eexists. split; [reflexivity | apply fold_widen_tight].
Qed.

(** ** [NewPointTransformer] *)

Ltac Zify.zify_post_hook ::= Z.to_euclidean_division_equations.

Ltac in_range_lia :=
  unfold GoInt.in_range, GoInt.MinInt, GoInt.MaxInt in *; lia.

(** Removes every [wrap] whose argument is provably in range, innermost
    first. *)
Ltac unwrap :=
  unfold GoInt.add, GoInt.sub, GoInt.mul, GoInt.quo_const in *;
  repeat match goal with
    | |- context [GoInt.wrap ?z] => rewrite (wrap_small z) by in_range_lia
    | H : context [GoInt.wrap ?z] |- _ => rewrite (wrap_small z) in H by in_range_lia
    end.

Ltac gtb_cases :=
  match goal with
  | |- context [?a >? ?b] =>
      rewrite (Z.gtb_ltb a b); destruct (Z.ltb_spec b a)
  end.

Example NewPointTransformer_spec_example :
  PointTransformer.Bounds
    (NewPointTransformer
       (image.mkRect (image.mkPoint 0 0) (image.mkPoint 100 50)) 120 600)
  = image.mkRect (image.mkPoint (-120) (-145)) (image.mkPoint 220 195).
Proof. reflexivity. Qed.

(** C1, as the code has it. With coordinates and padding of moderate size,
    construction leaves the longer axis of the padded box as it is and
    moves both bounds of the shorter axis outwards by [extra / 2], the
    truncated half of the difference of the two sides, [Min] down and
    [Max] up. The expanded side is therefore the longer one less the
    parity of their difference: the stored box is square exactly when
    the two padded sides differ by an even amount, and is one unit short
    on the expanded axis otherwise. *)
Theorem NewPointTransformer_square_up_to_parity
    (B : image.Rectangle) (padding maxDim : Z) :
  moderate_box B → moderate padding →
  let b := padded B padding in
  let stored := PointTransformer.Bounds (NewPointTransformer B padding maxDim) in
  let long := Z.max (image.Dx b) (image.Dy b) in
  let short := Z.min (image.Dx b) (image.Dy b) in
  let half := Z.quot (long - short) 2 in
  (image.Dy b < image.Dx b →
   image.X (image.Min stored) = image.X (image.Min b) ∧
   image.X (image.Max stored) = image.X (image.Max b) ∧
   image.Y (image.Min stored) = image.Y (image.Min b) - half ∧
   image.Y (image.Max stored) = image.Y (image.Max b) + half) ∧
  (image.Dx b <= image.Dy b →
   image.Y (image.Min stored) = image.Y (image.Min b) ∧
   image.Y (image.Max stored) = image.Y (image.Max b) ∧
   image.X (image.Min stored) = image.X (image.Min b) - half ∧
   image.X (image.Max stored) = image.X (image.Max b) + half) ∧
  Z.max (image.Dx stored) (image.Dy stored) = long ∧
  Z.min (image.Dx stored) (image.Dy stored) = long - (long - short) mod 2 ∧
  (image.Dx stored = image.Dy stored ↔ (long - short) mod 2 = 0).
Proof.
  intros (HminX & HminY & HmaxX & HmaxY) Hp. unfold moderate in *.
  destruct B as [[minX minY] [maxX maxY]]. simpl in *.
  unfold NewPointTransformer, padded, image.Dx, image.Dy. simpl.
  unwrap. gtb_cases; simpl; unwrap; repeat split; intros; lia.
Qed.

(** C1 as stated fails: two bots at (0,0) and (1,0) give a padded box of
    241 by 240, [extra / 2 = 0], and the stored box stays 241 by 240. *)
Lemma NewPointTransformer_not_square :
  let stored :=
    PointTransformer.Bounds
      (NewPointTransformer
         (image.mkRect (image.mkPoint 0 0) (image.mkPoint 1 0)) 120 600) in
  image.Dx stored = 241 ∧ image.Dy stored = 240 ∧
  image.Dx stored ≠ image.Dy stored.
Proof. vm_compute. repeat split; discriminate. Qed.

Lemma NewPointTransformer_square_up_to_parity_witness :
  let B := image.mkRect (image.mkPoint 0 0) (image.mkPoint 1 0) in
  let b := padded B 120 in
  let stored := PointTransformer.Bounds (NewPointTransformer B 120 600) in
  let long := Z.max (image.Dx b) (image.Dy b) in
  let short := Z.min (image.Dx b) (image.Dy b) in
  let half := Z.quot (long - short) 2 in
  moderate_box B ∧ moderate 120 ∧
  (image.Dy b < image.Dx b →
   image.X (image.Min stored) = image.X (image.Min b) ∧
   image.X (image.Max stored) = image.X (image.Max b) ∧
   image.Y (image.Min stored) = image.Y (image.Min b) - half ∧
   image.Y (image.Max stored) = image.Y (image.Max b) + half) ∧
  (image.Dx b <= image.Dy b →
   image.Y (image.Min stored) = image.Y (image.Min b) ∧
   image.Y (image.Max stored) = image.Y (image.Max b) ∧
   image.X (image.Min stored) = image.X (image.Min b) - half ∧
   image.X (image.Max stored) = image.X (image.Max b) + half) ∧
  Z.max (image.Dx stored) (image.Dy stored) = long ∧
  Z.min (image.Dx stored) (image.Dy stored) = long - (long - short) mod 2 ∧
  (image.Dx stored = image.Dy stored ↔ (long - short) mod 2 = 0).
Proof.
  assert (HB : moderate_box (image.mkRect (image.mkPoint 0 0) (image.mkPoint 1 0)))
    by (unfold moderate_box, moderate; simpl; lia).
  assert (Hp : moderate 120) by (unfold moderate; lia).
  split; [exact HB |]. split; [exact Hp |].
  exact (NewPointTransformer_square_up_to_parity
           (image.mkRect (image.mkPoint 0 0) (image.mkPoint 1 0)) 120 600 HB Hp).
Defined.

(** The bound on the coordinates is needed: where the padded height leaves
    [int] and wraps around, the shorter side is taken for the longer one,
    and a box of 1 by about [2 ^ 63] is stored as 241 by 242. *)
Example NewPointTransformer_wraps_beyond_moderate :
  let stored :=
    PointTransformer.Bounds
      (NewPointTransformer
         (image.mkRect (image.mkPoint 0 (- 2 ^ 62 + 120))
                       (image.mkPoint 1 (2 ^ 62 - 120))) 120 600) in
  image.Dx stored = 241 ∧ image.Dy stored = 242.
Proof. vm_compute. split; reflexivity. Qed.

(** ** Sizes of the stored box *)

Lemma quo_Some (a b : Z) :
  b ≠ 0 → GoInt.quo a b = Some (GoInt.wrap (Z.quot a b)).
Proof. intros Hb. unfold GoInt.quo. destruct (Z.eqb_spec b 0); congruence. Qed.

Lemma shrinks_defined (pt : PointTransformer.t) (tb : image.Rectangle) :
  image.Dx (PointTransformer.Bounds pt) ≠ 0 →
  image.Dy (PointTransformer.Bounds pt) ≠ 0 →
  is_Some (shrinks pt tb).
Proof.
  unfold image.Dx, image.Dy, shrinks. intros Hx Hy.
  rewrite (quo_Some _ _ Hy), (quo_Some _ _ Hx).
  destruct (_ <=? _); eauto.
Qed.

(** The lengths of the padded box, and of the stored one, when the sides
    of [B] are short enough for [side + 2 * padding] to be an [int]. *)
Lemma padded_lengths (B : image.Rectangle) (padding maxDim : Z) :
  let b := padded B padding in
  let stored := PointTransformer.Bounds (NewPointTransformer B padding maxDim) in
  let w := image.X (image.Max B) - image.X (image.Min B) + 2 * padding in
  let h := image.Y (image.Max B) - image.Y (image.Min B) + 2 * padding in
  0 <= w <= GoInt.MaxInt → 0 <= h <= GoInt.MaxInt →
  image.Dx b = w ∧ image.Dy b = h ∧
  Z.max w (Z.max w h - 1) <= image.Dx stored <= Z.max w h ∧
  Z.max h (Z.max w h - 1) <= image.Dy stored <= Z.max w h.
Proof.
  destruct B as [[minX minY] [maxX maxY]]. simpl. intros Hw Hh.
  set (w := maxX - minX + 2 * padding) in *.
  set (h := maxY - minY + 2 * padding) in *.
  assert (EX : (maxX [+] padding) [-] (minX [-] padding) = w).
  { unfold GoInt.add, GoInt.sub.
    destruct (wrap_congruent (maxX + padding)) as [k1 ->].
    destruct (wrap_congruent (minX - padding)) as [k2 ->].
    apply (wrap_unique _ _ (k2 - k1)); [in_range_lia | subst w; lia]. }
  assert (EY : (maxY [+] padding) [-] (minY [-] padding) = h).
  { unfold GoInt.add, GoInt.sub.
    destruct (wrap_congruent (maxY + padding)) as [k1 ->].
    destruct (wrap_congruent (minY - padding)) as [k2 ->].
    apply (wrap_unique _ _ (k2 - k1)); [in_range_lia | subst h; lia]. }
  unfold NewPointTransformer, padded, image.Dx, image.Dy. simpl.
  rewrite EX, EY. split; [reflexivity |]. split; [reflexivity |].
  unfold GoInt.MaxInt in *.
  gtb_cases; simpl; rewrite ?EX, ?EY.
  - assert (Ee : w [-] h = w - h) by (unfold GoInt.sub; apply wrap_small; in_range_lia).
    rewrite Ee. unfold GoInt.quo_const. set (e2 := Z.quot (w - h) 2).
    assert (He2 : 0 <= e2 ∧ w - h - 1 <= 2 * e2 <= w - h) by (subst e2; lia).
    assert (E : ((maxY [+] padding) [+] e2) [-] ((minY [-] padding) [-] e2) = h + 2 * e2).
    { unfold GoInt.add, GoInt.sub.
      destruct (wrap_congruent (maxY + padding)) as [k1 ->].
      destruct (wrap_congruent (minY - padding)) as [k2 ->].
      destruct (wrap_congruent (maxY + padding + k1 * 2 ^ 64 + e2)) as [k3 ->].
      destruct (wrap_congruent (minY - padding + k2 * 2 ^ 64 - e2)) as [k4 ->].
      apply (wrap_unique _ _ (k2 + k4 - k1 - k3)); [in_range_lia | subst h; lia]. }
    rewrite E. lia.
  - assert (Ee : h [-] w = h - w) by (unfold GoInt.sub; apply wrap_small; in_range_lia).
    rewrite Ee. unfold GoInt.quo_const. set (e2 := Z.quot (h - w) 2).
    assert (He2 : 0 <= e2 ∧ h - w - 1 <= 2 * e2 <= h - w) by (subst e2; lia).
    assert (E : ((maxX [+] padding) [+] e2) [-] ((minX [-] padding) [-] e2) = w + 2 * e2).
    { unfold GoInt.add, GoInt.sub.
      destruct (wrap_congruent (maxX + padding)) as [k1 ->].
      destruct (wrap_congruent (minX - padding)) as [k2 ->].
      destruct (wrap_congruent (maxX + padding + k1 * 2 ^ 64 + e2)) as [k3 ->].
      destruct (wrap_congruent (minX - padding + k2 * 2 ^ 64 - e2)) as [k4 ->].
      apply (wrap_unique _ _ (k2 + k4 - k1 - k3)); [in_range_lia | subst w; lia]. }
    rewrite E. lia.
Qed.

Lemma is_zero_inject_Z (z : Z) : z ≠ 0 → F.is_zero (inject_Z z) = false.
Proof.
  intros Hz. unfold F.is_zero. destruct (Qeq_bool (inject_Z z) 0) eqn:E; [| reflexivity].
  apply Qeq_bool_iff in E. unfold Qeq in E. simpl in E. lia.
Qed.

Lemma ratio_of_longest (B : image.Rectangle) (padding maxDim : Z) :
  let b := padded B padding in
  Z.max (image.Dx b) (image.Dy b) ≠ 0 →
  PointTransformer.ratio (NewPointTransformer B padding maxDim)
  = F.Fin (inject_Z maxDim / inject_Z (Z.max (image.Dx b) (image.Dy b))).
Proof.
  simpl. unfold NewPointTransformer, image.Dx, image.Dy.
  set (b := padded B padding).
  set (w := image.X (image.Max b) [-] image.X (image.Min b)).
  set (h := image.Y (image.Max b) [-] image.Y (image.Min b)).
  intros Hne. gtb_cases; simpl; unfold F.div, F.of_int.
  - rewrite Z.max_l in * by lia. rewrite is_zero_inject_Z by exact Hne. reflexivity.
  - rewrite Z.max_r in * by lia. rewrite is_zero_inject_Z by exact Hne. reflexivity.
Qed.

(** C9 as stated fails at the far ends of the [int] range: for two bots at
    (-2^63, -2^63) and (2^63 - 240, 2^63 - 240) the padded coordinates
    wrap around, both lengths are 0, the ratio is the quotient of 600 by
    zero and the shrink test of the draw loop divides by zero. *)
Lemma stored_box_can_vanish :
  let B := image.mkRect (image.mkPoint (- 2 ^ 63) (- 2 ^ 63))
                        (image.mkPoint (2 ^ 63 - 240) (2 ^ 63 - 240)) in
  let pt := NewPointTransformer B Padding 600 in
  well_formed B ∧
  image.Dx (padded B Padding) = 0 ∧ image.Dy (padded B Padding) = 0 ∧
  image.Dx (PointTransformer.Bounds pt) = 0 ∧
  image.Dy (PointTransformer.Bounds pt) = 0 ∧
  PointTransformer.ratio pt = F.Inf false ∧
  shrinks pt B = None.
Proof. vm_compute. repeat split; discriminate. Qed.

(** C9, as the code has it. For every box with [Min] not beyond [Max]
    whose sides are at most [MaxInt - 240] long (so that a side plus twice
    the padding of 120 is still an [int]), the padded box and the stored
    box are at least 240 wide and high; hence the ratio is a finite
    quotient and the shrink test never divides by zero, whatever the tick
    it is applied to. *)
Theorem stored_box_at_least_240 (B : image.Rectangle) (maxDim : Z) :
  well_formed B →
  image.X (image.Max B) - image.X (image.Min B) <= GoInt.MaxInt - 240 →
  image.Y (image.Max B) - image.Y (image.Min B) <= GoInt.MaxInt - 240 →
  let b := padded B Padding in
  let pt := NewPointTransformer B Padding maxDim in
  (240 <= image.Dx b ∧ 240 <= image.Dy b) ∧
  (240 <= image.Dx (PointTransformer.Bounds pt) ∧
   240 <= image.Dy (PointTransformer.Bounds pt)) ∧
  (∃ q, PointTransformer.ratio pt = F.Fin q) ∧
  (∀ tickBounds, is_Some (shrinks pt tickBounds)).
Proof.
  intros [HwfX HwfY] HX HY. change Padding with 120.
  destruct (padded_lengths B 120 maxDim) as (Ew & Eh & Hsx & Hsy);
    [unfold GoInt.MaxInt in *; lia .. |].
  cbv zeta. split; [lia |]. split; [lia |]. split.
  - rewrite ratio_of_longest by lia. eauto.
  - intros tb. apply shrinks_defined; lia.
Qed.

Lemma stored_box_at_least_240_witness :
  let B := image.mkRect (image.mkPoint 7 7) (image.mkPoint 7 7) in
  let b := padded B Padding in
  let pt := NewPointTransformer B Padding 600 in
  well_formed B ∧
  (240 <= image.Dx b ∧ 240 <= image.Dy b) ∧
  (240 <= image.Dx (PointTransformer.Bounds pt) ∧
   240 <= image.Dy (PointTransformer.Bounds pt)) ∧
  (∃ q, PointTransformer.ratio pt = F.Fin q) ∧
  (∀ tickBounds, is_Some (shrinks pt tickBounds)).
Proof.
  assert (Hwf : well_formed (image.mkRect (image.mkPoint 7 7) (image.mkPoint 7 7)))
    by (unfold well_formed; simpl; lia).
  split; [exact Hwf |].
  apply (stored_box_at_least_240
           (image.mkRect (image.mkPoint 7 7) (image.mkPoint 7 7)) 600 Hwf);
    unfold GoInt.MaxInt; simpl; lia.
Defined.

(** ** A fresh transformer against its own tick *)

(** C10 as stated fails near the lower end of the [int] range: for one bot
    at (0, -2^63 + 100) the padded lower side wraps around to 2^63 - 20
    and the overflow test fires against the transformer just built. *)
Lemma fresh_transformer_can_overflow :
  let B := image.mkRect (image.mkPoint 0 (- 2 ^ 63 + 100))
                        (image.mkPoint 0 (- 2 ^ 63 + 100)) in
  overflows (NewPointTransformer B Padding 600) B = true.
Proof. vm_compute. reflexivity. Qed.

(** C10, as the code has it. For every box of moderate coordinates, the
    overflow test of the tick that a transformer was just built from is
    false against that transformer: each side is padded by 120, the margin
    is 60, and squaring only moves sides outwards. *)
Theorem fresh_transformer_not_overflown (B : image.Rectangle) (maxDim : Z) :
  moderate_box B →
  overflows (NewPointTransformer B Padding maxDim) B = false.
Proof.
  intros (HminX & HminY & HmaxX & HmaxY). unfold moderate in *.
  destruct B as [[minX minY] [maxX maxY]]. simpl in *.
  change Padding with 120.
  unfold overflows, NewPointTransformer, padded, BotSize. simpl.
  unwrap. gtb_cases; simpl; unwrap;
    rewrite !orb_false_iff, !Z.gtb_ltb, !Z.ltb_ge; lia.
Qed.

Lemma fresh_transformer_not_overflown_witness :
  let B := image.mkRect (image.mkPoint 0 0) (image.mkPoint 100 50) in
  moderate_box B ∧ overflows (NewPointTransformer B Padding 600) B = false.
Proof.
  assert (HB : moderate_box (image.mkRect (image.mkPoint 0 0) (image.mkPoint 100 50)))
    by (unfold moderate_box, moderate; simpl; lia).
  split; [exact HB |].
  exact (fresh_transformer_not_overflown
           (image.mkRect (image.mkPoint 0 0) (image.mkPoint 100 50)) 600 HB).
Defined.

(** ** Raster coordinates *)

Lemma scale_between (n L S : Z) :
  0 <= n <= L → 0 < L → 0 <= S →
  (0 <= inject_Z n * (inject_Z S / inject_Z L) ∧
   inject_Z n * (inject_Z S / inject_Z L) <= inject_Z S)%Q.
Proof.
  intros Hn HL HS.
  assert (HLq : (0 < inject_Z L)%Q) by (unfold Qlt; simpl; lia).
  split.
  - apply Qmult_le_0_compat.
    + unfold Qle; simpl; lia.
    + apply Qle_shift_div_l; [exact HLq |].
      rewrite Qmult_0_l. unfold Qle; simpl; lia.
  - assert (E : (inject_Z n * (inject_Z S / inject_Z L)
                 == inject_Z n * inject_Z S / inject_Z L)%Q)
      by (unfold Qdiv; ring).
    rewrite E. apply Qle_shift_div_r; [exact HLq |].
    rewrite <- !inject_Z_mult. unfold Qle; simpl. nia.
Qed.

(** C4 as stated fails when the sides of the box exceed the [int] range:
    for bots at (-2^62, -2^62) and (2^62, 2^62) both padded lengths wrap
    around to a negative number, so does the ratio, and the origin, which
    lies inside the stored box, is mapped to a negative raster abscissa. *)
Lemma raster_coordinate_can_be_negative :
  let B := image.mkRect (image.mkPoint (- 2 ^ 62) (- 2 ^ 62))
                        (image.mkPoint (2 ^ 62) (2 ^ 62)) in
  let pt := NewPointTransformer B 120 600 in
  inside (PointTransformer.Bounds pt) (image.mkPoint 0 0) ∧
  ∃ q, PointTransformer.X pt 0 = F.Fin q ∧ (q < 0)%Q.
Proof.
  split.
  - vm_compute. repeat split; discriminate.
  - eexists. split; [vm_compute; reflexivity | reflexivity].
Qed.

Lemma scale_negative (n L S : Z) :
  n < 0 → 0 < L → 0 < S → (inject_Z n * (inject_Z S / inject_Z L) < 0)%Q.
Proof.
  intros Hn HL HS.
  assert (E : (inject_Z n * (inject_Z S / inject_Z L)
               == inject_Z (n * S) / inject_Z L)%Q)
    by (rewrite inject_Z_mult; unfold Qdiv; ring).
  rewrite E. apply Qlt_shift_div_r; [unfold Qlt; simpl; lia |].
  rewrite Qmult_0_l. unfold Qlt; simpl. nia.
Qed.

(** C4, as the code has it. For every box of moderate coordinates with
    [Min] not beyond [Max], every moderate positive padding and every
    positive target size [S]: a point inside the stored box is mapped, in
    exact arithmetic, to raster coordinates between 0 and [S] on both
    axes; and nothing is clamped: a moderate abscissa left of the box, or
    ordinate below it, is mapped to a negative raster coordinate. *)
Theorem raster_coordinates_in_canvas
    (B : image.Rectangle) (padding S : Z) :
  moderate_box B → well_formed B → 0 < padding <= 2 ^ 60 → 0 < S →
  let pt := NewPointTransformer B padding S in
  (∀ p, inside (PointTransformer.Bounds pt) p →
        F.between 0 (inject_Z S) (PointTransformer.X pt (image.X p)) ∧
        F.between 0 (inject_Z S) (PointTransformer.Y pt (image.Y p))) ∧
  (∀ x, moderate x → x < image.X (image.Min (PointTransformer.Bounds pt)) →
        ∃ q, PointTransformer.X pt x = F.Fin q ∧ (q < 0)%Q) ∧
  (∀ y, moderate y → y < image.Y (image.Min (PointTransformer.Bounds pt)) →
        ∃ q, PointTransformer.Y pt y = F.Fin q ∧ (q < 0)%Q).
Proof.
  intros (HminX & HminY & HmaxX & HmaxY) [HwfX HwfY] Hp HS. unfold moderate in *.
  destruct B as [[minX minY] [maxX maxY]]. simpl in *.
  unfold inside, PointTransformer.X, PointTransformer.Y,
    NewPointTransformer, padded, F.of_int. simpl.
  unwrap. gtb_cases; simpl; unwrap; unfold F.div;
    rewrite is_zero_inject_Z by lia; simpl.
  - split; [| split].
    + intros [x y] [Hx Hy]. simpl in *. unwrap. split; apply scale_between; lia.
    + intros x Hm Hx. unwrap. eexists. split; [reflexivity |].
      apply scale_negative; lia.
    + intros y Hm Hy. unwrap. eexists. split; [reflexivity |].
      apply scale_negative; lia.
  - split; [| split].
    + intros [x y] [Hx Hy]. simpl in *. unwrap. split; apply scale_between; lia.
    + intros x Hm Hx. unwrap. eexists. split; [reflexivity |].
      apply scale_negative; lia.
    + intros y Hm Hy. unwrap. eexists. split; [reflexivity |].
      apply scale_negative; lia.
Qed.

Lemma raster_coordinates_in_canvas_witness :
  let B := image.mkRect (image.mkPoint 0 0) (image.mkPoint 100 50) in
  let pt := NewPointTransformer B 120 600 in
  moderate_box B ∧ well_formed B ∧
  (∀ p, inside (PointTransformer.Bounds pt) p →
        F.between 0 (inject_Z 600) (PointTransformer.X pt (image.X p)) ∧
        F.between 0 (inject_Z 600) (PointTransformer.Y pt (image.Y p))) ∧
  (∀ x, moderate x → x < image.X (image.Min (PointTransformer.Bounds pt)) →
        ∃ q, PointTransformer.X pt x = F.Fin q ∧ (q < 0)%Q) ∧
  (∀ y, moderate y → y < image.Y (image.Min (PointTransformer.Bounds pt)) →
        ∃ q, PointTransformer.Y pt y = F.Fin q ∧ (q < 0)%Q).
Proof.
  assert (HB : moderate_box (image.mkRect (image.mkPoint 0 0) (image.mkPoint 100 50)))
    by (unfold moderate_box, moderate; simpl; lia).
  assert (Hwf : well_formed (image.mkRect (image.mkPoint 0 0) (image.mkPoint 100 50)))
    by (unfold well_formed; simpl; lia).
  split; [exact HB |]. split; [exact Hwf |].
  apply (raster_coordinates_in_canvas
           (image.mkRect (image.mkPoint 0 0) (image.mkPoint 100 50)) 120 600
           HB Hwf); lia.
Defined.

Example corner_of_the_stored_box :
  let pt := NewPointTransformer
              (image.mkRect (image.mkPoint 0 0) (image.mkPoint 100 50)) 120 600 in
  inside (PointTransformer.Bounds pt) (image.mkPoint 220 (-145)) ∧
  PointTransformer.X pt 220 = F.Fin (204000 # 340) ∧
  PointTransformer.Y pt (-145) = F.Fin (0 # 340).
Proof. vm_compute. repeat split; discriminate. Qed.

(** ** The result monad *)

Lemma bind_Ok {A B : Type} (r : result A) (f : A → result B) (b : B) :
  r ≫= f = Ok b → ∃ a, r = Ok a ∧ f a = Ok b.
Proof. destruct r; simpl; intros H; try discriminate. eauto. Qed.

Lemma or_panic_Ok {A : Type} (msg : string) (o : option A) (a : A) :
  or_panic msg o = Ok a → o = Some a.
Proof. destruct o; simpl; congruence. Qed.

(** Splits a successful sequence of binds into its successful steps. *)
Ltac ok_steps H :=
  repeat match type of H with
    | (_ ≫= _) = Ok _ =>
        let a := fresh "a" in
        let Ha := fresh "Ha" in
        apply bind_Ok in H as (a & Ha & H);
        try apply or_panic_Ok in Ha
    end.

(** ** The allocation of a frame *)

Lemma NewRGBA_square (size : Z) :
  1 <= size <= GoInt.MaxInt →
  NewRGBA (Rect 0 0 size size)
  = if GoInt.MaxInt <? 4 * size * size
    then Panic "image: NewRGBA Rectangle has huge or negative dimensions"
    else if maxAlloc <? 4 * size * size then Panic "makeslice: len out of range"
    else Ok (image.mkRect (image.mkPoint 0 0) (image.mkPoint size size)).
Proof.
  intros Hs. unfold GoInt.MaxInt in *. unfold NewRGBA, Rect.
  destruct (Z.gtb_spec 0 size) as [? | _]; [lia |].
  unfold image.Dx, image.Dy. simpl. unwrap.
  replace (size - 0) with size by lia.
  unfold mul3NonNeg.
  destruct (Z.ltb_spec size 0) as [? | _]; [lia |]. simpl.
  destruct (Z.ltb_spec (2 ^ 63 - 1) (4 * size * size)) as [Hbig | Hfit].
  - destruct (Z.leb_spec (2 ^ 64) (4 * size)); [reflexivity |].
    destruct (Z.leb_spec (2 ^ 64) (4 * size * size)); [reflexivity |].
    destruct (Z.leb_spec (2 ^ 63) (4 * size * size)); [reflexivity | lia].
  - destruct (Z.leb_spec (2 ^ 64) (4 * size)); [nia |].
    destruct (Z.leb_spec (2 ^ 64) (4 * size * size)); [lia |].
    destruct (Z.leb_spec (2 ^ 63) (4 * size * size)); [lia |].
    destruct (Z.ltb_spec (4 * size * size) 0); [nia |]. reflexivity.
Qed.

Lemma NewRGBA_Ok (size : Z) :
  1 <= size → 4 * size * size <= maxAlloc →
  NewRGBA (Rect 0 0 size size)
  = Ok (image.mkRect (image.mkPoint 0 0) (image.mkPoint size size)).
Proof.
  intros Hs Ha. unfold maxAlloc in Ha.
  rewrite NewRGBA_square by (unfold GoInt.MaxInt; nia).
  destruct (Z.ltb_spec GoInt.MaxInt (4 * size * size));
    [unfold GoInt.MaxInt in *; lia |].
  destruct (Z.ltb_spec maxAlloc (4 * size * size)); [unfold maxAlloc in *; lia |].
  reflexivity.
Qed.

Lemma NewRGBA_Ok_inv (size : Z) (r : image.Rectangle) :
  1 <= size <= GoInt.MaxInt → NewRGBA (Rect 0 0 size size) = Ok r →
  4 * size * size <= maxAlloc.
Proof.
  intros Hs H. rewrite NewRGBA_square in H by exact Hs.
  destruct (Z.ltb_spec GoInt.MaxInt (4 * size * size)); [discriminate H |].
  destruct (Z.ltb_spec maxAlloc (4 * size * size)); [discriminate H | assumption].
Qed.

Lemma NewRGBA_Panic (size : Z) (msg : string) :
  1 <= size <= GoInt.MaxInt → NewRGBA (Rect 0 0 size size) = Panic msg →
  (msg = "image: NewRGBA Rectangle has huge or negative dimensions"%string ∧
   GoInt.MaxInt < 4 * size * size) ∨
  (msg = "makeslice: len out of range"%string ∧
   maxAlloc < 4 * size * size <= GoInt.MaxInt).
Proof.
  intros Hs H. rewrite NewRGBA_square in H by exact Hs.
  destruct (Z.ltb_spec GoInt.MaxInt (4 * size * size));
    [injection H as <-; left; auto |].
  destruct (Z.ltb_spec maxAlloc (4 * size * size)); [| discriminate H].
  injection H as <-. right. auto.
Qed.

Lemma NewRGBA_not_Fatal (r : image.Rectangle) (msg : string) :
  NewRGBA r ≠ Fatal msg.
Proof. unfold NewRGBA. destruct (_ <? 0); [discriminate |]. destruct (_ <? _); discriminate. Qed.

Lemma NewRGBA_not_Hang (r : image.Rectangle) : NewRGBA r ≠ Hang.
Proof. unfold NewRGBA. destruct (_ <? 0); [discriminate |]. destruct (_ <? _); discriminate. Qed.

(** ** Runs that complete *)

Lemma drawAll_Ok (fl : Flags) (ticks : list Tick.t) (st : Loop) :
  drawAll fl ticks = Ok st →
  1 <= threads fl ∧ 1 <= ticksPerSecond fl <= 100 ∧ 1 <= imageSize fl ∧
  ∃ tick0 bounds0,
    ticks !! 0%nat = Some tick0 ∧ Tick.Bounds tick0 = Some bounds0 ∧
    draw_loop fl 0 ticks
      (mkLoop (NewPointTransformer bounds0 Padding (imageSize fl))
              (replicate (length ticks) None) (replicate (length ticks) None)
              (replicate (length ticks) 0) []) = Ok st.
Proof.
  unfold drawAll. intros H.
  destruct (Z.ltb_spec (threads fl) 1); [discriminate |].
  rewrite Z.gtb_ltb in H.
  destruct (Z.ltb_spec 100 (ticksPerSecond fl)); [discriminate |].
  destruct (Z.ltb_spec (ticksPerSecond fl) 1); [discriminate |].
  destruct (Z.ltb_spec (imageSize fl) 1); [discriminate |].
  simpl in H. ok_steps H. repeat (split; [lia |]). eauto.
Qed.

Lemma per_tick_delay (v : Z) :
  1 <= v <= 100 → GoInt.quo 100 v = Some (Z.quot 100 v) ∧ 1 <= Z.quot 100 v <= 100.
Proof.
  intros Hv. assert (Hq : 1 <= Z.quot 100 v <= 100) by lia.
  split; [| exact Hq]. rewrite quo_Some by lia. f_equal. apply wrap_small. in_range_lia.
Qed.

(** ** The rebuild policy *)

Lemma refit_decision (S : Z) (carried p : PointTransformer.t)
    (tickBounds : image.Rectangle) (rebuilt : bool) :
  refit S carried tickBounds = Some (p, rebuilt) →
  (rebuilt = true ↔
     overflows carried tickBounds = true ∨ shrinks carried tickBounds = Some true) ∧
  p = if rebuilt then NewPointTransformer tickBounds Padding S else carried.
Proof.
  unfold refit. destruct (overflows carried tickBounds) eqn:Eo.
  - destruct (shrinks _ tickBounds) as [[|]|]; intros [= <- <-];
      (split; [tauto | reflexivity]).
  - destruct (shrinks carried tickBounds) as [[|]|] eqn:Es; intros [= <- <-].
    + split; [tauto | reflexivity].
    + split; [| reflexivity]. split; [discriminate |]. intros [? | ?]; discriminate.
Qed.

(** A tick whose bounds are 700 by 700 inside a box of 1000 by 1000: no
    side is left, both quotients are 70, and the transformer is rebuilt. *)
Example shrink_without_overflow :
  let carried :=
    PointTransformer.mk
      (image.mkRect (image.mkPoint 0 0) (image.mkPoint 1000 1000))
      (F.Fin (600 # 1000)) in
  let tickBounds := image.mkRect (image.mkPoint 150 150) (image.mkPoint 850 850) in
  overflows carried tickBounds = false ∧
  shrinks carried tickBounds = Some true ∧
  refit 600 carried tickBounds
  = Some (NewPointTransformer tickBounds Padding 600, true).
Proof. vm_compute. repeat split. Qed.

(** Integer and real percentages disagree just above the threshold: 759
    of 1000 is 75.9 percent, which truncates to 75 and counts as shrunk. *)
Example shrink_truncates :
  let carried :=
    PointTransformer.mk
      (image.mkRect (image.mkPoint 0 0) (image.mkPoint 1000 1000))
      (F.Fin (600 # 1000)) in
  shrinks carried (image.mkRect (image.mkPoint 100 100) (image.mkPoint 859 859))
  = Some true.
Proof. reflexivity. Qed.

Lemma draw_loop_refits (fl : Flags) (ticks : list Tick.t) (i : nat) (st st' : Loop) :
  draw_loop fl i ticks st = Ok st' →
  ∃ trace, used st' = used st ++ trace ∧
           refits (imageSize fl) (pt st) ticks trace.
Proof.
  revert i st. induction ticks as [|tick rest IH]; intros i st H; simpl in H.
  - injection H as <-. exists []. rewrite app_nil_r. split; [reflexivity | exact I].
  - ok_steps H. destruct a0 as [p rebuilt]. ok_steps H. destruct a2 as [dr cv].
    apply IH in H as (trace & Hused & Hrefits). simpl in *.
    exists ((p, rebuilt) :: trace). split.
    + rewrite Hused, <- app_assoc. reflexivity.
    + split; [eauto | exact Hrefits].
Qed.

Lemma refits_length (S : Z) (ticks : list Tick.t) :
  ∀ c trace, refits S c ticks trace → length trace = length ticks.
Proof.
  induction ticks as [|tick rest IH]; intros c [|[p r] trace]; simpl; try tauto.
  intros [_ H]. f_equal. eapply IH, H.
Qed.

Lemma refits_lookup (S : Z) (ticks : list Tick.t) :
  ∀ c trace i tick p rebuilt,
    refits S c ticks trace →
    ticks !! i = Some tick → trace !! i = Some (p, rebuilt) →
    ∃ tickBounds carried,
      Tick.Bounds tick = Some tickBounds ∧
      refit S carried tickBounds = Some (p, rebuilt) ∧
      match i with
      | O => carried = c
      | S j => ∃ r, trace !! j = Some (carried, r)
      end.
Proof.
  induction ticks as [|t rest IH]; intros c [|[p0 r0] trace] i tick p rebuilt;
    simpl; try tauto; try (intros _ H; discriminate H).
  intros [(tb & Hb & Hr) Hrest] Hi Ht. destruct i as [|i]; simpl in *.
  - injection Hi as <-. injection Ht as <- <-. eauto.
  - destruct (IH _ _ _ _ _ _ Hrest Hi Ht) as (tb' & carried & Hb' & Hr' & Hc).
    exists tb', carried. split; [exact Hb' |]. split; [exact Hr' |].
    destruct i as [|i]; simpl in *.
    + subst carried. eauto.
    + exact Hc.
Qed.

Lemma drawAll_refits (fl : Flags) (ticks : list Tick.t) (st : Loop) :
  drawAll fl ticks = Ok st →
  ∃ tick0 bounds0,
    ticks !! 0%nat = Some tick0 ∧ Tick.Bounds tick0 = Some bounds0 ∧
    refits (imageSize fl) (NewPointTransformer bounds0 Padding (imageSize fl))
           ticks (used st).
Proof.
  unfold drawAll. intros H.
  destruct (threads fl <? 1); [discriminate |].
  destruct ((ticksPerSecond fl >? 100) || (ticksPerSecond fl <? 1)); [discriminate |].
  destruct (imageSize fl <? 1); [discriminate |].
  ok_steps H. apply draw_loop_refits in H as (trace & Hused & Hrefits).
  simpl in *. subst. eauto.
Qed.

(** ** Fatal data errors *)

Lemma bodies_unsupported (pt : PointTransformer.t) (bots : list Bot.t) (bot : Bot.t) :
  bot ∈ bots → 0 < Bot.Health bot → Bot.PID bot ≠ 1 → Bot.PID bot ≠ 2 →
  bodies pt bots = Fatal unsupported_player.
Proof.
  intros Hin Hh H1 H2. induction bots as [|b rest IH]; [inversion Hin |].
  simpl. apply elem_of_cons in Hin as [<- | Hin].
  - destruct (Z.leb_spec (Bot.Health bot) 0); [lia |].
    destruct (Z.eqb_spec (Bot.PID bot) 1); [contradiction |].
    destruct (Z.eqb_spec (Bot.PID bot) 2); [contradiction |]. reflexivity.
  - rewrite (IH Hin). destruct (Bot.Health b <=? 0); [reflexivity |].
    destruct (Bot.PID b =? 1); [reflexivity |].
    destruct (Bot.PID b =? 2); reflexivity.
Qed.

Lemma bodies_Ok (pt : PointTransformer.t) (bots : list Bot.t) :
  (∀ bot, bot ∈ bots → 0 < Bot.Health bot → Bot.PID bot = 1 ∨ Bot.PID bot = 2) →
  ∃ ops, bodies pt bots = Ok ops.
Proof.
  induction bots as [|bot rest IH]; intros H; simpl; [eauto |].
  destruct IH as [ops Hops]; [intros b Hb; apply H; right; exact Hb |].
  destruct (Z.leb_spec (Bot.Health bot) 0); [eauto |].
  rewrite Hops.
  destruct (H bot ltac:(left) ltac:(lia)) as [-> | ->]; simpl; eauto.
Qed.

Lemma count_up_Ok (lo hi : Z) :
  hi < GoInt.MaxInt → count_up lo hi = Ok (seqZ lo (hi - lo + 1)).
Proof.
  intros H. unfold count_up. destruct (Z.eqb_spec hi GoInt.MaxInt); [lia |].
  rewrite andb_false_r. reflexivity.
Qed.

Lemma draw_loop_draws (fl : Flags) (ticks : list Tick.t) :
  ∀ i st st', draw_loop fl i ticks st = Ok st' →
    ∀ tick, tick ∈ ticks → ∃ p img, drawTick p (imageSize fl) tick = Ok img.
Proof.
  induction ticks as [|t rest IH]; intros i st st' H tick Hin; [inversion Hin |].
  simpl in H. ok_steps H. destruct a0 as [p rebuilt]. ok_steps H.
  destruct a2 as [dr cv]. apply elem_of_cons in Hin as [-> | Hin].
  - eauto.
  - eapply IH; eassumption.
Qed.

Lemma bind_Fatal {A B : Type} (r : result A) (f : A → result B) (msg : string) :
  r ≫= f = Fatal msg → r = Fatal msg ∨ ∃ a, r = Ok a ∧ f a = Fatal msg.
Proof.
  destruct r as [a | m | m |]; simpl; intros H; try discriminate H.
  - right. exists a. split; [reflexivity | exact H].
  - left. congruence.
Qed.

Lemma bodies_Fatal (pt : PointTransformer.t) (bots : list Bot.t) (msg : string) :
  bodies pt bots = Fatal msg →
  msg = unsupported_player ∧
  ∃ bot, bot ∈ bots ∧ 0 < Bot.Health bot ∧ Bot.PID bot ≠ 1 ∧ Bot.PID bot ≠ 2.
Proof.
  induction bots as [|bot rest IH]; simpl; [discriminate |].
  destruct (Z.leb_spec (Bot.Health bot) 0) as [Hd | Hl].
  - intros H. destruct (IH H) as (-> & b & Hb & Hrest).
    split; [reflexivity |]. exists b. split; [right; exact Hb | exact Hrest].
  - destruct (Z.eqb_spec (Bot.PID bot) 1) as [E1 | N1];
      [| destruct (Z.eqb_spec (Bot.PID bot) 2) as [E2 | N2]]; simpl.
    + intros [H | (ops & Hops & H)]%bind_Fatal; [| discriminate H].
      destruct (IH H) as (-> & b & Hb & Hrest).
      split; [reflexivity |]. exists b. split; [right; exact Hb | exact Hrest].
    + intros [H | (ops & Hops & H)]%bind_Fatal; [| discriminate H].
      destruct (IH H) as (-> & b & Hb & Hrest).
      split; [reflexivity |]. exists b. split; [right; exact Hb | exact Hrest].
    + intros [= <-]. split; [reflexivity |]. exists bot.
      split; [left |]. auto.
Qed.

Lemma bodies_skip_dead (pt : PointTransformer.t) (bots : list Bot.t) :
  bodies pt bots = bodies pt (filter (λ bot, 0 < Bot.Health bot) bots).
Proof.
  induction bots as [|bot rest IH]; [reflexivity |].
  rewrite filter_cons. simpl. destruct (Z.leb_spec (Bot.Health bot) 0) as [Hd | Hl].
  - rewrite decide_False by lia. exact IH.
  - rewrite decide_True by lia. simpl.
    destruct (Z.leb_spec (Bot.Health bot) 0); [lia |]. rewrite IH. reflexivity.
Qed.

(** C5 as stated fails: a destroyed bot (health 0) of player 3 is skipped
    by the body loop before its player is looked at; the tick is drawn
    and the run hands its frames to the encoder. *)
Lemma destroyed_bot_of_third_player_is_drawn :
  let bot := Bot.mk 3 1 0 0 0 0 0 false 0 0 0%N false 0 0 0 in
  let tick := Tick.mk 0 [bot] in
  let fl := mkFlags "scrappers.json" "scrappers.gif" 12 8 600 in
  bot ∈ Tick.Bots tick ∧ Bot.PID bot ≠ 1 ∧ Bot.PID bot ≠ 2 ∧
  (∃ img, drawTick (NewPointTransformer (Tick.start bot) Padding 600) 600 tick
          = Ok img) ∧
  (∃ gif, main fl [tick] = Ok gif).
Proof.
  split; [left |]. split; [discriminate |]. split; [discriminate |].
  split; eexists; vm_compute; reflexivity.
Qed.

(** C5, as the code has it. In every tick the body loop skips the bots
    without health (health 0 or less) before it looks at their player: it
    does what it would do on the living bots alone. It ends in
    [log.Fatalf] exactly when the tick holds a living bot (health above
    0) whose player is neither 1 nor 2, and draws its bots otherwise,
    whatever the players of the destroyed bots are. For a tick with such
    a living bot, drawing the tick never yields a frame: it ends in that
    [log.Fatalf] as soon as the image is allocated (a side [size >= 1]
    with [4 * size * size] within [maxAlloc]) and the two grid loops have
    ended (their upper bounds are below [MaxInt]); and no run over a tick
    sequence that contains the tick reaches the encoder. *)
Theorem living_bot_of_unsupported_player_is_fatal (tick : Tick.t) :
  let unsupported :=
    ∃ bot, bot ∈ Tick.Bots tick ∧ 0 < Bot.Health bot ∧
           Bot.PID bot ≠ 1 ∧ Bot.PID bot ≠ 2 in
  (∀ pt, bodies pt (Tick.Bots tick)
         = bodies pt (filter (λ bot, 0 < Bot.Health bot) (Tick.Bots tick))) ∧
  (∀ pt, bodies pt (Tick.Bots tick) = Fatal unsupported_player ↔ unsupported) ∧
  (∀ pt, ¬ unsupported → ∃ ops, bodies pt (Tick.Bots tick) = Ok ops) ∧
  (unsupported →
   (∀ pt size img, drawTick pt size tick ≠ Ok img) ∧
   (∀ pt size,
      1 <= size → 4 * size * size <= maxAlloc →
      image.X (image.Max (PointTransformer.Bounds pt)) < GoInt.MaxInt →
      image.Y (image.Max (PointTransformer.Bounds pt)) < GoInt.MaxInt →
      drawTick pt size tick = Fatal unsupported_player) ∧
   (∀ fl ticks gif, tick ∈ ticks → main fl ticks ≠ Ok gif)).
Proof.
  cbv zeta.
  assert (Hb : (∃ bot, bot ∈ Tick.Bots tick ∧ 0 < Bot.Health bot ∧
                       Bot.PID bot ≠ 1 ∧ Bot.PID bot ≠ 2) →
               ∀ pt, bodies pt (Tick.Bots tick) = Fatal unsupported_player).
  { intros (bot & Hin & Hh & H1 & H2) pt. eapply bodies_unsupported; eassumption. }
  split; [intros pt; apply bodies_skip_dead |]. split; [| split].
  - intros pt. split; [intros H; eapply bodies_Fatal, H | intros H; apply Hb, H].
  - intros pt Hnone. apply bodies_Ok. intros bot Hin Hh.
    destruct (Z.eq_dec (Bot.PID bot) 1) as [E1 | N1]; [left; exact E1 |].
    destruct (Z.eq_dec (Bot.PID bot) 2) as [E2 | N2]; [right; exact E2 |].
    exfalso. apply Hnone. exists bot. auto.
  - intros Hbad.
    assert (Hd : ∀ pt size img, drawTick pt size tick ≠ Ok img).
    { intros pt size img H. unfold drawTick in H. rewrite (Hb Hbad) in H.
      ok_steps H. congruence. }
    split; [exact Hd |]. split.
    + intros pt size Hs Ha HX HY. unfold drawTick, gridLinesX, gridLinesY.
      rewrite (NewRGBA_Ok size Hs Ha). rewrite !count_up_Ok by assumption. simpl.
      rewrite (Hb Hbad). reflexivity.
    + intros fl ticks gif Ht H. unfold main in H. ok_steps H.
      apply drawAll_Ok in Ha as (_ & _ & _ & t0 & b0 & _ & _ & Hloop).
      destruct (draw_loop_draws _ _ _ _ _ Hloop tick Ht) as (p & img & Himg).
      exact (Hd _ _ _ Himg).
Qed.

Lemma living_bot_of_unsupported_player_is_fatal_witness :
  let bot := Bot.mk 3 1 0 0 0 0 12 false 0 0 0%N false 0 0 0 in
  let tick := Tick.mk 0 [bot] in
  bot ∈ Tick.Bots tick ∧ 0 < Bot.Health bot ∧ Bot.PID bot ≠ 1 ∧ Bot.PID bot ≠ 2 ∧
  (∀ pt, bodies pt (Tick.Bots tick) = Fatal unsupported_player) ∧
  (∀ pt size img, drawTick pt size tick ≠ Ok img) ∧
  (∀ pt size,
     1 <= size → 4 * size * size <= maxAlloc →
     image.X (image.Max (PointTransformer.Bounds pt)) < GoInt.MaxInt →
     image.Y (image.Max (PointTransformer.Bounds pt)) < GoInt.MaxInt →
     drawTick pt size tick = Fatal unsupported_player) ∧
  (∀ fl ticks gif, tick ∈ ticks → main fl ticks ≠ Ok gif).
Proof.
  set (bot := Bot.mk 3 1 0 0 0 0 12 false 0 0 0%N false 0 0 0).
  assert (Hin : bot ∈ Tick.Bots (Tick.mk 0 [bot])) by left.
  assert (Hh : 0 < Bot.Health bot) by (simpl; lia).
  assert (H1 : Bot.PID bot ≠ 1) by discriminate.
  assert (H2 : Bot.PID bot ≠ 2) by discriminate.
  repeat (split; [assumption |]).
  pose proof (living_bot_of_unsupported_player_is_fatal (Tick.mk 0 [bot])) as H.
  cbv zeta in H. destruct H as (_ & Hiff & _ & Hrun).
  assert (Hbad : ∃ b, b ∈ Tick.Bots (Tick.mk 0 [bot]) ∧ 0 < Bot.Health b ∧
                      Bot.PID b ≠ 1 ∧ Bot.PID b ≠ 2) by (exists bot; auto).
  split; [intros pt; apply Hiff, Hbad | exact (Hrun Hbad)].
Defined.

(** ** Frame delays *)

Lemma draw_loop_delays (fl : Flags) (d : Z) (ticks : list Tick.t) :
  GoInt.quo 100 (ticksPerSecond fl) = Some d →
  ∀ i st st', draw_loop fl i ticks st = Ok st' →
    length (delays st') = length (delays st) ∧
    ∀ j, delays st' !! j =
         if decide (i ≤ j < i + length ticks ∧ j < length (delays st))%nat
         then Some d else delays st !! j.
Proof.
  intros Hd. induction ticks as [|t rest IH]; intros i st st' H; simpl in H.
  - injection H as <-. split; [reflexivity |]. intros j.
    case_decide; [simpl in *; lia | reflexivity].
  - ok_steps H. destruct a0 as [p rebuilt]. ok_steps H. destruct a2 as [dr cv].
    assert (a1 = d) by congruence. subst a1.
    apply IH in H as [Hlen Hlook]. simpl in *. rewrite length_insert in *.
    split; [exact Hlen |]. intros j. rewrite Hlook, list_lookup_insert.
    repeat case_decide; try reflexivity; lia.
Qed.

Lemma drawAll_delays (fl : Flags) (ticks : list Tick.t) (st : Loop) :
  drawAll fl ticks = Ok st →
  1 <= ticksPerSecond fl <= 100 ∧
  delays st = replicate (length ticks) (Z.quot 100 (ticksPerSecond fl)).
Proof.
  intros H. apply drawAll_Ok in H as (_ & Hv & _ & t0 & b0 & _ & _ & Hloop).
  split; [exact Hv |].
  destruct (per_tick_delay _ Hv) as [Hq _].
  destruct (draw_loop_delays fl _ ticks Hq _ _ _ Hloop) as [Hlen Hlook].
  simpl in *. rewrite length_replicate in *.
  apply list_eq. intros j. rewrite Hlook. case_decide as Hj.
  - symmetry. apply lookup_replicate_2. lia.
  - transitivity (@None Z);
      [| symmetry]; apply lookup_replicate_None; lia.
Qed.

Lemma insert_last_replicate {A : Type} (k : nat) (x y : A) :
  <[k := y]> (replicate (S k) x) = replicate k x ++ [y].
Proof. induction k as [|k IH]; [reflexivity |]. simpl in *. rewrite IH. reflexivity. Qed.

(** The delay table that a completed run hands to the encoder. *)
Lemma main_delays (fl : Flags) (ticks : list Tick.t) (gif : GIF) :
  main fl ticks = Ok gif →
  let q := Z.quot 100 (ticksPerSecond fl) in
  1 <= ticksPerSecond fl <= 100 ∧
  match length ticks with
  | O => False
  | 1%nat => Delay gif = [q * 10]
  | S (S k) => Delay gif = 1 :: replicate k q ++ [q * 10]
  end.
Proof.
  intros H. unfold main in H. ok_steps H. injection H as <-. simpl.
  apply drawAll_delays in Ha as [Hv Hdel]. split; [exact Hv |].
  destruct (per_tick_delay _ Hv) as [Hq Hqr].
  rewrite Hdel in Ha0. unfold linger in Ha0.
  destruct (length ticks) as [|[|k]]; simpl in Ha0; [discriminate Ha0 | |];
    rewrite Hq in Ha0; simpl in Ha0; injection Ha0 as <-;
    unfold GoInt.mul; rewrite wrap_small by in_range_lia.
  - reflexivity.
  - rewrite length_replicate. f_equal. apply insert_last_replicate.
Qed.

(** ** Runs that cannot fail *)

Lemma drawable_Bounds (tick : Tick.t) :
  drawable tick →
  ∃ b, Tick.Bounds tick = Some b ∧ moderate_box b ∧ well_formed b.
Proof.
  intros [Hne Hbots]. unfold Tick.Bounds.
  destruct (Tick.Bots tick) as [|b0 rest] eqn:E; [contradiction |].
  destruct (fold_widen_tight b0 rest)
    as (Hin & (b1 & H1 & E1) & (b2 & H2 & E2) & (b3 & H3 & E3) & (b4 & H4 & E4)).
  eexists. split; [reflexivity |].
  destruct (Hbots _ H1) as (M1 & _ & _), (Hbots _ H2) as (M2 & _ & _),
    (Hbots _ H3) as (_ & M3 & _), (Hbots _ H4) as (_ & M4 & _).
  destruct (Hin _ H1) as [Hx Hy].
  unfold moderate_box, well_formed. rewrite <- E1, <- E2, <- E3, <- E4.
  repeat split; try assumption; try apply M1; try apply M2; try apply M3;
    try apply M4; lia.
Qed.

Lemma NewPointTransformer_sound (b : image.Rectangle) (maxDim : Z) :
  moderate_box b → well_formed b → sound (NewPointTransformer b Padding maxDim).
Proof.
  intros (HminX & HminY & HmaxX & HmaxY) [HwfX HwfY]. unfold moderate in *.
  destruct b as [[minX minY] [maxX maxY]]. simpl in *.
  change Padding with 120.
  unfold sound, NewPointTransformer, padded, image.Dx, image.Dy. simpl.
  unwrap. gtb_cases; simpl; unwrap; unfold GoInt.MaxInt; lia.
Qed.

Lemma refit_sound (S : Z) (pt : PointTransformer.t) (b : image.Rectangle) :
  sound pt → moderate_box b → well_formed b →
  ∃ p rebuilt, refit S pt b = Some (p, rebuilt) ∧ sound p.
Proof.
  intros Hpt Hb Hwf. unfold refit.
  pose proof (NewPointTransformer_sound b S Hb Hwf) as Hnew.
  destruct (overflows pt b).
  - destruct (shrinks_defined (NewPointTransformer b Padding S) b) as [[|] ->];
      [apply Hnew | apply Hnew | eauto | eauto].
  - destruct (shrinks_defined pt b) as [[|] ->];
      [apply Hpt | apply Hpt | eauto | eauto].
Qed.

Lemma drawTick_Ok (pt : PointTransformer.t) (size : Z) (tick : Tick.t) :
  1 <= size → 4 * size * size <= maxAlloc →
  sound pt → drawable tick → ∃ img, drawTick pt size tick = Ok img.
Proof.
  intros Hs Ha (_ & _ & HX & HY) [_ Hbots]. unfold drawTick, gridLinesX, gridLinesY.
  rewrite (NewRGBA_Ok size Hs Ha). rewrite !count_up_Ok by assumption. simpl.
  destruct (bodies_Ok pt (Tick.Bots tick)) as [ops ->]; [| simpl; eauto].
  intros bot Hin. apply (Hbots bot Hin).
Qed.

Lemma draw_loop_Ok (fl : Flags) (ticks : list Tick.t) :
  1 <= ticksPerSecond fl <= 100 →
  1 <= imageSize fl → 4 * imageSize fl * imageSize fl <= maxAlloc →
  Forall drawable ticks →
  ∀ i st, sound (pt st) →
    length (drawn st) = length (converted st) →
    (i + length ticks ≤ length (drawn st))%nat →
    ∃ st', draw_loop fl i ticks st = Ok st'.
Proof.
  intros Hv Hs Ha. induction 1 as [|tick rest Htick _ IH]; intros i st Hpt Hlen Hi;
    simpl; [eauto |].
  destruct (drawable_Bounds tick Htick) as (b & -> & Hb & Hwf). simpl.
  destruct (refit_sound (imageSize fl) (pt st) b Hpt Hb Hwf) as (p & r & -> & Hp).
  simpl.
  destruct (drawTick_Ok p (imageSize fl) tick Hs Ha Hp Htick) as [img ->]. simpl.
  destruct (per_tick_delay _ Hv) as [-> _]. simpl.
  unfold convert_slot. simpl in Hi.
  rewrite list_lookup_insert_eq by lia. simpl.
  apply IH; simpl; rewrite ?length_insert; [exact Hp | exact Hlen | lia].
Qed.

(** With valid flags and an image that can be allocated, every non-empty
    sequence of drawable ticks is drawn to the end. *)
Lemma drawAll_total (fl : Flags) (ticks : list Tick.t) :
  1 <= threads fl < GoInt.MaxInt → 1 <= ticksPerSecond fl <= 100 →
  1 <= imageSize fl → 4 * imageSize fl * imageSize fl <= maxAlloc →
  ticks ≠ [] → Forall drawable ticks →
  ∃ st, drawAll fl ticks = Ok st.
Proof.
  intros Ht Hv Hs Ha Hne Hticks. unfold drawAll.
  destruct (Z.ltb_spec (threads fl) 1); [lia |].
  rewrite Z.gtb_ltb.
  destruct (Z.ltb_spec 100 (ticksPerSecond fl)); [lia |].
  destruct (Z.ltb_spec (ticksPerSecond fl) 1); [lia |].
  destruct (Z.ltb_spec (imageSize fl) 1); [lia |]. simpl.
  rewrite count_up_Ok by lia. simpl.
  destruct (ticks !! 0%nat) as [tick0 |] eqn:E0;
    [| destruct ticks; [contradiction | discriminate E0]].
  simpl.
  destruct (drawable_Bounds tick0 (proj1 (Forall_lookup _ _) Hticks _ _ E0))
    as (b & -> & Hb & Hwf).
  simpl. apply (draw_loop_Ok fl ticks Hv Hs Ha Hticks); simpl.
  - apply NewPointTransformer_sound; assumption.
  - rewrite !length_replicate. reflexivity.
  - rewrite !length_replicate. lia.
Qed.

(** ... and handed to the encoder. *)
Lemma main_total (fl : Flags) (ticks : list Tick.t) :
  1 <= threads fl < GoInt.MaxInt → 1 <= ticksPerSecond fl <= 100 →
  1 <= imageSize fl → 4 * imageSize fl * imageSize fl <= maxAlloc →
  ticks ≠ [] → Forall drawable ticks →
  ∃ gif, main fl ticks = Ok gif.
Proof.
  intros Ht Hv Hs Ha Hne Hticks.
  destruct (drawAll_total fl ticks Ht Hv Hs Ha Hne Hticks) as [st Hst].
  unfold main. rewrite Hst. simpl.
  destruct (drawAll_delays _ _ _ Hst) as [_ ->].
  destruct (per_tick_delay _ Hv) as [Hq _]. unfold linger.
  destruct ticks as [|tick0 rest]; [contradiction |]. simpl.
  rewrite Hq. simpl. eauto.
Qed.

(** ** The rebuild policy, tick by tick *)

Ltac drawable_bots :=
  split; [discriminate |];
  let bot := fresh "bot" in
  let Hin := fresh "Hin" in
  intros bot Hin;
  repeat (apply elem_of_cons in Hin as [-> | Hin]);
  [.. | inversion Hin];
  unfold moderate; simpl; repeat split; auto; lia.

Lemma sample_ticks_drawable : Forall drawable sample_ticks.
Proof.
  constructor; [drawable_bots |]. constructor; [drawable_bots |].
  constructor; [drawable_bots | constructor].
Qed.

Example sample_run_rebuilds :
  (λ st, (λ u, (PointTransformer.Bounds u.1, u.2)) <$> used st) <$>
    (match drawAll sample_flags sample_ticks with Ok st => Some st | _ => None end)
  = Some [(image.mkRect (image.mkPoint (-120) (-620)) (image.mkPoint 1120 620), false);
          (image.mkRect (image.mkPoint (-120) (-620)) (image.mkPoint 1120 620), false);
          (image.mkRect (image.mkPoint (-120) (-670)) (image.mkPoint 1220 670), true)].
Proof. vm_compute. reflexivity. Qed.

(** ** The delay table *)

(** C2, at a failing input. For three ticks at the default speed of 12 the
    delays handed to the encoder are 1, 8 and 80 hundredths of a second:
    the first slot holds [100 / 100 = 1], not 100. *)
Theorem first_delay_is_one_hundredth :
  Delay <$> (match main sample_flags sample_ticks with
             | Ok gif => Some gif
             | _ => None
             end)
  = Some [1; 8; 80].
Proof. vm_compute. reflexivity. Qed.

(** C8. With valid flags and an image that can be allocated (a side with
    [4 * size * size] within [maxAlloc]), a run over exactly one drawable
    tick reaches the encoder; and in every run over exactly one tick that
    reaches the encoder, the only delay is ten times the per-tick delay
    [100 / v]: the assignment to the last slot comes after the assignment
    to the first. *)
Theorem single_tick_delay (fl : Flags) (tick : Tick.t) :
  (1 <= threads fl < GoInt.MaxInt → 1 <= ticksPerSecond fl <= 100 →
   1 <= imageSize fl → 4 * imageSize fl * imageSize fl <= maxAlloc →
   drawable tick →
   ∃ gif, main fl [tick] = Ok gif) ∧
  ∀ gif, main fl [tick] = Ok gif →
         Delay gif = [Z.quot 100 (ticksPerSecond fl) * 10].
Proof.
  split.
  - intros Ht Hv Hs Ha Hd. apply main_total; try assumption; [discriminate |].
    constructor; [exact Hd | constructor].
  - intros gif H. apply main_delays in H as [_ H]. exact H.
Qed.

Lemma single_tick_delay_witness :
  ∃ gif, main sample_flags [Tick.mk 0 [circle_bot 0 0]] = Ok gif ∧
         Delay gif = [Z.quot 100 (ticksPerSecond sample_flags) * 10].
Proof.
  destruct (single_tick_delay sample_flags (Tick.mk 0 [circle_bot 0 0]))
    as [Htotal Hdelay].
  destruct Htotal as [gif Hgif].
  - unfold GoInt.MaxInt. simpl. lia.
  - simpl. lia.
  - simpl. lia.
  - unfold maxAlloc. simpl. lia.
  - drawable_bots.
  - exists gif. split; [exact Hgif | exact (Hdelay gif Hgif)].
Defined.

(** ** The frames of a run *)

Lemma convert_slot_Some (i : nat) (img : Frame) (dr dr' : list (option Frame))
    (cv cv' : list (option Paletted)) :
  convert_slot i (<[i := Some img]> dr) cv = Some (dr', cv') →
  (i < length dr)%nat ∧ dr' = <[i := None]> (<[i := Some img]> dr) ∧
  cv' = <[i := Some (FloydSteinberg img)]> cv.
Proof.
  unfold convert_slot. intros H.
  destruct (<[i := Some img]> dr !! i) as [[img' |] |] eqn:E; try discriminate H.
  apply list_lookup_insert_Some in E as [(_ & E & Hlt) | [Hne _]]; [| contradiction].
  split; [exact Hlt |]. injection H as <- <-. split; congruence.
Qed.

Lemma draw_loop_converted (fl : Flags) (ticks : list Tick.t) :
  ∀ i st st', draw_loop fl i ticks st = Ok st' →
    length (drawn st) = length (converted st) →
    ∃ frames,
      Forall2 (λ tick img, ∃ p, drawTick p (imageSize fl) tick = Ok img) ticks frames ∧
      ∀ j, converted st' !! j =
           if decide (i ≤ j < i + length ticks)%nat
           then (Some ∘ FloydSteinberg) <$> frames !! (j - i)%nat
           else converted st !! j.
Proof.
  induction ticks as [|tick rest IH]; intros i st st' H Hlen; simpl in H.
  - injection H as <-. exists []. split; [constructor |]. intros j.
    case_decide; [simpl in *; lia | reflexivity].
  - ok_steps H. destruct a0 as [p rebuilt]. ok_steps H. destruct a2 as [dr cv].
    apply convert_slot_Some in Ha3 as (Hlt & -> & ->).
    apply IH in H as (frames & HF & Hlook).
    + exists (a0 :: frames). split; [constructor; eauto |]. intros j. rewrite Hlook.
      simpl. destruct (decide (j = i)) as [-> | Hne].
      * rewrite Nat.sub_diag. simpl. repeat case_decide; try lia.
        apply list_lookup_insert_eq. lia.
      * rewrite list_lookup_insert_ne by auto.
        repeat case_decide; try lia; try reflexivity.
        replace (j - i)%nat with (S (j - S i)) by lia. reflexivity.
    + simpl. rewrite !length_insert. exact Hlen.
Qed.

Lemma drawAll_converted (fl : Flags) (ticks : list Tick.t) (st : Loop) :
  drawAll fl ticks = Ok st →
  ∃ frames,
    Forall2 (λ tick img, ∃ p, drawTick p (imageSize fl) tick = Ok img) ticks frames ∧
    converted st = (Some ∘ FloydSteinberg) <$> frames.
Proof.
  intros H. apply drawAll_Ok in H as (_ & _ & _ & t0 & b0 & _ & _ & Hloop).
  apply draw_loop_converted in Hloop as (frames & HF & Hlook);
    [| simpl; rewrite !length_replicate; reflexivity].
  exists frames. split; [exact HF |].
  pose proof (Forall2_length _ _ _ HF) as Hlen.
  apply list_eq. intros j. rewrite Hlook, list_lookup_fmap. simpl.
  case_decide as Hj.
  - rewrite Nat.sub_0_r. reflexivity.
  - assert (E1 : replicate (length ticks) (@None Paletted) !! j = None)
      by (apply lookup_replicate_None; lia).
    assert (E2 : frames !! j = None) by (apply lookup_ge_None; lia).
    rewrite E1, E2. reflexivity.
Qed.

(** The frames that a completed run hands to the encoder are the
    ditherings, in tick order, of the frames drawn for its ticks; the
    worker pool, under any schedule that completes, leaves exactly these
    in [converted]. *)
Lemma main_image (fl : Flags) (ticks : list Tick.t) (gif : GIF) :
  main fl ticks = Ok gif →
  ∃ frames,
    Forall2 (λ tick img, ∃ p, drawTick p (imageSize fl) tick = Ok img) ticks frames ∧
    Image gif = (Some ∘ FloydSteinberg) <$> frames.
Proof.
  intros H. unfold main in H. ok_steps H. injection H as <-. simpl.
  apply drawAll_converted. exact Ha.
Qed.

(** ** The sample run *)

Lemma sample_ticks_moderate : Forall moderate_tick sample_ticks.
Proof.
  eapply Forall_impl; [exact sample_ticks_drawable |].
  intros tick [_ H] bot Hbot. destruct (H bot Hbot) as (Mx & My & _). auto.
Qed.

Lemma sample_flags_valid :
  (1 <= threads sample_flags < GoInt.MaxInt) ∧
  1 <= ticksPerSecond sample_flags <= 100 ∧ 1 <= imageSize sample_flags ∧
  4 * imageSize sample_flags * imageSize sample_flags <= maxAlloc.
Proof. unfold GoInt.MaxInt, maxAlloc. simpl. lia. Qed.

Lemma sample_drawAll : ∃ st, drawAll sample_flags sample_ticks = Ok st.
Proof.
  destruct sample_flags_valid as (Ht & Hv & Hs & Ha).
  apply drawAll_total; try assumption; [discriminate | exact sample_ticks_drawable].
Qed.

Lemma sample_main : ∃ gif, main sample_flags sample_ticks = Ok gif.
Proof.
  destruct sample_flags_valid as (Ht & Hv & Hs & Ha).
  apply main_total; try assumption; [discriminate | exact sample_ticks_drawable].
Qed.

Lemma sample_box_moderate : moderate_box sample_box.
Proof. unfold moderate_box, moderate. simpl. lia. Qed.

Lemma sample_box_well_formed : well_formed sample_box.
Proof. unfold well_formed. simpl. lia. Qed.

Lemma sample_pt_moderate : moderate_box (PointTransformer.Bounds sample_pt).
Proof. unfold moderate_box, moderate. simpl. lia. Qed.

(** Membership in a list that is written out. *)
Ltac in_list :=
  repeat first [apply list_elem_of_here | apply list_elem_of_further].

(** [covers] between two ticks that are written out. *)
Ltac covers_by_search :=
  let b := fresh "b" in
  let Hb := fresh "Hb" in
  intros b Hb; simpl in Hb;
  repeat (apply elem_of_cons in Hb as [-> | Hb]); [.. | inversion Hb];
  eexists;
  first [ split; [apply list_elem_of_here | split; reflexivity]
        | split; [apply list_elem_of_further, list_elem_of_here | split; reflexivity]
        | split; [do 2 apply list_elem_of_further; apply list_elem_of_here
                 | split; reflexivity] ].

(** ** More on [Tick.Bounds] *)

Lemma Bounds_Some_tight (t : Tick.t) (r : image.Rectangle) :
  Tick.Bounds t = Some r → tight_box r (Tick.Bots t).
Proof.
  unfold Tick.Bounds. destruct (Tick.Bots t) as [|b0 rest]; [discriminate |].
  intros [= <-]. apply fold_widen_tight.
Qed.

Lemma covers_nonempty (t t' : Tick.t) :
  covers t t' → Tick.Bots t ≠ [] → Tick.Bots t' ≠ [].
Proof.
  intros Hc Hne E. destruct (Tick.Bots t) as [|b rest] eqn:Et; [contradiction |].
  destruct (Hc b) as (b' & Hb' & _); [rewrite Et; left |].
  rewrite E in Hb'. inversion Hb'.
Qed.

Lemma tight_within (t t' : Tick.t) (r r' : image.Rectangle) :
  covers t t' → tight_box r (Tick.Bots t) → tight_box r' (Tick.Bots t') →
  within r r'.
Proof.
  intros Hc (_ & (b1 & H1 & E1) & (b2 & H2 & E2) & (b3 & H3 & E3) & (b4 & H4 & E4))
    (Hin' & _).
  destruct (Hc _ H1) as (c1 & Hc1 & Ex1 & _), (Hc _ H2) as (c2 & Hc2 & Ex2 & _),
    (Hc _ H3) as (c3 & Hc3 & _ & Ey3), (Hc _ H4) as (c4 & Hc4 & _ & Ey4).
  pose proof (Hin' _ Hc1). pose proof (Hin' _ Hc2).
  pose proof (Hin' _ Hc3). pose proof (Hin' _ Hc4).
  unfold within. lia.
Qed.

(** X1. [Bounds] grows with the positions: when every position of a tick
    is also a position of a second tick, the box of the first lies within
    the box of the second. *)
Theorem Bounds_grows_with_positions (t t' : Tick.t) (r r' : image.Rectangle) :
  covers t t' → Tick.Bounds t = Some r → Tick.Bounds t' = Some r' →
  within r r'.
Proof.
  intros Hc Hr Hr'. eapply tight_within; eauto using Bounds_Some_tight.
Qed.

Lemma Bounds_grows_with_positions_witness :
  within (image.mkRect (image.mkPoint 0 0) (image.mkPoint 0 0))
         (image.mkRect (image.mkPoint 0 0) (image.mkPoint 1000 0)).
Proof.
  apply (Bounds_grows_with_positions
           (Tick.mk 0 [circle_bot 0 0])
           (Tick.mk 1 [hexagon_bot 1000 0; circle_bot 0 0]));
    [covers_by_search | reflexivity | reflexivity].
Defined.

(** X2. [Bounds] depends on the set of positions only: two ticks with the
    same positions, in whatever order, with whatever repetitions and
    whatever the other fields of their bots, have the same bounds (and
    both panic when there is no position at all). *)
Theorem Bounds_depends_on_positions_only (t t' : Tick.t) :
  covers t t' → covers t' t → Tick.Bounds t = Tick.Bounds t'.
Proof.
  intros Hc Hc'.
  destruct (Tick.Bounds t) as [r |] eqn:Er, (Tick.Bounds t') as [r' |] eqn:Er'.
  - pose proof (tight_within _ _ _ _ Hc (Bounds_Some_tight _ _ Er)
                  (Bounds_Some_tight _ _ Er')) as (A1 & A2 & A3 & A4).
    pose proof (tight_within _ _ _ _ Hc' (Bounds_Some_tight _ _ Er')
                  (Bounds_Some_tight _ _ Er)) as (B1 & B2 & B3 & B4).
    destruct r as [[a b] [c d]], r' as [[a' b'] [c' d']]. simpl in *.
    repeat f_equal; lia.
  - exfalso. unfold Tick.Bounds in Er, Er'.
    destruct (Tick.Bots t') as [|? ?] eqn:E'; [| discriminate].
    apply (covers_nonempty t t' Hc); [| exact E'].
    destruct (Tick.Bots t); [discriminate | discriminate].
  - exfalso. unfold Tick.Bounds in Er, Er'.
    destruct (Tick.Bots t) as [|? ?] eqn:E; [| discriminate].
    apply (covers_nonempty t' t Hc'); [| exact E].
    destruct (Tick.Bots t'); [discriminate | discriminate].
  - reflexivity.
Qed.

Lemma Bounds_depends_on_positions_only_witness :
  Tick.Bounds (Tick.mk 0 [circle_bot 0 0; hexagon_bot 1000 0])
  = Tick.Bounds (Tick.mk 7 [hexagon_bot 1000 0; hexagon_bot 0 0; circle_bot 1000 0]).
Proof. apply Bounds_depends_on_positions_only; covers_by_search. Defined.

(** ** More on the point transformer *)

(** X3. [NewPointTransformer] keeps the padding and the centre: for a box
    and a padding of moderate size, the stored box reaches beyond the
    padded box by the same amount to the west and to the east, and by the
    same amount to the south and to the north; these amounts are never
    negative, and one of the two is zero. So every side of the stored box
    is at least [padding] away from the box that was passed, and both
    boxes have the same centre. *)
Theorem stored_box_keeps_padding_and_centre
    (B : image.Rectangle) (padding maxDim : Z) :
  moderate_box B → moderate padding →
  let stored := PointTransformer.Bounds (NewPointTransformer B padding maxDim) in
  let west := image.X (image.Min B) - padding - image.X (image.Min stored) in
  let east := image.X (image.Max stored) - (image.X (image.Max B) + padding) in
  let south := image.Y (image.Min B) - padding - image.Y (image.Min stored) in
  let north := image.Y (image.Max stored) - (image.Y (image.Max B) + padding) in
  0 <= west ∧ west = east ∧ 0 <= south ∧ south = north ∧ (west = 0 ∨ south = 0).
Proof.
  intros (HminX & HminY & HmaxX & HmaxY) Hp. unfold moderate in *.
  destruct B as [[minX minY] [maxX maxY]]. simpl in *.
  unfold NewPointTransformer, padded. simpl.
  unwrap. gtb_cases; simpl; unwrap; lia.
Qed.

Lemma stored_box_keeps_padding_and_centre_witness :
  let stored := PointTransformer.Bounds (NewPointTransformer sample_box 120 600) in
  image.Y (image.Min sample_box) - 120 - image.Y (image.Min stored)
  = image.Y (image.Max stored) - (image.Y (image.Max sample_box) + 120).
Proof.
  assert (Hp : moderate 120) by (unfold moderate; lia).
  pose proof (stored_box_keeps_padding_and_centre sample_box 120 600
                sample_box_moderate Hp) as H.
  cbv zeta in H. destruct H as (_ & _ & _ & H & _). exact H.
Defined.

Lemma scale_exact (L S : Z) :
  0 < L → (inject_Z L * (inject_Z S / inject_Z L) == inject_Z S)%Q.
Proof.
  intros HL. unfold Qdiv. rewrite (Qmult_comm (inject_Z S)), Qmult_assoc, Qmult_inv_r, Qmult_1_l;
    [reflexivity |].
  unfold Qeq. simpl. lia.
Qed.

(** X4. The stored box is what the image shows: for a box of moderate size
    with [Min] not beyond [Max] and a positive padding, the transformer
    sends the [Min] corner of its stored box to the pixel [(0, 0)], and
    the [Max] side of the longer axis of the padded box to [S], the side
    of the image, in exact arithmetic. *)
Theorem box_corners_map_to_canvas_corners
    (B : image.Rectangle) (padding S : Z) :
  moderate_box B → well_formed B → 0 < padding <= 2 ^ 60 →
  let pt := NewPointTransformer B padding S in
  let stored := PointTransformer.Bounds pt in
  let b := padded B padding in
  (∃ q, PointTransformer.X pt (image.X (image.Min stored)) = F.Fin q ∧ (q == 0)%Q) ∧
  (∃ q, PointTransformer.Y pt (image.Y (image.Min stored)) = F.Fin q ∧ (q == 0)%Q) ∧
  (image.Dy b < image.Dx b →
   ∃ q, PointTransformer.X pt (image.X (image.Max stored)) = F.Fin q ∧
        (q == inject_Z S)%Q) ∧
  (image.Dx b <= image.Dy b →
   ∃ q, PointTransformer.Y pt (image.Y (image.Max stored)) = F.Fin q ∧
        (q == inject_Z S)%Q).
Proof.
  intros (HminX & HminY & HmaxX & HmaxY) [HwfX HwfY] Hp. unfold moderate in *.
  destruct B as [[minX minY] [maxX maxY]]. simpl in *.
  unfold PointTransformer.X, PointTransformer.Y, NewPointTransformer, padded,
    image.Dx, image.Dy, F.of_int. simpl.
  unwrap. gtb_cases; simpl; unwrap; unfold F.div;
    rewrite is_zero_inject_Z by lia; simpl;
    (split; [eexists; split; [reflexivity |];
             match goal with |- (inject_Z ?z * _ == 0)%Q =>
               replace z with 0 by lia; apply Qmult_0_l end |]);
    (split; [eexists; split; [reflexivity |];
             match goal with |- (inject_Z ?z * _ == 0)%Q =>
               replace z with 0 by lia; apply Qmult_0_l end |]).
  - split; [| intros; lia]. intros _. eexists. split; [reflexivity |].
    match goal with |- (inject_Z ?z * (_ / inject_Z ?L) == _)%Q =>
      replace z with L by lia end.
    apply scale_exact. lia.
  - split; [intros; lia |]. intros _. eexists. split; [reflexivity |].
    match goal with |- (inject_Z ?z * (_ / inject_Z ?L) == _)%Q =>
      replace z with L by lia end.
    apply scale_exact. lia.
Qed.

Lemma box_corners_map_to_canvas_corners_witness :
  let pt := NewPointTransformer sample_box 120 600 in
  ∃ q, PointTransformer.X pt (image.X (image.Max (PointTransformer.Bounds pt)))
       = F.Fin q ∧ (q == inject_Z 600)%Q.
Proof.
  assert (Hp : 0 < 120 <= 2 ^ 60) by lia.
  pose proof (box_corners_map_to_canvas_corners sample_box 120 600
                sample_box_moderate sample_box_well_formed Hp) as H.
  cbv zeta in H. destruct H as (_ & _ & H & _). apply H. vm_compute. reflexivity.
Defined.

(** X5. One scale for both axes: for a transformer with a finite ratio
    and moderate coordinates, the images of two coordinates differ, on the
    X axis and on the Y axis alike, by [Resize] of their difference; and
    when the ratio is not negative, [X] and [Y] keep the order of the
    coordinates. Shapes are neither stretched nor mirrored. *)
Theorem distances_scale_uniformly
    (pt : PointTransformer.t) (r : Q) (a1 a2 : Z) :
  PointTransformer.ratio pt = F.Fin r →
  moderate_box (PointTransformer.Bounds pt) → moderate a1 → moderate a2 →
  ∃ x1 x2 y1 y2 d,
    PointTransformer.X pt a1 = F.Fin x1 ∧ PointTransformer.X pt a2 = F.Fin x2 ∧
    PointTransformer.Y pt a1 = F.Fin y1 ∧ PointTransformer.Y pt a2 = F.Fin y2 ∧
    PointTransformer.Resize pt (a2 - a1) = F.Fin d ∧
    (x2 - x1 == d)%Q ∧ (y2 - y1 == d)%Q ∧
    ((0 <= r)%Q → a1 <= a2 → (x1 <= x2)%Q ∧ (y1 <= y2)%Q).
Proof.
  intros Hr (HminX & HminY & _ & _) H1 H2. unfold moderate in *.
  unfold PointTransformer.X, PointTransformer.Y, PointTransformer.Resize, F.of_int.
  rewrite Hr. simpl. unwrap. do 5 eexists.
  repeat (split; [reflexivity |]).
  assert (E : ∀ m, (inject_Z (a2 + -1 * m) * r - inject_Z (a1 + -1 * m) * r
                    == inject_Z (a2 - a1) * r)%Q).
  { intros m. unfold Z.sub. rewrite !inject_Z_plus, !inject_Z_mult, inject_Z_opp.
    ring. }
  split; [apply E |]. split; [apply E |].
  intros Hr0 Hle. split; apply Qmult_le_compat_r; try exact Hr0;
    rewrite <- Zle_Qle; lia.
Qed.

Lemma distances_scale_uniformly_witness :
  ∃ x1 x2 y1 y2 d,
    PointTransformer.X sample_pt 0 = F.Fin x1 ∧
    PointTransformer.X sample_pt 100 = F.Fin x2 ∧
    PointTransformer.Y sample_pt 0 = F.Fin y1 ∧
    PointTransformer.Y sample_pt 100 = F.Fin y2 ∧
    PointTransformer.Resize sample_pt (100 - 0) = F.Fin d ∧
    (x2 - x1 == d)%Q ∧ (y2 - y1 == d)%Q ∧
    ((0 <= 3 # 10)%Q → 0 <= 100 → (x1 <= x2)%Q ∧ (y1 <= y2)%Q).
Proof.
  apply (distances_scale_uniformly sample_pt (3 # 10) 0 100);
    [reflexivity | exact sample_pt_moderate | unfold moderate; lia
    | unfold moderate; lia].
Defined.

(** ** More on the rebuild policy *)

Lemma fresh_no_overflow (B : image.Rectangle) (maxDim : Z) :
  moderate_box B → overflows (NewPointTransformer B Padding maxDim) B = false.
Proof.
  intros (HminX & HminY & HmaxX & HmaxY). unfold moderate in *.
  destruct B as [[minX minY] [maxX maxY]]. simpl in *.
  change Padding with 120.
  unfold overflows, NewPointTransformer, padded, BotSize. simpl.
  unwrap. gtb_cases; simpl; unwrap;
    rewrite !orb_false_iff, !Z.gtb_ltb, !Z.ltb_ge; lia.
Qed.

Lemma refit_cases (S : Z) (c p : PointTransformer.t) (tb : image.Rectangle)
    (r : bool) :
  refit S c tb = Some (p, r) →
  (p = NewPointTransformer tb Padding S ∧ r = true) ∨
  (p = c ∧ r = false ∧ overflows c tb = false ∧ shrinks c tb = Some false).
Proof.
  unfold refit. destruct (overflows c tb) eqn:Eo.
  - destruct (shrinks _ tb) as [[|]|]; intros [= <- <-]; left; auto.
  - destruct (shrinks c tb) as [[|]|] eqn:Es; intros [= <- <-]; [left | right]; auto.
Qed.

(** X6. Whatever transformer is carried into an iteration, the one that
    draws the tick is not overflown by it: after the two tests of the loop
    body, the bounds of the tick, widened by [BotSize], lie within the
    transformer's box (bounds of moderate size). *)
Theorem refit_never_leaves_an_overflow
    (S : Z) (carried p : PointTransformer.t) (tickBounds : image.Rectangle)
    (rebuilt : bool) :
  moderate_box tickBounds →
  refit S carried tickBounds = Some (p, rebuilt) →
  overflows p tickBounds = false.
Proof.
  intros Hm [[-> _] | (-> & _ & Ho & _)]%refit_cases;
    [apply fresh_no_overflow; exact Hm | exact Ho].
Qed.

Lemma refit_never_leaves_an_overflow_witness :
  ∃ p rebuilt,
    refit 600 sample_pt sample_box = Some (p, rebuilt) ∧
    overflows p sample_box = false.
Proof.
  destruct (refit 600 sample_pt sample_box) as [[p rebuilt] |] eqn:E;
    [| vm_compute in E; discriminate E].
  exists p, rebuilt. split; [reflexivity |].
  exact (refit_never_leaves_an_overflow 600 sample_pt p sample_box rebuilt
           sample_box_moderate E).
Defined.

(** X7. The two tests settle in one step: run again on the same bounds
    with the transformer that they have just returned, they return that
    transformer once more (bounds of moderate size, [Min] not beyond
    [Max]). A tick that is repeated does not move the view. *)
Theorem refit_is_idempotent
    (S : Z) (carried p : PointTransformer.t) (tickBounds : image.Rectangle)
    (rebuilt : bool) :
  moderate_box tickBounds → well_formed tickBounds →
  refit S carried tickBounds = Some (p, rebuilt) →
  ∃ again, refit S p tickBounds = Some (p, again).
Proof.
  intros Hm Hwf [[-> _] | (-> & _ & Ho & Hs)]%refit_cases; unfold refit.
  - rewrite (fresh_no_overflow _ _ Hm).
    destruct (NewPointTransformer_sound tickBounds S Hm Hwf) as (Hx & Hy & _).
    destruct (shrinks_defined _ tickBounds Hx Hy) as [[|] ->]; eauto.
  - rewrite Ho, Hs. eauto.
Qed.

Lemma refit_is_idempotent_witness :
  ∃ p rebuilt again,
    refit 600 sample_pt sample_box = Some (p, rebuilt) ∧
    refit 600 p sample_box = Some (p, again).
Proof.
  destruct (refit 600 sample_pt sample_box) as [[p rebuilt] |] eqn:E;
    [| vm_compute in E; discriminate E].
  destruct (refit_is_idempotent 600 sample_pt p sample_box rebuilt
              sample_box_moderate sample_box_well_formed E) as [again Ha].
  exists p, rebuilt, again. split; [reflexivity | exact Ha].
Defined.

(** X8. Bots that stay close together are refitted on every tick: when
    both sides of the bounds of a tick are shorter than 380 units, one of
    the two tests holds whatever transformer of moderate size is carried,
    and the tick is drawn with a transformer built from its own bounds. A
    transformer that is not overflown is at least [2 * BotSize] longer
    than the bounds, so that sides below 380 are at most 75 percent of
    its sides. *)
Theorem close_bots_rebuild_every_tick
    (S : Z) (carried : PointTransformer.t) (tickBounds : image.Rectangle) :
  moderate_box tickBounds → well_formed tickBounds →
  moderate_box (PointTransformer.Bounds carried) →
  image.X (image.Max tickBounds) - image.X (image.Min tickBounds) < 380 →
  image.Y (image.Max tickBounds) - image.Y (image.Min tickBounds) < 380 →
  refit S carried tickBounds = Some (NewPointTransformer tickBounds Padding S, true).
Proof.
  intros Hm Hwf Hc HX HY. unfold refit.
  destruct (overflows carried tickBounds) eqn:Eo.
  - destruct (NewPointTransformer_sound tickBounds S Hm Hwf) as (Hx & Hy & _).
    destruct (shrinks_defined _ tickBounds Hx Hy) as [[|] ->]; reflexivity.
  - assert (Hs : shrinks carried tickBounds = Some true); [| rewrite Hs; reflexivity].
    destruct Hm as (M1 & M2 & M3 & M4), Hc as (C1 & C2 & C3 & C4), Hwf as [W1 W2].
    unfold moderate in *.
    destruct tickBounds as [[minX minY] [maxX maxY]].
    destruct carried as [[[cminX cminY] [cmaxX cmaxY]] ratio]. simpl in *.
    unfold overflows, BotSize in Eo. simpl in Eo. unwrap.
    rewrite !orb_false_iff, !Z.gtb_ltb, !Z.ltb_ge in Eo.
    destruct Eo as (((E1 & E2) & E3) & E4).
    unfold shrinks, ShrinkPercent. simpl. unwrap.
    rewrite !quo_Some by lia. unwrap.
    assert (Q1 : Z.quot ((maxY - minY) * 100) (cmaxY - cminY) < 76)
      by (apply Z.quot_lt_upper_bound; lia).
    assert (Q2 : Z.quot ((maxX - minX) * 100) (cmaxX - cminX) < 76)
      by (apply Z.quot_lt_upper_bound; lia).
    assert (Q1' : 0 <= Z.quot ((maxY - minY) * 100) (cmaxY - cminY))
      by (apply Z.quot_pos; lia).
    assert (Q2' : 0 <= Z.quot ((maxX - minX) * 100) (cmaxX - cminX))
      by (apply Z.quot_pos; lia).
    rewrite !wrap_small by in_range_lia.
    destruct (Z.leb_spec (Z.quot ((maxY - minY) * 100) (cmaxY - cminY)) 75); [| lia].
    destruct (Z.leb_spec (Z.quot ((maxX - minX) * 100) (cmaxX - cminX)) 75); [| lia].
    reflexivity.
Qed.

Lemma close_bots_rebuild_every_tick_witness :
  refit 600 sample_pt sample_box
  = Some (NewPointTransformer sample_box Padding 600, true).
Proof.
  apply (close_bots_rebuild_every_tick 600 sample_pt sample_box
           sample_box_moderate sample_box_well_formed sample_pt_moderate);
    simpl; lia.
Defined.

Lemma moderate_Bounds (tick : Tick.t) (tb : image.Rectangle) :
  moderate_tick tick → Tick.Bounds tick = Some tb →
  moderate_box tb ∧ well_formed tb.
Proof.
  intros Hm Hb. apply Bounds_Some_tight in Hb
    as (Hin & (b1 & H1 & E1) & (b2 & H2 & E2) & (b3 & H3 & E3) & (b4 & H4 & E4)).
  destruct (Hm _ H1) as [M1 _], (Hm _ H2) as [M2 _],
    (Hm _ H3) as [_ M3], (Hm _ H4) as [_ M4].
  destruct (Hin _ H1) as [Hx Hy].
  unfold moderate_box, well_formed. rewrite <- E1, <- E2, <- E3, <- E4.
  repeat split; try apply M1; try apply M2; try apply M3; try apply M4; lia.
Qed.

Lemma inside_on_canvas (B : image.Rectangle) (S x y : Z) :
  moderate_box B → well_formed B → 0 < S →
  let pt := NewPointTransformer B Padding S in
  image.X (image.Min (PointTransformer.Bounds pt)) <= x
    <= image.X (image.Max (PointTransformer.Bounds pt)) →
  image.Y (image.Min (PointTransformer.Bounds pt)) <= y
    <= image.Y (image.Max (PointTransformer.Bounds pt)) →
  F.between 0 (inject_Z S) (PointTransformer.X pt x) ∧
  F.between 0 (inject_Z S) (PointTransformer.Y pt y).
Proof.
  intros (HminX & HminY & HmaxX & HmaxY) [HwfX HwfY] HS. unfold moderate in *.
  destruct B as [[minX minY] [maxX maxY]]. simpl in *. change Padding with 120.
  unfold PointTransformer.X, PointTransformer.Y,
    NewPointTransformer, padded, F.of_int. simpl.
  unwrap. gtb_cases; simpl; unwrap; unfold F.div;
    rewrite is_zero_inject_Z by lia; simpl; intros Hx Hy; unwrap;
    split; apply scale_between; lia.
Qed.

Lemma refits_built (S : Z) (ticks : list Tick.t) :
  Forall moderate_tick ticks →
  ∀ c trace, built_for S c → refits S c ticks trace →
    ∀ i tick p r, ticks !! i = Some tick → trace !! i = Some (p, r) →
      built_for S p ∧
      ∃ tb, Tick.Bounds tick = Some tb ∧ overflows p tb = false.
Proof.
  induction 1 as [|t rest Ht _ IH]; intros c [|[p0 r0] trace] Hc Hr i tick p r Hi Hp;
    simpl in Hr; try tauto; try discriminate.
  destruct Hr as [(tb & Hb & Hrefit) Hrest].
  destruct (moderate_Bounds _ _ Ht Hb) as [Hm Hwf].
  assert (Hp0 : built_for S p0).
  { apply refit_cases in Hrefit as [[-> _] | (-> & _)]; [| exact Hc].
    exists tb. auto. }
  destruct i as [|i]; simpl in Hi, Hp.
  - injection Hi as <-. injection Hp as <- <-. split; [exact Hp0 |].
    exists tb. split; [exact Hb |].
    apply refit_cases in Hrefit as [[-> _] | (-> & _ & Ho & _)];
      [apply fresh_no_overflow; exact Hm | exact Ho].
  - eapply IH; eassumption.
Qed.

(** *** The two tests, written out *)

Lemma small_Bounds (tick : Tick.t) (tb : image.Rectangle) :
  small_tick tick → Tick.Bounds tick = Some tb →
  (- 2 ^ 55 <= image.X (image.Min tb) <= 2 ^ 55 ∧
   - 2 ^ 55 <= image.Y (image.Min tb) <= 2 ^ 55 ∧
   - 2 ^ 55 <= image.X (image.Max tb) <= 2 ^ 55 ∧
   - 2 ^ 55 <= image.Y (image.Max tb) <= 2 ^ 55) ∧
  well_formed tb.
Proof.
  intros Hm Hb. apply Bounds_Some_tight in Hb
    as (Hin & (b1 & H1 & E1) & (b2 & H2 & E2) & (b3 & H3 & E3) & (b4 & H4 & E4)).
  destruct (Hm _ H1) as [M1 _], (Hm _ H2) as [M2 _],
    (Hm _ H3) as [_ M3], (Hm _ H4) as [_ M4].
  destruct (Hin _ H1) as [Hx Hy].
  unfold well_formed. rewrite <- E1, <- E2, <- E3, <- E4.
  repeat split; try apply M1; try apply M2; try apply M3; try apply M4; lia.
Qed.

Lemma small_tick_moderate (tick : Tick.t) : small_tick tick → moderate_tick tick.
Proof.
  intros H bot Hbot. destruct (H bot Hbot) as [Hx Hy]. unfold moderate. lia.
Qed.

(** The box of a transformer that the draw loop has built. *)
Lemma built_box (S : Z) (p : PointTransformer.t) :
  built_for S p →
  let cb := PointTransformer.Bounds p in
  - 2 ^ 61 - 240 <= image.X (image.Min cb) ∧ image.X (image.Max cb) <= 2 ^ 61 + 240 ∧
  - 2 ^ 61 - 240 <= image.Y (image.Min cb) ∧ image.Y (image.Max cb) <= 2 ^ 61 + 240 ∧
  240 <= image.X (image.Max cb) - image.X (image.Min cb) ∧
  240 <= image.Y (image.Max cb) - image.Y (image.Min cb).
Proof.
  intros (b & (HminX & HminY & HmaxX & HmaxY) & [HwfX HwfY] & ->).
  unfold moderate in *. destruct b as [[minX minY] [maxX maxY]]. simpl in *.
  change Padding with 120. unfold NewPointTransformer, padded. simpl.
  unwrap. gtb_cases; simpl; unwrap; lia.
Qed.

(** The first test of the loop body is the margin test on the four
    sides. *)
Lemma overflows_spec (pt : PointTransformer.t) (tb : image.Rectangle) :
  moderate_box tb →
  let cb := PointTransformer.Bounds pt in
  overflows pt tb = true ↔
  image.Y (image.Min tb) - BotSize < image.Y (image.Min cb) ∨
  image.X (image.Min tb) - BotSize < image.X (image.Min cb) ∨
  image.Y (image.Max tb) + BotSize > image.Y (image.Max cb) ∨
  image.X (image.Max tb) + BotSize > image.X (image.Max cb).
Proof.
  intros (M1 & M2 & M3 & M4). unfold moderate in *. cbv zeta.
  unfold overflows, BotSize. unwrap.
  rewrite !orb_true_iff, !Z.gtb_ltb, !Z.ltb_lt. lia.
Qed.

(** The second test is the comparison of the two truncated quotients with
    [ShrinkPercent], as long as no product leaves [int]. *)
Lemma shrinks_spec (S : Z) (pt : PointTransformer.t) (tb : image.Rectangle) :
  built_for S pt →
  - 2 ^ 55 <= image.X (image.Min tb) <= 2 ^ 55 →
  - 2 ^ 55 <= image.Y (image.Min tb) <= 2 ^ 55 →
  - 2 ^ 55 <= image.X (image.Max tb) <= 2 ^ 55 →
  - 2 ^ 55 <= image.Y (image.Max tb) <= 2 ^ 55 →
  well_formed tb →
  let cb := PointTransformer.Bounds pt in
  shrinks pt tb = Some true ↔
  Z.quot ((image.Y (image.Max tb) - image.Y (image.Min tb)) * 100)
         (image.Y (image.Max cb) - image.Y (image.Min cb)) <= ShrinkPercent ∧
  Z.quot ((image.X (image.Max tb) - image.X (image.Min tb)) * 100)
         (image.X (image.Max cb) - image.X (image.Min cb)) <= ShrinkPercent.
Proof.
  intros Hb M1 M2 M3 M4 [W1 W2]. apply built_box in Hb. cbv zeta in *.
  destruct Hb as (B1 & B2 & B3 & B4 & B5 & B6).
  unfold shrinks, ShrinkPercent. unwrap.
  rewrite !quo_Some by lia.
  set (qy := Z.quot ((image.Y (image.Max tb) - image.Y (image.Min tb)) * 100)
               (image.Y (image.Max (PointTransformer.Bounds pt))
                - image.Y (image.Min (PointTransformer.Bounds pt)))).
  set (qx := Z.quot ((image.X (image.Max tb) - image.X (image.Min tb)) * 100)
               (image.X (image.Max (PointTransformer.Bounds pt))
                - image.X (image.Min (PointTransformer.Bounds pt)))).
  assert (Qy : 0 <= qy < 2 ^ 63).
  { split; [apply Z.quot_pos; lia |]. apply Z.quot_lt_upper_bound; [lia | lia | nia]. }
  assert (Qx : 0 <= qx < 2 ^ 63).
  { split; [apply Z.quot_pos; lia |]. apply Z.quot_lt_upper_bound; [lia | lia | nia]. }
  rewrite !wrap_small by in_range_lia.
  destruct (Z.leb_spec qy 75) as [Hy | Hy].
  - destruct (Z.leb_spec qx 75) as [Hx | Hx].
    + split; auto.
    + split; [discriminate | lia].
  - split; [discriminate | lia].
Qed.

(** C3, as the code has it. With valid flags and an image that can be
    allocated, every non-empty sequence of drawable ticks is drawn to the
    end. In every run that completes its draw loop over ticks whose
    coordinates lie within [2 ^ 55], so that no side times 100 leaves
    [int], the transformer that draws the first tick is the one built
    from that tick's own bounds; and for every later tick a call of
    [NewPointTransformer] on the tick's raw bounds is executed exactly
    when the bounds, widened by [BotSize], leave the box of the carried
    transformer below its [Min.Y], below its [Min.X], above its [Max.Y]
    or above its [Max.X], or both truncated quotients
    [thisYSize * 100 / ptYSize] and [thisXSize * 100 / ptXSize] are at
    most [ShrinkPercent]. The tick is then drawn with the new
    transformer, and with the carried one otherwise. *)
Theorem rebuild_exactly_on_first_overflow_or_shrink
    (fl : Flags) (ticks : list Tick.t) :
  (1 <= threads fl < GoInt.MaxInt → 1 <= ticksPerSecond fl <= 100 →
   1 <= imageSize fl → 4 * imageSize fl * imageSize fl <= maxAlloc →
   ticks ≠ [] → Forall drawable ticks →
   ∃ st, drawAll fl ticks = Ok st) ∧
  ∀ st, drawAll fl ticks = Ok st → Forall small_tick ticks →
    length (used st) = length ticks ∧
    ∀ (i : nat) (tick : Tick.t) (p : PointTransformer.t) (rebuilt : bool),
      ticks !! i = Some tick → used st !! i = Some (p, rebuilt) →
      ∃ tb,
        Tick.Bounds tick = Some tb ∧
        let fresh := NewPointTransformer tb Padding (imageSize fl) in
        match i with
        | O => p = fresh
        | S j =>
            ∃ carried r, used st !! j = Some (carried, r) ∧
              let cb := PointTransformer.Bounds carried in
              let overflow :=
                image.Y (image.Min tb) - BotSize < image.Y (image.Min cb) ∨
                image.X (image.Min tb) - BotSize < image.X (image.Min cb) ∨
                image.Y (image.Max tb) + BotSize > image.Y (image.Max cb) ∨
                image.X (image.Max tb) + BotSize > image.X (image.Max cb) in
              let shrink :=
                Z.quot ((image.Y (image.Max tb) - image.Y (image.Min tb)) * 100)
                       (image.Y (image.Max cb) - image.Y (image.Min cb))
                <= ShrinkPercent ∧
                Z.quot ((image.X (image.Max tb) - image.X (image.Min tb)) * 100)
                       (image.X (image.Max cb) - image.X (image.Min cb))
                <= ShrinkPercent in
              (rebuilt = true ↔ overflow ∨ shrink) ∧
              p = if rebuilt then fresh else carried
        end.
Proof.
  split; [apply drawAll_total |].
  intros st H Hsmall.
  apply drawAll_refits in H as (tick0 & bounds0 & H0 & Hb0 & Hrefits).
  split; [eapply refits_length, Hrefits |].
  intros i tick p rebuilt Hi Hp.
  destruct (refits_lookup _ _ _ _ _ _ _ _ Hrefits Hi Hp)
    as (tb & carried & Hb & Hr & Hc).
  exists tb. split; [exact Hb |]. cbv zeta.
  assert (Hm : Forall moderate_tick ticks)
    by (eapply Forall_impl; [exact Hsmall | exact small_tick_moderate]).
  destruct (moderate_Bounds _ _ (proj1 (Forall_lookup _ _) Hm _ _ H0) Hb0)
    as [Hm0 Hwf0].
  destruct (small_Bounds _ _ (proj1 (Forall_lookup _ _) Hsmall _ _ Hi) Hb)
    as [(S1 & S2 & S3 & S4) Hwf].
  destruct (moderate_Bounds _ _ (proj1 (Forall_lookup _ _) Hm _ _ Hi) Hb)
    as [Hmtb _].
  apply refit_decision in Hr as [Hiff Hp'].
  destruct i as [|j].
  - assert (tick = tick0) by congruence. subst tick carried.
    assert (tb = bounds0) by congruence. subst tb.
    rewrite Hp'. destruct rebuilt; reflexivity.
  - destruct Hc as [r Hj]. exists carried, r. split; [exact Hj |].
    split; [| exact Hp'].
    destruct (lookup_lt_is_Some_2 ticks j) as [tickj Htickj];
      [apply lookup_lt_Some in Hi; lia |].
    destruct (refits_built _ _ Hm _ _
                (ex_intro _ bounds0 (conj Hm0 (conj Hwf0 eq_refl)))
                Hrefits _ _ _ _ Htickj Hj) as [Hbuilt _].
    rewrite Hiff.
    rewrite (overflows_spec carried tb Hmtb).
    rewrite (shrinks_spec (imageSize fl) carried tb Hbuilt S1 S2 S3 S4 Hwf).
    reflexivity.
Qed.

(** C3 as stated fails: the shrink test multiplies before it divides, and
    the product [thisYSize * 100] can leave [int]. After a tick with bots
    at (0, 0) and (0, 2^60), a tick with bots at (0, 10) and (0, 2^60 - 10)
    stays within the margins and fills 99 percent of the height of the
    carried box, yet the wrapped product gives a quotient below 75 and
    the transformer is rebuilt. *)
Lemma rebuild_without_overflow_or_shrink :
  let carried :=
    NewPointTransformer
      (image.mkRect (image.mkPoint 0 0) (image.mkPoint 0 (2 ^ 60))) Padding 600 in
  let tb := image.mkRect (image.mkPoint 0 10) (image.mkPoint 0 (2 ^ 60 - 10)) in
  let cb := PointTransformer.Bounds carried in
  moderate_box tb ∧
  ¬ (image.Y (image.Min tb) - BotSize < image.Y (image.Min cb) ∨
     image.X (image.Min tb) - BotSize < image.X (image.Min cb) ∨
     image.Y (image.Max tb) + BotSize > image.Y (image.Max cb) ∨
     image.X (image.Max tb) + BotSize > image.X (image.Max cb)) ∧
  Z.quot ((image.Y (image.Max tb) - image.Y (image.Min tb)) * 100)
         (image.Y (image.Max cb) - image.Y (image.Min cb)) = 99 ∧
  refit 600 carried tb = Some (NewPointTransformer tb Padding 600, true).
Proof.
  cbv zeta. split; [unfold moderate_box, moderate; simpl; lia |].
  split; [vm_compute; intros [H | [H | [H | H]]]; discriminate H |].
  split; vm_compute; reflexivity.
Qed.

Lemma sample_ticks_small : Forall small_tick sample_ticks.
Proof.
  constructor; [| constructor; [| constructor; [| constructor]]];
    intros bot Hin; simpl in Hin;
    repeat (apply elem_of_cons in Hin as [-> | Hin]);
    try (inversion Hin; fail); simpl; lia.
Qed.

Lemma rebuild_exactly_on_first_overflow_or_shrink_witness :
  ∃ st, drawAll sample_flags sample_ticks = Ok st ∧
    length (used st) = length sample_ticks ∧
    ∀ (i : nat) (tick : Tick.t) (p : PointTransformer.t) (rebuilt : bool),
      sample_ticks !! i = Some tick → used st !! i = Some (p, rebuilt) →
      ∃ tb,
        Tick.Bounds tick = Some tb ∧
        let fresh := NewPointTransformer tb Padding (imageSize sample_flags) in
        match i with
        | O => p = fresh
        | S j =>
            ∃ carried r, used st !! j = Some (carried, r) ∧
              let cb := PointTransformer.Bounds carried in
              let overflow :=
                image.Y (image.Min tb) - BotSize < image.Y (image.Min cb) ∨
                image.X (image.Min tb) - BotSize < image.X (image.Min cb) ∨
                image.Y (image.Max tb) + BotSize > image.Y (image.Max cb) ∨
                image.X (image.Max tb) + BotSize > image.X (image.Max cb) in
              let shrink :=
                Z.quot ((image.Y (image.Max tb) - image.Y (image.Min tb)) * 100)
                       (image.Y (image.Max cb) - image.Y (image.Min cb))
                <= ShrinkPercent ∧
                Z.quot ((image.X (image.Max tb) - image.X (image.Min tb)) * 100)
                       (image.X (image.Max cb) - image.X (image.Min cb))
                <= ShrinkPercent in
              (rebuilt = true ↔ overflow ∨ shrink) ∧
              p = if rebuilt then fresh else carried
        end.
Proof.
  destruct (rebuild_exactly_on_first_overflow_or_shrink sample_flags sample_ticks)
    as [Htotal Hpolicy].
  destruct Htotal as [st Hst].
  - unfold GoInt.MaxInt. simpl. lia.
  - simpl. lia.
  - simpl. lia.
  - unfold maxAlloc. simpl. lia.
  - discriminate.
  - exact sample_ticks_drawable.
  - exists st. split; [exact Hst | exact (Hpolicy st Hst sample_ticks_small)].
Defined.

(** X9. Every bot keeps a margin of [BotSize] inside the image: in a run
    that completes its draw loop over ticks of moderate coordinates, the
    transformer that draws tick [i] maps the position of every bot of
    that tick, living or destroyed, and every point up to [BotSize] away
    from it on either axis, into [[0, imageSize]] on both axes (exact
    arithmetic). Nothing is said of what is drawn further than [BotSize]
    from a position: the disc of an explosion has the radius
    [2 * BotSize] and can reach beyond the edge. *)
Theorem bot_positions_keep_a_margin_of_BotSize
    (fl : Flags) (ticks : list Tick.t) (st : Loop) :
  drawAll fl ticks = Ok st → Forall moderate_tick ticks →
  ∀ (i : nat) (tick : Tick.t) (p : PointTransformer.t) (rebuilt : bool)
    (bot : Bot.t) (dx dy : Z),
    ticks !! i = Some tick → used st !! i = Some (p, rebuilt) →
    bot ∈ Tick.Bots tick →
    - BotSize <= dx <= BotSize → - BotSize <= dy <= BotSize →
    F.between 0 (inject_Z (imageSize fl)) (PointTransformer.X p (Bot.X bot + dx)) ∧
    F.between 0 (inject_Z (imageSize fl)) (PointTransformer.Y p (Bot.Y bot + dy)).
Proof.
  intros Hrun Hm i tick p rebuilt bot dx dy Hi Hp Hbot Hdx Hdy.
  pose proof (drawAll_Ok _ _ _ Hrun) as (_ & _ & HS & _).
  apply drawAll_refits in Hrun as (tick0 & bounds0 & H0 & Hb0 & Hrefits).
  destruct (moderate_Bounds _ _ (proj1 (Forall_lookup _ _) Hm _ _ H0) Hb0)
    as [Hm0 Hwf0].
  destruct (refits_built _ _ Hm _ _ (ex_intro _ bounds0 (conj Hm0 (conj Hwf0 eq_refl)))
              Hrefits _ _ _ _ Hi Hp) as [(b & Hbm & Hbw & ->) (tb & Htb & Ho)].
  pose proof (proj1 (Forall_lookup _ _) Hm _ _ Hi) as Hmt.
  destruct (moderate_Bounds _ _ Hmt Htb) as [(M1 & M2 & M3 & M4) _].
  apply Bounds_Some_tight in Htb as (Hin & _).
  destruct (Hin _ Hbot) as [Hx Hy]. destruct (Hmt _ Hbot) as [Mx My].
  unfold overflows, BotSize in *. unfold moderate in *.
  rewrite !orb_false_iff, !Z.gtb_ltb, !Z.ltb_ge in Ho.
  destruct Ho as (((O1 & O2) & O3) & O4). unwrap.
  apply inside_on_canvas; try assumption; lia.
Qed.

Lemma bot_positions_keep_a_margin_of_BotSize_witness :
  ∃ st, drawAll sample_flags sample_ticks = Ok st ∧
    ∀ (i : nat) (tick : Tick.t) (p : PointTransformer.t) (rebuilt : bool)
      (bot : Bot.t) (dx dy : Z),
      sample_ticks !! i = Some tick → used st !! i = Some (p, rebuilt) →
      bot ∈ Tick.Bots tick →
      - BotSize <= dx <= BotSize → - BotSize <= dy <= BotSize →
      F.between 0 (inject_Z (imageSize sample_flags))
                (PointTransformer.X p (Bot.X bot + dx)) ∧
      F.between 0 (inject_Z (imageSize sample_flags))
                (PointTransformer.Y p (Bot.Y bot + dy)).
Proof.
  destruct sample_drawAll as [st Hst]. exists st. split; [exact Hst |].
  exact (bot_positions_keep_a_margin_of_BotSize sample_flags sample_ticks st Hst
           sample_ticks_moderate).
Defined.

(** The margin is [BotSize] and no more. A destroyed bot at (1060, 0), in a
    tick that keeps the transformer of a first tick with bots at (0, 0)
    and (1000, 0), is within the margin of the box, which ends at 1120;
    the disc of its explosion, of radius [2 * BotSize], reaches the
    abscissa 629 of an image of 600 pixels. *)
Example explosion_can_leave_the_canvas :
  let dead := Bot.mk 2 1 1060 0 0 0 0 false 0 0 0%N false 0 0 0 in
  let ticks := [Tick.mk 0 [circle_bot 0 0; hexagon_bot 1000 0];
                Tick.mk 1 [circle_bot 0 0; dead]] in
  let p :=
    NewPointTransformer
      (image.mkRect (image.mkPoint 0 0) (image.mkPoint 1000 0)) Padding 600 in
  (λ st, used st !! 1%nat) <$>
    (match drawAll sample_flags ticks with Ok st => Some st | _ => None end)
  = Some (Some (p, false)) ∧
  circleAt (PointTransformer.X p 1060) (PointTransformer.Y p 0)
           (PointTransformer.Resize p (BotSize [*] 2))
  ∈ explosions p [circle_bot 0 0; dead] ∧
  ∃ x r, PointTransformer.X p 1060 = F.Fin x ∧
         PointTransformer.Resize p (BotSize [*] 2) = F.Fin r ∧
         (inject_Z 629 < x + r)%Q.
Proof.
  cbv zeta. split; [vm_compute; reflexivity |]. split.
  - simpl. do 2 apply list_elem_of_further. apply list_elem_of_here.
  - do 2 eexists. split; [reflexivity |]. split; [reflexivity |].
    vm_compute. reflexivity.
Qed.

(** ** What [main] accepts, and what it hands over *)

Lemma bodies_Ok_supported (pt : PointTransformer.t) (bots : list Bot.t)
    (ops : list GcOp) :
  bodies pt bots = Ok ops →
  ∀ bot, bot ∈ bots → 0 < Bot.Health bot → Bot.PID bot = 1 ∨ Bot.PID bot = 2.
Proof.
  intros H bot Hin Hh.
  destruct (Z.eq_dec (Bot.PID bot) 1) as [E1 | N1]; [left; exact E1 |].
  destruct (Z.eq_dec (Bot.PID bot) 2) as [E2 | N2]; [right; exact E2 |].
  rewrite (bodies_unsupported pt bots bot Hin Hh N1 N2) in H. discriminate H.
Qed.

Lemma draw_loop_supported (fl : Flags) (ticks : list Tick.t) :
  ∀ i st st', draw_loop fl i ticks st = Ok st' → Forall supported ticks.
Proof.
  induction ticks as [|t rest IH]; intros i st st' H; [constructor |].
  simpl in H. ok_steps H. destruct a0 as [p rebuilt]. ok_steps H.
  destruct a2 as [dr cv]. constructor; [| eapply IH, H].
  split.
  - unfold Tick.Bounds in Ha. destruct (Tick.Bots t); [discriminate | discriminate].
  - unfold drawTick in Ha1. ok_steps Ha1. eapply bodies_Ok_supported; eassumption.
Qed.

(** X10. What [main] accepts, as long as memory lasts: with fewer than
    [MaxInt] threads, a size within [int] and ticks of moderate
    coordinates, a run reaches the encoder exactly when the three flags
    are valid ([threads >= 1], [1 <= speed <= 100], [size >= 1]), the
    pixel buffer of a frame is accepted by [image.NewRGBA] and by [make]
    ([4 * size * size] within [maxAlloc]), there is at least one tick,
    every tick has at least one bot and every living bot belongs to
    player 1 or 2. *)
Theorem main_accepts_exactly (fl : Flags) (ticks : list Tick.t) :
  threads fl < GoInt.MaxInt → imageSize fl <= GoInt.MaxInt →
  Forall moderate_tick ticks →
  (∃ gif, main fl ticks = Ok gif) ↔
  1 <= threads fl ∧ 1 <= ticksPerSecond fl <= 100 ∧ 1 <= imageSize fl ∧
  4 * imageSize fl * imageSize fl <= maxAlloc ∧
  ticks ≠ [] ∧ Forall supported ticks.
Proof.
  intros Ht Hsz Hm. split.
  - intros [gif H]. unfold main in H. ok_steps H.
    apply drawAll_Ok in Ha as (H1 & H2 & H3 & t0 & b0 & Hl & _ & Hloop).
    repeat (split; [assumption |]). split; [| split].
    + destruct (draw_loop_draws _ _ _ _ _ Hloop t0) as (p & img & Himg);
        [eapply list_elem_of_lookup_2, Hl |].
      unfold drawTick in Himg. apply bind_Ok in Himg as (r & Hr & _).
      apply (NewRGBA_Ok_inv _ r); [lia | exact Hr].
    + intros ->. discriminate Hl.
    + eapply draw_loop_supported, Hloop.
  - intros (H1 & H2 & H3 & Ha & Hne & Hs).
    apply main_total; [lia | assumption | assumption | assumption | assumption |].
    apply Forall_forall. intros tick Hin.
    destruct (proj1 (Forall_forall _ _) Hs tick Hin) as [Hb Hp].
    pose proof (proj1 (Forall_forall _ _) Hm tick Hin) as Hmt.
    split; [exact Hb |]. intros bot Hbot. destruct (Hmt bot Hbot) as [Mx My].
    split; [exact Mx |]. split; [exact My |]. apply Hp, Hbot.
Qed.

Lemma main_accepts_exactly_witness :
  (∃ gif, main sample_flags sample_ticks = Ok gif) ↔
  1 <= threads sample_flags ∧ 1 <= ticksPerSecond sample_flags <= 100 ∧
  1 <= imageSize sample_flags ∧
  4 * imageSize sample_flags * imageSize sample_flags <= maxAlloc ∧
  sample_ticks ≠ [] ∧ Forall supported sample_ticks.
Proof.
  apply main_accepts_exactly;
    [unfold GoInt.MaxInt; simpl; lia | unfold GoInt.MaxInt; simpl; lia
    | exact sample_ticks_moderate].
Defined.

(** X11. The delays handed to the encoder: in a run that reaches it, every
    delay lies between 1 and 1000 hundredths of a second, and with two
    ticks or more the table is [1], then [100 / speed] for every tick
    between the first and the last, then ten times [100 / speed]. *)
Theorem delay_table (fl : Flags) (ticks : list Tick.t) (gif : GIF) :
  main fl ticks = Ok gif →
  let q := Z.quot 100 (ticksPerSecond fl) in
  Forall (λ d, 1 <= d <= 1000) (Delay gif) ∧
  ((2 ≤ length ticks)%nat →
   Delay gif = 1 :: replicate (length ticks - 2) q ++ [q * 10]).
Proof.
  intros H. apply main_delays in H as [Hv H]. cbv zeta.
  destruct (per_tick_delay _ Hv) as [_ Hq].
  destruct (length ticks) as [|[|k]]; [contradiction | |]; rewrite H.
  - split; [| simpl; lia]. repeat constructor; lia.
  - split.
    + constructor; [lia |]. apply Forall_app. split.
      * apply Forall_replicate. lia.
      * repeat constructor; lia.
    + intros _. simpl. rewrite Nat.sub_0_r. reflexivity.
Qed.

Lemma delay_table_witness :
  ∃ gif, main sample_flags sample_ticks = Ok gif ∧
         Forall (λ d, 1 <= d <= 1000) (Delay gif) ∧ Delay gif = [1; 8; 80].
Proof.
  destruct sample_main as [gif Hgif]. exists gif. split; [exact Hgif |].
  pose proof (delay_table sample_flags sample_ticks gif Hgif) as H.
  cbv zeta in H. destruct H as [Hall Htable].
  split; [exact Hall |]. apply Htable. simpl. lia.
Defined.

Lemma convert_slot_drawn (i : nat) (img : Frame) (dr dr' : list (option Frame))
    (cv cv' : list (option Paletted)) :
  convert_slot i (<[i := Some img]> dr) cv = Some (dr', cv') →
  (i < length dr)%nat ∧ dr' = <[i := None]> dr.
Proof.
  intros H. apply convert_slot_Some in H as (Hlt & -> & _).
  split; [exact Hlt |]. apply list_insert_insert_eq.
Qed.

Lemma draw_loop_drawn (fl : Flags) (ticks : list Tick.t) :
  ∀ i st st', draw_loop fl i ticks st = Ok st' →
    length (drawn st') = length (drawn st) ∧
    ∀ j, drawn st' !! j =
         if decide (i ≤ j < i + length ticks)%nat then Some None
         else drawn st !! j.
Proof.
  induction ticks as [|tick rest IH]; intros i st st' H; simpl in H.
  - injection H as <-. split; [reflexivity |]. intros j.
    case_decide; [simpl in *; lia | reflexivity].
  - ok_steps H. destruct a0 as [p rebuilt]. ok_steps H. destruct a2 as [dr cv].
    apply convert_slot_drawn in Ha3 as [Hlt ->].
    apply IH in H as [Hlen Hlook]. simpl in *. rewrite length_insert in Hlen.
    split; [exact Hlen |]. intros j. rewrite Hlook.
    destruct (decide (j = i)) as [-> | Hne].
    + repeat case_decide; try lia. apply list_lookup_insert_eq. exact Hlt.
    + rewrite list_lookup_insert_ne by auto. repeat case_decide; try lia; reflexivity.
Qed.

(** X12. One frame and one delay for every tick: in a run that reaches the
    encoder, [Image] and [Delay] have as many entries as there are ticks,
    no entry of [Image] is nil, and every entry of [drawn] is nil again:
    each RGBA frame has been released after its conversion. *)
Theorem one_frame_and_one_delay_per_tick
    (fl : Flags) (ticks : list Tick.t) (gif : GIF) :
  main fl ticks = Ok gif →
  length (Image gif) = length ticks ∧
  length (Delay gif) = length ticks ∧
  (∀ i, (i < length ticks)%nat → ∃ pal, Image gif !! i = Some (Some pal)) ∧
  (∀ st, drawAll fl ticks = Ok st → drawn st = replicate (length ticks) None).
Proof.
  intros H.
  destruct (main_image _ _ _ H) as (frames & HF & Himg).
  pose proof (Forall2_length _ _ _ HF) as Hlen.
  pose proof (main_delays _ _ _ H) as [_ Hd].
  split; [rewrite Himg, length_fmap; lia |]. split.
  - destruct (length ticks) as [|[|k]]; [contradiction | |]; rewrite Hd; simpl;
      [reflexivity |]. rewrite length_app, length_replicate. simpl. lia.
  - split.
    + intros i Hi. rewrite Himg, list_lookup_fmap.
      destruct (lookup_lt_is_Some_2 frames i ltac:(lia)) as [img ->]. simpl. eauto.
    + intros st Hst.
      apply drawAll_Ok in Hst as (_ & _ & _ & t0 & b0 & _ & _ & Hloop).
      apply draw_loop_drawn in Hloop as [Hl Hlook]. simpl in *.
      rewrite length_replicate in Hl.
      apply list_eq. intros j. rewrite Hlook. case_decide as Hj; [| reflexivity].
      symmetry. apply lookup_replicate_2. lia.
Qed.

Lemma one_frame_and_one_delay_per_tick_witness :
  ∃ gif, main sample_flags sample_ticks = Ok gif ∧
         length (Image gif) = 3%nat ∧ length (Delay gif) = 3%nat.
Proof.
  destruct sample_main as [gif Hgif]. exists gif. split; [exact Hgif |].
  destruct (one_frame_and_one_delay_per_tick sample_flags sample_ticks gif Hgif)
    as (H1 & H2 & _).
  split; [exact H1 | exact H2].
Defined.

(** ** Fatal exits and their messages *)

Lemma or_panic_not_Fatal {A : Type} (m msg : string) (o : option A) :
  or_panic m o ≠ Fatal msg.
Proof. destruct o; discriminate. Qed.

Lemma count_up_not_Fatal (lo hi : Z) (msg : string) : count_up lo hi ≠ Fatal msg.
Proof. unfold count_up. destruct (_ && _); discriminate. Qed.

Lemma drawTick_Fatal (pt : PointTransformer.t) (size : Z) (tick : Tick.t)
    (msg : string) :
  drawTick pt size tick = Fatal msg →
  msg = unsupported_player ∧
  ∃ bot, bot ∈ Tick.Bots tick ∧ 0 < Bot.Health bot ∧
         Bot.PID bot ≠ 1 ∧ Bot.PID bot ≠ 2.
Proof.
  unfold drawTick, gridLinesX, gridLinesY. intros H.
  apply bind_Fatal in H as [H | (r & _ & H)];
    [destruct (NewRGBA_not_Fatal _ _ H) |].
  apply bind_Fatal in H as [H | (gx & _ & H)].
  { apply bind_Fatal in H as [H | (xs & _ & H)]; [| discriminate H].
    destruct (count_up_not_Fatal _ _ _ H). }
  apply bind_Fatal in H as [H | (gy & _ & H)].
  { apply bind_Fatal in H as [H | (ys & _ & H)]; [| discriminate H].
    destruct (count_up_not_Fatal _ _ _ H). }
  apply bind_Fatal in H as [H | (bs & _ & H)]; [| discriminate H].
  eapply bodies_Fatal, H.
Qed.

Lemma draw_loop_Fatal (fl : Flags) (ticks : list Tick.t) (msg : string) :
  ∀ i st, draw_loop fl i ticks st = Fatal msg →
    msg = unsupported_player ∧
    ∃ tick bot, tick ∈ ticks ∧ bot ∈ Tick.Bots tick ∧ 0 < Bot.Health bot ∧
                Bot.PID bot ≠ 1 ∧ Bot.PID bot ≠ 2.
Proof.
  induction ticks as [|tick rest IH]; intros i st H; simpl in H; [discriminate |].
  apply bind_Fatal in H as [H | (tb & _ & H)];
    [destruct (or_panic_not_Fatal _ _ _ H) |].
  apply bind_Fatal in H as [H | ([p r] & _ & H)];
    [destruct (or_panic_not_Fatal _ _ _ H) |].
  apply bind_Fatal in H as [H | (img & _ & H)].
  { destruct (drawTick_Fatal _ _ _ _ H) as (-> & bot & Hbot).
    split; [reflexivity |]. exists tick, bot. split; [left | exact Hbot]. }
  apply bind_Fatal in H as [H | (d & _ & H)];
    [destruct (or_panic_not_Fatal _ _ _ H) |].
  apply bind_Fatal in H as [H | ([dr cv] & _ & H)];
    [destruct (or_panic_not_Fatal _ _ _ H) |].
  destruct (IH _ _ H) as (-> & t & bot & Ht & Hbot).
  split; [reflexivity |]. exists t, bot. split; [right; exact Ht | exact Hbot].
Qed.

(** X13. Every [log.Fatal] of the modelled part of [main] names its cause:
    a run that ends in one carries one of four messages, and the message
    tells which check failed. The thread count is checked first, then the
    speed, then the image size; the message about players is only reached
    with valid flags, for a living bot that belongs neither to player 1
    nor to player 2. *)
Theorem fatal_messages_name_their_cause
    (fl : Flags) (ticks : list Tick.t) (msg : string) :
  main fl ticks = Fatal msg →
  (msg = "Threads must be greater than zero."%string ∧ threads fl < 1) ∨
  (msg = "Speed must be between 1 and 100."%string ∧ 1 <= threads fl ∧
   (100 < ticksPerSecond fl ∨ ticksPerSecond fl < 1)) ∨
  (msg = "Image size must be greater than zero."%string ∧ 1 <= threads fl ∧
   1 <= ticksPerSecond fl <= 100 ∧ imageSize fl < 1) ∨
  (msg = unsupported_player ∧ 1 <= threads fl ∧
   1 <= ticksPerSecond fl <= 100 ∧ 1 <= imageSize fl ∧
   ∃ tick bot, tick ∈ ticks ∧ bot ∈ Tick.Bots tick ∧ 0 < Bot.Health bot ∧
               Bot.PID bot ≠ 1 ∧ Bot.PID bot ≠ 2).
Proof.
  unfold main. intros [H | (st & _ & H)]%bind_Fatal.
  - unfold drawAll in H.
    destruct (Z.ltb_spec (threads fl) 1) as [T | T];
      [injection H as <-; left; auto |].
    rewrite Z.gtb_ltb in H.
    destruct (Z.ltb_spec 100 (ticksPerSecond fl)) as [V1 | V1];
      [injection H as <-; right; left; auto |].
    destruct (Z.ltb_spec (ticksPerSecond fl) 1) as [V2 | V2];
      [injection H as <-; right; left; auto |].
    destruct (Z.ltb_spec (imageSize fl) 1) as [Sz | Sz];
      [injection H as <-; right; right; left; repeat split; auto |].
    simpl in H.
    apply bind_Fatal in H as [H | (xs & _ & H)];
      [destruct (count_up_not_Fatal _ _ _ H) |].
    apply bind_Fatal in H as [H | (t0 & _ & H)];
      [destruct (or_panic_not_Fatal _ _ _ H) |].
    apply bind_Fatal in H as [H | (b0 & _ & H)];
      [destruct (or_panic_not_Fatal _ _ _ H) |].
    destruct (draw_loop_Fatal _ _ _ _ _ H) as (-> & Hbad).
    right; right; right. repeat split; auto.
  - apply bind_Fatal in H as [H | (d & _ & H)]; [| discriminate H].
    unfold linger in H. destruct (delays st); [discriminate H |].
    apply bind_Fatal in H as [H | (q & _ & H)]; [| discriminate H].
    destruct (or_panic_not_Fatal _ _ _ H).
Qed.

Lemma fatal_messages_name_their_cause_witness :
  let fl := mkFlags "scrappers.json" "scrappers.gif" 12 0 600 in
  let msg := "Threads must be greater than zero."%string in
  main fl sample_ticks = Fatal msg ∧
  ((msg = "Threads must be greater than zero."%string ∧ threads fl < 1) ∨
   (msg = "Speed must be between 1 and 100."%string ∧ 1 <= threads fl ∧
    (100 < ticksPerSecond fl ∨ ticksPerSecond fl < 1)) ∨
   (msg = "Image size must be greater than zero."%string ∧ 1 <= threads fl ∧
    1 <= ticksPerSecond fl <= 100 ∧ imageSize fl < 1) ∨
   (msg = unsupported_player ∧ 1 <= threads fl ∧
    1 <= ticksPerSecond fl <= 100 ∧ 1 <= imageSize fl ∧
    ∃ tick bot, tick ∈ sample_ticks ∧ bot ∈ Tick.Bots tick ∧
                0 < Bot.Health bot ∧ Bot.PID bot ≠ 1 ∧ Bot.PID bot ≠ 2)).
Proof.
  intros fl msg.
  assert (E : main fl sample_ticks = Fatal msg) by reflexivity.
  split; [exact E |].
  exact (fatal_messages_name_their_cause fl sample_ticks msg E).
Defined.

(** ** Panics *)

Lemma bind_Panic {A B : Type} (r : result A) (f : A → result B) (msg : string) :
  r ≫= f = Panic msg → r = Panic msg ∨ ∃ a, r = Ok a ∧ f a = Panic msg.
Proof.
  destruct r as [a | m | m |]; simpl; intros H; try discriminate H.
  - right. exists a. split; [reflexivity | exact H].
  - left. congruence.
Qed.

Lemma or_panic_Panic {A : Type} (m msg : string) (o : option A) :
  or_panic m o = Panic msg → msg = m ∧ o = None.
Proof. destruct o; simpl; [discriminate |]. intros [= <-]. auto. Qed.

Lemma count_up_not_Panic (lo hi : Z) (msg : string) : count_up lo hi ≠ Panic msg.
Proof. unfold count_up. destruct (_ && _); discriminate. Qed.

Lemma bodies_not_Panic (pt : PointTransformer.t) (bots : list Bot.t) (msg : string) :
  bodies pt bots ≠ Panic msg.
Proof.
  induction bots as [|bot rest IH]; simpl; [discriminate |].
  destruct (Bot.Health bot <=? 0); [exact IH |].
  destruct (Bot.PID bot =? 1); [| destruct (Bot.PID bot =? 2)]; simpl;
    try discriminate;
    destruct (bodies pt rest); simpl; try discriminate; exact IH.
Qed.

(** The only panic of a frame is the one of its allocation. *)
Lemma drawTick_Panic (pt : PointTransformer.t) (size : Z) (tick : Tick.t)
    (msg : string) :
  drawTick pt size tick = Panic msg →
  NewRGBA (Rect 0 0 size size) = Panic msg.
Proof.
  unfold drawTick, gridLinesX, gridLinesY. intros H.
  apply bind_Panic in H as [H | (r & _ & H)]; [exact H | exfalso].
  apply bind_Panic in H as [H | (gx & _ & H)].
  { apply bind_Panic in H as [H | (xs & _ & H)]; [| discriminate H].
    destruct (count_up_not_Panic _ _ _ H). }
  apply bind_Panic in H as [H | (gy & _ & H)].
  { apply bind_Panic in H as [H | (ys & _ & H)]; [| discriminate H].
    destruct (count_up_not_Panic _ _ _ H). }
  apply bind_Panic in H as [H | (bs & _ & H)]; [| discriminate H].
  destruct (bodies_not_Panic _ _ _ H).
Qed.

Lemma Bounds_None (tick : Tick.t) : Tick.Bounds tick = None → Tick.Bots tick = [].
Proof. unfold Tick.Bounds. destruct (Tick.Bots tick); [reflexivity | discriminate]. Qed.

Lemma refit_keeps_sound (S : Z) (c p : PointTransformer.t) (b : image.Rectangle)
    (r : bool) :
  sound c → moderate_box b → well_formed b →
  refit S c b = Some (p, r) → sound p.
Proof.
  intros Hc Hb Hwf [[-> _] | (-> & _)]%refit_cases;
    [apply NewPointTransformer_sound; assumption | exact Hc].
Qed.

Lemma draw_loop_Panic (fl : Flags) (ticks : list Tick.t) (msg : string) :
  1 <= ticksPerSecond fl <= 100 → Forall moderate_tick ticks →
  ∀ i st, sound (pt st) → (i + length ticks ≤ length (drawn st))%nat →
    draw_loop fl i ticks st = Panic msg →
    (msg = "index out of range"%string ∧
     ∃ tick, tick ∈ ticks ∧ Tick.Bots tick = []) ∨
    NewRGBA (Rect 0 0 (imageSize fl) (imageSize fl)) = Panic msg.
Proof.
  intros Hv. induction 1 as [|tick rest Hm _ IH]; intros i st Hs Hi H; simpl in H;
    [discriminate |].
  apply bind_Panic in H as [H | (tb & Htb%or_panic_Ok & H)].
  { apply or_panic_Panic in H as [-> H%Bounds_None]. left.
    split; [reflexivity |]. exists tick. split; [left | exact H]. }
  destruct (moderate_Bounds _ _ Hm Htb) as [Hb Hwf].
  apply bind_Panic in H as [H | ([p r] & Hr%or_panic_Ok & H)].
  { apply or_panic_Panic in H as [_ H].
    destruct (refit_sound (imageSize fl) (pt st) tb Hs Hb Hwf) as (p & r & E & _).
    congruence. }
  apply bind_Panic in H as [H | (img & _ & H)];
    [right; eapply drawTick_Panic, H |].
  apply bind_Panic in H as [H | (d & _ & H)].
  { apply or_panic_Panic in H as [_ H].
    destruct (per_tick_delay _ Hv) as [E _]. congruence. }
  apply bind_Panic in H as [H | ([dr cv] & Hc%or_panic_Ok & H)].
  { apply or_panic_Panic in H as [_ H]. unfold convert_slot in H. simpl in Hi.
    rewrite list_lookup_insert_eq in H by lia. discriminate H. }
  apply convert_slot_drawn in Hc as [_ ->].
  apply IH in H;
    [| simpl; eapply refit_keeps_sound; eassumption
     | simpl; rewrite length_insert; simpl in Hi; lia].
  destruct H as [(-> & t & Ht & Hempty) | H]; [left | right; exact H].
  split; [reflexivity |]. exists t. split; [right; exact Ht | exact Hempty].
Qed.

(** X14. Every panic of the modelled part of [main] names its cause: over
    ticks of moderate coordinates and with a size within [int], a run
    that panics does so with one of three messages. "index out of range"
    is the panic of an empty input: there is no tick at all, or some tick
    has no bot. The two others are the panics of the allocation of a
    frame: the one of [image.NewRGBA] when [4 * size * size] leaves
    [int], and the one of [make] when it is within [int] and beyond
    [maxAlloc]. With the flags that [main] accepts there is no division
    by zero, and [convert] never reads a nil frame. *)
Theorem panics_name_their_cause
    (fl : Flags) (ticks : list Tick.t) (msg : string) :
  imageSize fl <= GoInt.MaxInt → Forall moderate_tick ticks →
  main fl ticks = Panic msg →
  (msg = "index out of range"%string ∧
   (ticks = [] ∨ ∃ tick, tick ∈ ticks ∧ Tick.Bots tick = [])) ∨
  (msg = "image: NewRGBA Rectangle has huge or negative dimensions"%string ∧
   GoInt.MaxInt < 4 * imageSize fl * imageSize fl) ∨
  (msg = "makeslice: len out of range"%string ∧
   maxAlloc < 4 * imageSize fl * imageSize fl <= GoInt.MaxInt).
Proof.
  intros Hsz Hm. unfold main. intros [H | (st & Hst & H)]%bind_Panic.
  - unfold drawAll in H.
    destruct (Z.ltb_spec (threads fl) 1) as [T | T]; [discriminate H |].
    rewrite Z.gtb_ltb in H.
    destruct (Z.ltb_spec 100 (ticksPerSecond fl)) as [V1 | V1]; [discriminate H |].
    destruct (Z.ltb_spec (ticksPerSecond fl) 1) as [V2 | V2]; [discriminate H |].
    destruct (Z.ltb_spec (imageSize fl) 1) as [Sz | Sz]; [discriminate H |].
    simpl in H.
    apply bind_Panic in H as [H | (xs & _ & H)];
      [destruct (count_up_not_Panic _ _ _ H) |].
    apply bind_Panic in H as [H | (t0 & H0%or_panic_Ok & H)].
    { apply or_panic_Panic in H as [-> H]. left. split; [reflexivity |]. left.
      destruct ticks; [reflexivity | discriminate H]. }
    apply bind_Panic in H as [H | (b0 & Hb0%or_panic_Ok & H)].
    { apply or_panic_Panic in H as [-> H%Bounds_None]. left. split; [reflexivity |].
      right. exists t0. split; [eapply list_elem_of_lookup_2, H0 | exact H]. }
    destruct (moderate_Bounds _ _ (proj1 (Forall_lookup _ _) Hm _ _ H0) Hb0)
      as [Hb Hwf].
    apply draw_loop_Panic in H;
      [| lia | exact Hm | simpl; apply NewPointTransformer_sound; assumption
       | simpl; rewrite length_replicate; lia].
    destruct H as [[-> Hex] | H].
    + left. split; [reflexivity |]. right. exact Hex.
    + right. apply NewRGBA_Panic; [lia | exact H].
  - exfalso. apply bind_Panic in H as [H | (d & _ & H)]; [| discriminate H].
    pose proof (drawAll_delays _ _ _ Hst) as [Hv Hd].
    apply drawAll_Ok in Hst as (_ & _ & _ & t0 & _ & H0 & _).
    unfold linger in H. rewrite Hd in H.
    destruct ticks as [|t ts]; [discriminate H0 |]. simpl in H.
    destruct (per_tick_delay _ Hv) as [E _]. rewrite E in H. discriminate H.
Qed.

Lemma panics_name_their_cause_witness :
  let fl := mkFlags "scrappers.json" "scrappers.gif" 12 8 4000000000 in
  main fl sample_ticks
  = Panic "image: NewRGBA Rectangle has huge or negative dimensions" ∧
  GoInt.MaxInt < 4 * imageSize fl * imageSize fl.
Proof.
  intros fl.
  assert (E : main fl sample_ticks
              = Panic "image: NewRGBA Rectangle has huge or negative dimensions")
    by (vm_compute; reflexivity).
  assert (Hsz : imageSize fl <= GoInt.MaxInt) by (unfold GoInt.MaxInt; simpl; lia).
  split; [exact E |].
  destruct (panics_name_their_cause fl sample_ticks _ Hsz sample_ticks_moderate E)
    as [[H _] | [[_ H] | [H _]]]; [discriminate H | exact H | discriminate H].
Defined.

(** A run over a tick without bots ends in the index panic of
    [Tick.Bounds]. *)
Example tick_without_bots_panics :
  main sample_flags [Tick.mk 0 [circle_bot 0 0]; Tick.mk 1 []]
  = Panic "index out of range".
Proof. vm_compute. reflexivity. Qed.

(** ** More on the frame renderer *)

Lemma explosions_skip_living (pt : PointTransformer.t) (bots : list Bot.t) :
  explosions pt bots = explosions pt (filter (λ bot, Bot.Health bot <= 0) bots).
Proof.
  unfold explosions. f_equal.
  induction bots as [|bot rest IH]; [reflexivity |].
  rewrite filter_cons. simpl. destruct (Z.leb_spec (Bot.Health bot) 0) as [Hd | Hl].
  - rewrite decide_True by lia. simpl.
    destruct (Z.leb_spec (Bot.Health bot) 0); [| lia]. rewrite IH. reflexivity.
  - rewrite decide_False by lia. exact IH.
Qed.

Lemma explosions_shapes (pt : PointTransformer.t) (bots : list Bot.t) :
  (∀ bot, bot ∈ bots → Bot.Health bot <= 0 →
     circleAt (PointTransformer.X pt (Bot.X bot)) (PointTransformer.Y pt (Bot.Y bot))
              (PointTransformer.Resize pt (BotSize [*] 2))
     ∈ explosions pt bots) ∧
  (∀ x y r, circleAt x y r ∈ explosions pt bots →
     ∃ bot, bot ∈ bots ∧ Bot.Health bot <= 0 ∧
            x = PointTransformer.X pt (Bot.X bot) ∧
            y = PointTransformer.Y pt (Bot.Y bot) ∧
            r = PointTransformer.Resize pt (BotSize [*] 2)).
Proof.
  unfold explosions. induction bots as [|b rest [IH1 IH2]]; simpl.
  - split; [intros bot Hb; inversion Hb |].
    intros x y r [H | H]%elem_of_cons; [discriminate H | inversion H].
  - split.
    + intros bot [-> | Hin]%elem_of_cons Hd; right.
      * destruct (Z.leb_spec (Bot.Health b) 0); [| lia]. simpl. right. left.
      * apply elem_of_app. right.
        specialize (IH1 bot Hin Hd). apply elem_of_cons in IH1 as [E | IH1];
          [discriminate E | exact IH1].
    + intros x y r [H | H]%elem_of_cons; [discriminate H |].
      apply elem_of_app in H as [H | H].
      * destruct (Z.leb_spec (Bot.Health b) 0); [| inversion H].
        repeat (apply elem_of_cons in H as [H | H]); try discriminate H;
          [| inversion H].
        injection H as -> -> ->. exists b. split; [left |]. auto.
      * destruct (IH2 x y r) as (bot & Hin & Hrest); [right; exact H |].
        exists bot. split; [right; exact Hin | exact Hrest].
Qed.

Lemma bodies_shapes (pt : PointTransformer.t) (bots : list Bot.t) :
  ∀ bs, bodies pt bots = Ok bs →
    (∀ bot, bot ∈ bots → 0 < Bot.Health bot →
       (if Bot.PID bot =? 1 then circleAt else hexagonAt)
         (PointTransformer.X pt (Bot.X bot)) (PointTransformer.Y pt (Bot.Y bot))
         (PointTransformer.Resize pt (GoInt.quo_const BotSize 2))
       ∈ bs) ∧
    (∀ x y r, circleAt x y r ∈ bs ∨ hexagonAt x y r ∈ bs →
       ∃ bot, bot ∈ bots ∧ 0 < Bot.Health bot ∧
              x = PointTransformer.X pt (Bot.X bot) ∧
              y = PointTransformer.Y pt (Bot.Y bot)).
Proof.
  induction bots as [|b rest IH]; intros bs H; simpl in H.
  - injection H as <-. split; [intros bot Hb; inversion Hb |].
    intros x y r [H | H]; inversion H.
  - destruct (Z.leb_spec (Bot.Health b) 0) as [Hd | Hl].
    + destruct (IH bs H) as [IH1 IH2]. split.
      * intros bot [-> | Hin]%elem_of_cons Hh; [lia | exact (IH1 bot Hin Hh)].
      * intros x y r Hop. destruct (IH2 x y r Hop) as (bot & Hin & Hrest).
        exists bot. split; [right; exact Hin | exact Hrest].
    + assert (Hshape : ∃ shape others,
                shape = (if Bot.PID b =? 1 then circleAt else hexagonAt) ∧
                (shape = circleAt ∨ shape = hexagonAt) ∧
                bodies pt rest = Ok others ∧
                ∃ setup, (∀ x y r, (circleAt x y r ∉ setup) ∧ (hexagonAt x y r ∉ setup)) ∧
                  bs = setup ++ body pt b shape ++ shield pt b ++ others).
      { destruct (Bot.PID b =? 1).
        - exists circleAt. simpl in H.
          destruct (bodies pt rest) as [others | | |]; try discriminate H.
          injection H as <-. exists others.
          split; [reflexivity |]. split; [left; reflexivity |].
          split; [reflexivity |].
          exists [SetStrokeColor ColorBlack;
                  SetFillColor
                    (color.mk (uint8 (PowerColorWeight [*] Bot.FPow b))
                              (uint8 (PowerColorWeight [*] Bot.MPow b))
                              (uint8 (PowerColorWeight [*] Bot.SPow b)) 255);
                  SetLineWidth (F.of_int 1)].
          split; [| reflexivity].
          intros x y r. split; intros Hin;
            repeat (apply elem_of_cons in Hin as [Hin | Hin]); try discriminate Hin;
            inversion Hin.
        - destruct (Bot.PID b =? 2); [| discriminate H].
          exists hexagonAt. simpl in H.
          destruct (bodies pt rest) as [others | | |]; try discriminate H.
          injection H as <-. exists others.
          split; [reflexivity |]. split; [right; reflexivity |].
          split; [reflexivity |].
          exists [SetStrokeColor ColorBlack;
                  SetFillColor
                    (color.mk (uint8 (PowerColorWeight [*] Bot.FPow b))
                              (uint8 (PowerColorWeight [*] Bot.MPow b))
                              (uint8 (PowerColorWeight [*] Bot.SPow b)) 255);
                  SetLineWidth (F.of_int 1)].
          split; [| reflexivity].
          intros x y r. split; intros Hin;
            repeat (apply elem_of_cons in Hin as [Hin | Hin]); try discriminate Hin;
            inversion Hin. }
      destruct Hshape as (shape & others & Eshape & Hshape & Hothers & setup & Hsetup & ->).
      destruct (IH others Hothers) as [IH1 IH2]. split.
      * intros bot [-> | Hin]%elem_of_cons Hh.
        -- rewrite <- Eshape. apply elem_of_app. right. apply elem_of_app. left.
           unfold body. left.
        -- do 3 (apply elem_of_app; right). exact (IH1 bot Hin Hh).
      * intros x y r Hop.
        assert (Hhere : ∀ op, (op = circleAt x y r ∨ op = hexagonAt x y r) →
                  op ∈ body pt b shape ++ shield pt b →
                  x = PointTransformer.X pt (Bot.X b) ∧
                  y = PointTransformer.Y pt (Bot.Y b)).
        { intros op Hop' Hin. unfold body, shield in Hin.
          destruct (positive _), (Bot.Shield b); simpl in Hin;
            repeat (apply elem_of_cons in Hin as [Hin | Hin]);
            try (inversion Hin; fail);
            destruct Hshape as [-> | ->], Hop' as [-> | ->];
            try discriminate Hin; injection Hin as -> -> _; auto. }
        assert (Hcases : ∀ op, (op = circleAt x y r ∨ op = hexagonAt x y r) →
                  op ∈ setup ++ body pt b shape ++ shield pt b ++ others →
                  ∃ bot, bot ∈ b :: rest ∧ 0 < Bot.Health bot ∧
                         x = PointTransformer.X pt (Bot.X bot) ∧
                         y = PointTransformer.Y pt (Bot.Y bot)).
        { intros op Hop' Hin. apply elem_of_app in Hin as [Hin | Hin].
          - destruct (Hsetup x y r) as [N1 N2].
            destruct Hop' as [-> | ->]; contradiction.
          - rewrite app_assoc in Hin. apply elem_of_app in Hin as [Hin | Hin].
            + destruct (Hhere op Hop' Hin) as [-> ->].
              exists b. split; [left |]. auto.
            + destruct (IH2 x y r) as (bot & Hb & Hrest).
              { destruct Hop' as [-> | ->]; [left | right]; exact Hin. }
              exists bot. split; [right; exact Hb | exact Hrest]. }
        destruct Hop as [Hop | Hop];
          [apply (Hcases (circleAt x y r)); [left; reflexivity | exact Hop]
          | apply (Hcases (hexagonAt x y r)); [right; reflexivity | exact Hop]].
Qed.


(** X15. A bot is drawn either as a body or as an explosion, by the sign
    of its health. Every bot without health (health 0 or less) has its
    disc of radius [Resize (2 * BotSize)] at its position among the
    explosions, and every disc of the explosions is the one of such a
    bot. In a tick whose bodies are drawn, every bot with health has its
    shape of radius [Resize (BotSize / 2)] at its position among the
    bodies, a circle for player 1 and a hexagon otherwise, and every
    circle and every hexagon of the bodies is centred on a bot with
    health. Accordingly the loop of the bodies draws what it would draw
    if the bots without health were not in the tick, and the loop of the
    explosions what it would draw if the bots with health were not; a
    tick without a living bot has no body (and no message about players,
    whatever the players are), a tick of living bots no explosion. *)
Theorem dead_and_living_bots_are_drawn_apart
    (pt : PointTransformer.t) (bots : list Bot.t) :
  (∀ bot, bot ∈ bots → Bot.Health bot <= 0 →
     circleAt (PointTransformer.X pt (Bot.X bot)) (PointTransformer.Y pt (Bot.Y bot))
              (PointTransformer.Resize pt (BotSize [*] 2))
     ∈ explosions pt bots) ∧
  (∀ x y r, circleAt x y r ∈ explosions pt bots →
     ∃ bot, bot ∈ bots ∧ Bot.Health bot <= 0 ∧
            x = PointTransformer.X pt (Bot.X bot) ∧
            y = PointTransformer.Y pt (Bot.Y bot) ∧
            r = PointTransformer.Resize pt (BotSize [*] 2)) ∧
  (∀ bs, bodies pt bots = Ok bs →
     (∀ bot, bot ∈ bots → 0 < Bot.Health bot →
        (if Bot.PID bot =? 1 then circleAt else hexagonAt)
          (PointTransformer.X pt (Bot.X bot)) (PointTransformer.Y pt (Bot.Y bot))
          (PointTransformer.Resize pt (GoInt.quo_const BotSize 2))
        ∈ bs) ∧
     (∀ x y r, circleAt x y r ∈ bs ∨ hexagonAt x y r ∈ bs →
        ∃ bot, bot ∈ bots ∧ 0 < Bot.Health bot ∧
               x = PointTransformer.X pt (Bot.X bot) ∧
               y = PointTransformer.Y pt (Bot.Y bot))) ∧
  bodies pt bots = bodies pt (filter (λ bot, 0 < Bot.Health bot) bots) ∧
  explosions pt bots
  = explosions pt (filter (λ bot, Bot.Health bot <= 0) bots) ∧
  (Forall (λ bot, Bot.Health bot <= 0) bots → bodies pt bots = Ok []) ∧
  (Forall (λ bot, 0 < Bot.Health bot) bots →
   explosions pt bots = [SetFillColor ColorExplosion]).
Proof.
  split; [exact (proj1 (explosions_shapes pt bots)) |].
  split; [exact (proj2 (explosions_shapes pt bots)) |].
  split; [apply bodies_shapes |].
  split; [apply bodies_skip_dead |]. split; [apply explosions_skip_living |].
  split; intros H.
  - induction H as [|bot rest Hd _ IH]; [reflexivity |]. simpl.
    destruct (Z.leb_spec (Bot.Health bot) 0); [exact IH | lia].
  - unfold explosions. f_equal.
    induction H as [|bot rest Hl _ IH]; [reflexivity |]. simpl.
    destruct (Z.leb_spec (Bot.Health bot) 0); [lia | exact IH].
Qed.

(** X16. The colour of a body: a living bot of player 1 or 2 is drawn
    with a black stroke of width 1 and an opaque fill whose three
    channels lie in 0..255; a power between 0 and 12 gives its channel
    the value [21 * power] (red for [FPow], green for [MPow], blue for
    [SPow]), so that no power of that range wraps around in [uint8]. *)
Theorem body_colour_follows_the_powers (pt : PointTransformer.t) (bot : Bot.t) :
  0 < Bot.Health bot → Bot.PID bot = 1 ∨ Bot.PID bot = 2 →
  ∃ c rest,
    bodies pt [bot]
    = Ok (SetStrokeColor ColorBlack :: SetFillColor c
          :: SetLineWidth (F.of_int 1) :: rest) ∧
    color.A c = 255 ∧
    0 <= color.R c < 256 ∧ 0 <= color.G c < 256 ∧ 0 <= color.B c < 256 ∧
    (0 <= Bot.FPow bot <= 12 → color.R c = 21 * Bot.FPow bot) ∧
    (0 <= Bot.MPow bot <= 12 → color.G c = 21 * Bot.MPow bot) ∧
    (0 <= Bot.SPow bot <= 12 → color.B c = 21 * Bot.SPow bot).
Proof.
  intros Hh Hp. simpl. destruct (Z.leb_spec (Bot.Health bot) 0); [lia |].
  assert (E : (if Bot.PID bot =? 1 then Ok (body pt bot circleAt)
               else if Bot.PID bot =? 2 then Ok (body pt bot hexagonAt)
                    else Fatal unsupported_player)
              = Ok (body pt bot (if Bot.PID bot =? 1 then circleAt else hexagonAt))).
  { destruct Hp as [-> | ->]; reflexivity. }
  rewrite E. simpl. do 2 eexists. split; [reflexivity |]. simpl.
  unfold uint8. change PowerColorWeight with 21.
  split; [reflexivity |].
  repeat (split; [apply Z.mod_pos_bound; lia |]).
  repeat split; intros Hr; unwrap; apply Z.mod_small; lia.
Qed.

Lemma body_colour_follows_the_powers_witness :
  ∃ c rest,
    bodies sample_pt [hexagon_bot 0 0]
    = Ok (SetStrokeColor ColorBlack :: SetFillColor c
          :: SetLineWidth (F.of_int 1) :: rest) ∧
    color.R c = 21 * 12 ∧ color.G c = 21 * 0 ∧ color.B c = 21 * 6.
Proof.
  destruct (body_colour_follows_the_powers sample_pt (hexagon_bot 0 0))
    as (c & rest & Hb & _ & _ & _ & _ & HR & HG & HB);
    [simpl; lia | right; reflexivity |].
  exists c, rest. split; [exact Hb |].
  split; [apply HR; simpl; lia |]. split; [apply HG; simpl; lia | apply HB; simpl; lia].
Defined.

(** X17. The health mark: the body of a bot is its shape at the radius
    [Resize (BotSize / 2)], filled and stroked; for a bot with 12 health
    or more that is the whole body, and for a bot with less it is
    followed, in black and with a line width of 0, by the same shape at
    the same centre with the radius scaled by [(12 - health) / 12]: the
    mark grows as the health goes down (health of moderate size). *)
Theorem health_mark_only_below_full_health
    (pt : PointTransformer.t) (bot : Bot.t)
    (shape : F.float64 → F.float64 → F.float64 → GcOp) :
  moderate (Bot.Health bot) →
  let x := PointTransformer.X pt (Bot.X bot) in
  let y := PointTransformer.Y pt (Bot.Y bot) in
  let radius := PointTransformer.Resize pt 30 in
  (12 <= Bot.Health bot → body pt bot shape = [shape x y radius; FillStroke]) ∧
  (Bot.Health bot < 12 →
   body pt bot shape
   = [shape x y radius; FillStroke;
      SetFillColor ColorBlack; SetLineWidth (F.of_int 0);
      shape x y (F.mul radius
                   (F.Fin (inject_Z (12 - Bot.Health bot) / inject_Z 12)));
      FillStroke]).
Proof.
  intros Hm. unfold moderate in Hm. cbv zeta. unfold body, MaxBotHealth, F.of_int.
  unwrap. unfold F.div. rewrite is_zero_inject_Z by lia.
  change (Z.quot BotSize 2) with 30.
  split; intros Hh.
  - assert (E : positive (F.Fin (inject_Z (12 - Bot.Health bot) / inject_Z 12)) = false).
    { simpl. apply negb_false_iff, Qle_bool_iff.
      apply Qle_shift_div_r; [reflexivity |]. rewrite Qmult_0_l.
      unfold Qle; simpl; lia. }
    rewrite E. reflexivity.
  - assert (E : positive (F.Fin (inject_Z (12 - Bot.Health bot) / inject_Z 12)) = true).
    { simpl. apply negb_true_iff. apply not_true_is_false. intros Hle.
      apply Qle_bool_iff in Hle.
      assert (Hlt : (0 < inject_Z (12 - Bot.Health bot) / inject_Z 12)%Q).
      { apply Qlt_shift_div_l; [reflexivity |]. rewrite Qmult_0_l.
        unfold Qlt; simpl; lia. }
      apply (Qlt_not_le _ _ Hlt Hle). }
    rewrite E. reflexivity.
Qed.

Lemma health_mark_only_below_full_health_witness :
  body sample_pt (circle_bot 0 0) circleAt
  = [circleAt (PointTransformer.X sample_pt 0) (PointTransformer.Y sample_pt 0)
              (PointTransformer.Resize sample_pt 30);
     FillStroke].
Proof.
  assert (Hm : moderate (Bot.Health (circle_bot 0 0)))
    by (unfold moderate; simpl; lia).
  pose proof (health_mark_only_below_full_health sample_pt (circle_bot 0 0)
                circleAt Hm) as H.
  cbv zeta in H. destruct H as [H _]. apply H. simpl. lia.
Defined.

(** ** The grid *)

Lemma multiples_in_range {A : Type} (line : Z → list A) (n : nat) :
  ∀ lo,
    flat_map (λ x, if GoInt.rem_const x GridLineSpacing =? 0 then line x else [])
             (seqZ lo (Z.of_nat n))
    = flat_map (λ k, line (GridLineSpacing * k))
               (seqZ (- (- lo / GridLineSpacing))
                     ((lo + Z.of_nat n - 1) / GridLineSpacing
                      - - (- lo / GridLineSpacing) + 1)).
Proof.
  unfold GoInt.rem_const, GridLineSpacing.
  induction n as [|n IH]; intros lo.
  - simpl. rewrite (seqZ_nil _ (_ - _ + 1)) by lia. reflexivity.
  - rewrite seqZ_cons by lia. simpl flat_map.
    replace (Z.pred (Z.of_nat (S n))) with (Z.of_nat n) by lia.
    rewrite IH. replace (Z.succ lo + Z.of_nat n - 1) with (lo + Z.of_nat (S n) - 1) by lia.
    destruct (Z.eqb_spec (Z.rem lo 180) 0) as [Hz | Hnz].
    + rewrite (seqZ_cons (- (- lo / 180))) by lia. simpl flat_map.
      replace (180 * - (- lo / 180)) with lo by lia.
      replace (Z.succ (- (- lo / 180))) with (- (- Z.succ lo / 180)) by lia.
      f_equal. f_equal. f_equal. lia.
    + simpl. replace (- (- Z.succ lo / 180)) with (- (- lo / 180)) by lia.
      reflexivity.
Qed.

Lemma multiples_between {A : Type} (line : Z → list A) (lo hi : Z) :
  flat_map (λ x, if GoInt.rem_const x GridLineSpacing =? 0 then line x else [])
           (seqZ lo (hi - lo + 1))
  = flat_map (λ k, line (GridLineSpacing * k))
             (seqZ (- (- lo / GridLineSpacing))
                   (hi / GridLineSpacing - - (- lo / GridLineSpacing) + 1)).
Proof.
  destruct (Z.le_gt_cases 0 (hi - lo + 1)) as [Hle | Hgt].
  - rewrite <- (Z2Nat.id (hi - lo + 1)) by exact Hle.
    rewrite multiples_in_range. rewrite Z2Nat.id by exact Hle.
    replace (lo + (hi - lo + 1) - 1) with hi by lia. reflexivity.
  - rewrite seqZ_nil by lia. unfold GridLineSpacing.
    rewrite seqZ_nil by lia. reflexivity.
Qed.

(** X21. The grid is anchored in the field, not in the image: for a
    transformer whose box ends below [MaxInt], the vertical lines are
    drawn at the multiples of [GridLineSpacing] between the X bounds of
    the box, from the lowest to the highest and each from the lower to
    the upper Y bound, and the horizontal lines likewise at the multiples
    between the Y bounds; this also holds left of and below the origin,
    where Go's [%] gives negative remainders. *)
Theorem grid_lines_are_the_multiples_of_180 (pt : PointTransformer.t) :
  let b := PointTransformer.Bounds pt in
  let first z := - (- z / GridLineSpacing) in
  let last z := z / GridLineSpacing in
  image.X (image.Max b) < GoInt.MaxInt → image.Y (image.Max b) < GoInt.MaxInt →
  gridLinesX pt
  = Ok (flat_map (λ k,
          [BeginPath;
           MoveTo (PointTransformer.X pt (GridLineSpacing * k))
                  (PointTransformer.Y pt (image.Y (image.Min b)));
           LineTo (PointTransformer.X pt (GridLineSpacing * k))
                  (PointTransformer.Y pt (image.Y (image.Max b)));
           Stroke])
        (seqZ (first (image.X (image.Min b)))
              (last (image.X (image.Max b)) - first (image.X (image.Min b)) + 1))) ∧
  gridLinesY pt
  = Ok (flat_map (λ k,
          [BeginPath;
           MoveTo (PointTransformer.X pt (image.X (image.Min b)))
                  (PointTransformer.Y pt (GridLineSpacing * k));
           LineTo (PointTransformer.X pt (image.X (image.Max b)))
                  (PointTransformer.Y pt (GridLineSpacing * k));
           Stroke])
        (seqZ (first (image.Y (image.Min b)))
              (last (image.Y (image.Max b)) - first (image.Y (image.Min b)) + 1))).
Proof.
  intros b first last HX HY. unfold gridLinesX, gridLinesY, count_up. fold b.
  rewrite (proj2 (Z.eqb_neq (image.X (image.Max b)) GoInt.MaxInt)) by lia.
  rewrite (proj2 (Z.eqb_neq (image.Y (image.Max b)) GoInt.MaxInt)) by lia.
  rewrite !andb_false_r. simpl. split; f_equal.
  - apply (multiples_between
             (λ x, [BeginPath;
                    MoveTo (PointTransformer.X pt x)
                           (PointTransformer.Y pt (image.Y (image.Min b)));
                    LineTo (PointTransformer.X pt x)
                           (PointTransformer.Y pt (image.Y (image.Max b)));
                    Stroke])).
  - apply (multiples_between
             (λ y, [BeginPath;
                    MoveTo (PointTransformer.X pt (image.X (image.Min b)))
                           (PointTransformer.Y pt y);
                    LineTo (PointTransformer.X pt (image.X (image.Max b)))
                           (PointTransformer.Y pt y);
                    Stroke])).
Qed.

Lemma grid_lines_are_the_multiples_of_180_witness :
  gridLinesX sample_pt
  = Ok (flat_map (λ k,
          [BeginPath;
           MoveTo (PointTransformer.X sample_pt (GridLineSpacing * k))
                  (PointTransformer.Y sample_pt (-1000));
           LineTo (PointTransformer.X sample_pt (GridLineSpacing * k))
                  (PointTransformer.Y sample_pt 1000);
           Stroke])
        (seqZ (-5) 11)).
Proof.
  assert (Hx : image.X (image.Max (PointTransformer.Bounds sample_pt)) < GoInt.MaxInt)
    by (unfold GoInt.MaxInt; simpl; lia).
  assert (Hy : image.Y (image.Max (PointTransformer.Bounds sample_pt)) < GoInt.MaxInt)
    by (unfold GoInt.MaxInt; simpl; lia).
  pose proof (grid_lines_are_the_multiples_of_180 sample_pt) as H.
  cbv zeta in H. exact (proj1 (H Hx Hy)).
Defined.

(** ** The shape and letter helpers *)

Ltac q_arith :=
  unfold inject_Z, Qdiv in *;
  change (/ 2)%Q with (1 # 2)%Q in *; change (/ 3)%Q with (1 # 3)%Q in *;
  lra.

(** X22. Every letter fills its cell: for a finite position and a unit
    that is not negative, each of the six letter helpers names only
    points of the cell that is one unit wide and two units high with
    [(sx, sy)] as its first corner, and names a point on each of the four
    sides of that cell (exact arithmetic). *)
Theorem letters_fill_their_cell
    (glyph : F.float64 → F.float64 → F.float64 → list Shapes.PathOp)
    (sx sy unit : Q) :
  glyph ∈ [Shapes.sAt; Shapes.cAt; Shapes.rAt; Shapes.aAt; Shapes.pAt; Shapes.eAt] →
  (0 <= unit)%Q →
  let pts := Shapes.points (glyph (F.Fin sx) (F.Fin sy) (F.Fin unit)) in
  Forall (Shapes.in_box sx (sx + unit) sy (sy + unit * 2)) pts ∧
  Exists (λ p, Shapes.X p = F.Fin sx) pts ∧
  Exists (λ p, Shapes.X p = F.Fin (sx + unit)) pts ∧
  Exists (λ p, Shapes.Y p = F.Fin sy) pts ∧
  Exists (λ p, Shapes.Y p = F.Fin (sy + unit * 2)) pts.
Proof.
  intros Hg Hu. unfold Shapes.in_box.
  repeat (apply elem_of_cons in Hg as [-> | Hg]); [.. | inversion Hg]; simpl;
    (split; [repeat constructor; simpl; q_arith |]);
    repeat split;
    repeat first [apply Exists_cons_hd; reflexivity | apply Exists_cons_tl].
Qed.

Lemma letters_fill_their_cell_witness :
  Forall (Shapes.in_box 0 (0 + 100) 0 (0 + 100 * 2))
         (Shapes.points (Shapes.rAt (F.Fin 0) (F.Fin 0) (F.Fin 100))).
Proof.
  assert (Hg : Shapes.rAt ∈ [Shapes.sAt; Shapes.cAt; Shapes.rAt; Shapes.aAt;
                             Shapes.pAt; Shapes.eAt]) by in_list.
  assert (Hu : (0 <= 100)%Q) by (unfold Qle; simpl; lia).
  pose proof (letters_fill_their_cell Shapes.rAt 0 0 100 Hg Hu) as H.
  cbv zeta in H. exact (proj1 H).
Defined.

Lemma in_box_wider (x0 x1 y0 y1 x0' x1' y0' y1' : Q) (p : Shapes.Point) :
  (x0' <= x0)%Q → (x1 <= x1')%Q → (y0' <= y0)%Q → (y1 <= y1')%Q →
  Shapes.in_box x0 x1 y0 y1 p → Shapes.in_box x0' x1' y0' y1' p.
Proof.
  intros H1 H2 H3 H4 [Hx Hy]. unfold Shapes.in_box, F.between in *.
  destruct (Shapes.X p), (Shapes.Y p); try tauto. split; split; lra.
Qed.

Lemma transformer_finite (pt : PointTransformer.t) (r : Q) (v : Z) :
  PointTransformer.ratio pt = F.Fin r →
  moderate_box (PointTransformer.Bounds pt) → moderate v →
  PointTransformer.X pt v
  = F.Fin (inject_Z (v - image.X (image.Min (PointTransformer.Bounds pt))) * r) ∧
  PointTransformer.Y pt v
  = F.Fin (inject_Z (v - image.Y (image.Min (PointTransformer.Bounds pt))) * r) ∧
  PointTransformer.Resize pt v = F.Fin (inject_Z v * r).
Proof.
  intros Hr (HminX & HminY & _ & _) Hv. unfold moderate in *.
  unfold PointTransformer.X, PointTransformer.Y, PointTransformer.Resize, F.of_int.
  rewrite Hr. simpl. unwrap.
  replace (v + -1 * image.X (image.Min (PointTransformer.Bounds pt)))
    with (v - image.X (image.Min (PointTransformer.Bounds pt))) by lia.
  replace (v + -1 * image.Y (image.Min (PointTransformer.Bounds pt)))
    with (v - image.Y (image.Min (PointTransformer.Bounds pt))) by lia.
  auto.
Qed.

Lemma logo_letters (pt : PointTransformer.t) :
  logo pt
  = SetLineWidth (PointTransformer.Resize pt 24)
    :: flat_map (λ '(glyph, sx),
         [BeginPath;
          glyph (PointTransformer.X pt sx) (PointTransformer.Y pt (-100))
                (PointTransformer.Resize pt 100);
          Stroke])
       [(sAt, -650); (cAt, -500); (rAt, -350); (aAt, -200); (pAt, -50);
        (pAt, 100); (eAt, 250); (rAt, 400); (sAt, 550)].
Proof. reflexivity. Qed.

(** X23. The logo is centred on the origin of the field: for a transformer
    of moderate box whose ratio [r] is finite and not negative, with
    [(cx, cy)] the image of the point [(0, 0)] of the field, every point
    that the logo names lies within [650 r] of [cx] and within [100 r] of
    [cy]; the [k]-th of the nine letters (operation [3 k + 2] of the
    logo) has a path and stays in its own cell, [100 r] wide and [150 r]
    right of the cell before; and the first letter reaches the left, the
    upper and the lower side of the logo, the last letter its right side
    (exact arithmetic). *)
Theorem logo_is_centred_on_the_origin (pt : PointTransformer.t) (r : Q) :
  PointTransformer.ratio pt = F.Fin r → (0 <= r)%Q →
  moderate_box (PointTransformer.Bounds pt) →
  ∃ cx cy,
    PointTransformer.X pt 0 = F.Fin cx ∧ PointTransformer.Y pt 0 = F.Fin cy ∧
    (∀ op path, op ∈ logo pt → outline op = Some path →
       Forall (Shapes.in_box (cx - 650 * r) (cx + 650 * r)
                             (cy - 100 * r) (cy + 100 * r))
              (Shapes.points path)) ∧
    (∀ (k : nat) op path,
       logo pt !! (3 * k + 2)%nat = Some op → outline op = Some path →
       path ≠ [] ∧
       Forall (Shapes.in_box (cx + (150 * inject_Z (Z.of_nat k) - 650) * r)
                             (cx + (150 * inject_Z (Z.of_nat k) - 550) * r)
                             (cy - 100 * r) (cy + 100 * r))
              (Shapes.points path)) ∧
    ∃ first last,
      logo pt !! 2%nat = Some first ∧ logo pt !! 26%nat = Some last ∧
      (∃ path, outline first = Some path ∧
         Exists (λ p, ∃ q, Shapes.X p = F.Fin q ∧ (q == cx - 650 * r)%Q)
                (Shapes.points path) ∧
         Exists (λ p, ∃ q, Shapes.Y p = F.Fin q ∧ (q == cy - 100 * r)%Q)
                (Shapes.points path) ∧
         Exists (λ p, ∃ q, Shapes.Y p = F.Fin q ∧ (q == cy + 100 * r)%Q)
                (Shapes.points path)) ∧
      (∃ path, outline last = Some path ∧
         Exists (λ p, ∃ q, Shapes.X p = F.Fin q ∧ (q == cx + 650 * r)%Q)
                (Shapes.points path)).
Proof.
  intros Hr Hr0 Hm.
  assert (HX : ∀ v, -1000 <= v <= 1000 →
            PointTransformer.X pt v
            = F.Fin (inject_Z (v - image.X (image.Min (PointTransformer.Bounds pt))) * r) ∧
            PointTransformer.Y pt v
            = F.Fin (inject_Z (v - image.Y (image.Min (PointTransformer.Bounds pt))) * r) ∧
            PointTransformer.Resize pt v = F.Fin (inject_Z v * r)).
  { intros v Hv. apply transformer_finite; [exact Hr | exact Hm | unfold moderate; lia]. }
  set (mx := image.X (image.Min (PointTransformer.Bounds pt))) in *.
  set (my := image.Y (image.Min (PointTransformer.Bounds pt))) in *.
  exists (inject_Z (0 - mx) * r)%Q, (inject_Z (0 - my) * r)%Q.
  split; [apply (HX 0); lia |]. split; [apply (HX 0); lia |].
  assert (Hcell : ∀ (k : Z) op path,
            0 <= k <= 8 →
            op ∈ [sAt (PointTransformer.X pt (150 * k - 650)) (PointTransformer.Y pt (-100))
                      (PointTransformer.Resize pt 100);
                  cAt (PointTransformer.X pt (150 * k - 650)) (PointTransformer.Y pt (-100))
                      (PointTransformer.Resize pt 100);
                  rAt (PointTransformer.X pt (150 * k - 650)) (PointTransformer.Y pt (-100))
                      (PointTransformer.Resize pt 100);
                  aAt (PointTransformer.X pt (150 * k - 650)) (PointTransformer.Y pt (-100))
                      (PointTransformer.Resize pt 100);
                  pAt (PointTransformer.X pt (150 * k - 650)) (PointTransformer.Y pt (-100))
                      (PointTransformer.Resize pt 100);
                  eAt (PointTransformer.X pt (150 * k - 650)) (PointTransformer.Y pt (-100))
                      (PointTransformer.Resize pt 100)] →
            outline op = Some path →
            path ≠ [] ∧
            Forall (Shapes.in_box
                      (inject_Z (0 - mx) * r + (150 * inject_Z k - 650) * r)
                      (inject_Z (0 - mx) * r + (150 * inject_Z k - 550) * r)
                      (inject_Z (0 - my) * r - 100 * r)
                      (inject_Z (0 - my) * r + 100 * r))
                   (Shapes.points path)).
  { intros k op path Hk Hop Hpath.
    destruct (HX (150 * k - 650) ltac:(lia)) as (EX & _ & _).
    destruct (HX (-100) ltac:(lia)) as (_ & EY & _).
    destruct (HX 100 ltac:(lia)) as (_ & _ & ER).
    rewrite EX, EY, ER in Hop. clear EX EY ER.
    unfold Z.sub in *. rewrite !inject_Z_plus, !inject_Z_mult, !inject_Z_opp in *.
    set (M := inject_Z mx) in *. set (N := inject_Z my) in *. set (K := inject_Z k) in *.
    clearbody M N K.
    unfold Shapes.in_box.
    repeat (apply elem_of_cons in Hop as [-> | Hop]); [.. | inversion Hop];
      simpl in Hpath; injection Hpath as <-; (split; [discriminate |]); simpl;
      repeat constructor; simpl; q_arith. }
  assert (Hletter : ∀ (k : nat) op path,
            logo pt !! (3 * k + 2)%nat = Some op → outline op = Some path →
            (k < 9)%nat ∧ path ≠ [] ∧
            Forall (Shapes.in_box
                      (inject_Z (0 - mx) * r + (150 * inject_Z (Z.of_nat k) - 650) * r)
                      (inject_Z (0 - mx) * r + (150 * inject_Z (Z.of_nat k) - 550) * r)
                      (inject_Z (0 - my) * r - 100 * r)
                      (inject_Z (0 - my) * r + 100 * r))
                   (Shapes.points path)).
  { intros k op path Hlk Hpath.
    assert (Hk : (k < 9)%nat).
    { apply lookup_lt_Some in Hlk. rewrite logo_letters in Hlk. simpl in Hlk. lia. }
    split; [exact Hk |]. rewrite logo_letters in Hlk.
    apply (Hcell (Z.of_nat k) op path); [lia | | exact Hpath].
    do 9 (destruct k as [|k];
          [simpl in Hlk; injection Hlk as <-;
           repeat first [apply list_elem_of_here | apply list_elem_of_further] |]).
    lia. }
  split.
  - intros op path Hop Hpath.
    apply list_elem_of_lookup in Hop as [n Hn].
    assert (Hcases : (∃ k, n = (3 * k + 2)%nat) ∨ outline op = Some []).
    { rewrite logo_letters in Hn.
      do 28 (destruct n as [|n];
             [simpl in Hn; injection Hn as <-;
              first [right; reflexivity
                    | left;
                      first [exists 0%nat; reflexivity | exists 1%nat; reflexivity
                            | exists 2%nat; reflexivity | exists 3%nat; reflexivity
                            | exists 4%nat; reflexivity | exists 5%nat; reflexivity
                            | exists 6%nat; reflexivity | exists 7%nat; reflexivity
                            | exists 8%nat; reflexivity]] |]).
      discriminate Hn. }
    destruct Hcases as [[k ->] | Hnil].
    + destruct (Hletter k op path Hn Hpath) as (Hk & _ & Hall).
      eapply Forall_impl; [exact Hall |]. intros p. apply in_box_wider; try lra.
      * assert (0 <= inject_Z (Z.of_nat k))%Q by (unfold Qle; simpl; lia).
        nra.
      * assert (inject_Z (Z.of_nat k) <= 8)%Q by (unfold Qle; simpl; lia).
        nra.
    + rewrite Hnil in Hpath. injection Hpath as <-. constructor.
  - split.
    { intros k op path Hlk Hpath.
      destruct (Hletter k op path Hlk Hpath) as (_ & Hne & Hall). auto. }
    rewrite logo_letters. do 2 eexists.
    split; [reflexivity |]. split; [reflexivity |].
    destruct (HX (-650) ltac:(lia)) as (EX1 & _ & _).
    destruct (HX 550 ltac:(lia)) as (EX2 & _ & _).
    destruct (HX (-100) ltac:(lia)) as (_ & EY & _).
    destruct (HX 100 ltac:(lia)) as (_ & _ & ER).
    rewrite EX1, EX2, EY, ER. clear EX1 EX2 EY ER.
    unfold Z.sub. rewrite !inject_Z_plus, !inject_Z_opp.
    set (M := inject_Z mx). set (N := inject_Z my). clearbody M N.
    split; eexists; (split; [reflexivity |]); simpl.
    + split; [| split].
      * apply Exists_cons_tl, Exists_cons_hd. simpl.
        eexists. split; [reflexivity |]. q_arith.
      * apply Exists_cons_hd. simpl. eexists. split; [reflexivity |]. q_arith.
      * do 4 apply Exists_cons_tl. apply Exists_cons_hd. simpl.
        eexists. split; [reflexivity |]. q_arith.
    + apply Exists_cons_hd. simpl. eexists. split; [reflexivity |]. q_arith.
Qed.

Lemma logo_is_centred_on_the_origin_witness :
  ∃ cx cy,
    PointTransformer.X sample_pt 0 = F.Fin cx ∧
    PointTransformer.Y sample_pt 0 = F.Fin cy ∧
    ∀ op path, op ∈ logo sample_pt → outline op = Some path →
      Forall (Shapes.in_box (cx - 650 * (3 # 10)) (cx + 650 * (3 # 10))
                            (cy - 100 * (3 # 10)) (cy + 100 * (3 # 10)))
             (Shapes.points path).
Proof.
  assert (Hr : PointTransformer.ratio sample_pt = F.Fin (3 # 10)) by reflexivity.
  assert (Hr0 : (0 <= 3 # 10)%Q) by (unfold Qle; simpl; lia).
  destruct (logo_is_centred_on_the_origin sample_pt (3 # 10) Hr Hr0 sample_pt_moderate)
    as (cx & cy & HX & HY & Hall & _).
  exists cx, cy. split; [exact HX |]. split; [exact HY | exact Hall].
Defined.

Lemma margin_between (n L S : Z) :
  60 <= n → n + 60 <= L → 0 <= S →
  let ρ := (inject_Z S / inject_Z L)%Q in
  (0 <= ρ)%Q ∧ (0 <= inject_Z n * ρ - 60 * ρ)%Q ∧
  (inject_Z n * ρ + 60 * ρ <= inject_Z S)%Q.
Proof.
  intros H1 H2 HS ρ.
  destruct (scale_between 1 L S ltac:(lia) ltac:(lia) HS) as [Hρ _].
  destruct (scale_between (n - 60) L S ltac:(lia) ltac:(lia) HS) as [Hlo _].
  destruct (scale_between (n + 60) L S ltac:(lia) ltac:(lia) HS) as [_ Hhi].
  fold ρ in Hρ, Hlo, Hhi. clearbody ρ.
  unfold Z.sub in Hlo. rewrite inject_Z_plus in Hlo, Hhi. rewrite inject_Z_opp in Hlo.
  set (N := inject_Z n) in *. clearbody N.
  unfold inject_Z in *. split; [lra |]. split; lra.
Qed.

Lemma built_margin (B : image.Rectangle) (S a b : Z) (r : Q) :
  moderate_box B → well_formed B → 0 < S →
  let pt := NewPointTransformer B Padding S in
  PointTransformer.ratio pt = F.Fin r →
  image.X (image.Min (PointTransformer.Bounds pt)) <= a - 60 →
  a + 60 <= image.X (image.Max (PointTransformer.Bounds pt)) →
  image.Y (image.Min (PointTransformer.Bounds pt)) <= b - 60 →
  b + 60 <= image.Y (image.Max (PointTransformer.Bounds pt)) →
  (0 <= r)%Q ∧
  ∃ cx cy,
    PointTransformer.X pt a = F.Fin cx ∧ PointTransformer.Y pt b = F.Fin cy ∧
    (0 <= cx - 60 * r)%Q ∧ (cx + 60 * r <= inject_Z S)%Q ∧
    (0 <= cy - 60 * r)%Q ∧ (cy + 60 * r <= inject_Z S)%Q.
Proof.
  intros (HminX & HminY & HmaxX & HmaxY) [HwfX HwfY] HS. unfold moderate in *.
  destruct B as [[minX minY] [maxX maxY]]. simpl in *. change Padding with 120.
  unfold PointTransformer.X, PointTransformer.Y,
    NewPointTransformer, padded, F.of_int. simpl.
  unwrap. gtb_cases; simpl; unwrap; unfold F.div;
    rewrite is_zero_inject_Z by lia; simpl; intros [= <-] Ha1 Ha2 Hb1 Hb2; unwrap.
  - match goal with |- context [(inject_Z S / inject_Z ?L)%Q] =>
      destruct (margin_between (a + -1 * (minX - 120)) L S) as (Hr & Ha & Ha');
        [lia | lia | lia |];
      destruct (margin_between
                  (b + -1 * (minY - 120 - (maxX + 120 - (minX - 120)
                                           - (maxY + 120 - (minY - 120))) ÷ 2)) L S)
        as (_ & Hb & Hb'); [lia | lia | lia |]
    end.
    split; [exact Hr |]. do 2 eexists.
    split; [reflexivity |]. split; [reflexivity |]. auto.
  - match goal with |- context [(inject_Z S / inject_Z ?L)%Q] =>
      destruct (margin_between
                  (a + -1 * (minX - 120 - (maxY + 120 - (minY - 120)
                                           - (maxX + 120 - (minX - 120))) ÷ 2)) L S)
        as (Hr & Ha & Ha'); [lia | lia | lia |];
      destruct (margin_between (b + -1 * (minY - 120)) L S) as (_ & Hb & Hb');
        [lia | lia | lia |]
    end.
    split; [exact Hr |]. do 2 eexists.
    split; [reflexivity |]. split; [reflexivity |]. auto.
Qed.

Lemma built_ratio (B : image.Rectangle) (S : Z) :
  moderate_box B → well_formed B → 0 < S →
  ∃ r, PointTransformer.ratio (NewPointTransformer B Padding S) = F.Fin r ∧
       (0 <= r)%Q.
Proof.
  intros (HminX & HminY & HmaxX & HmaxY) [HwfX HwfY] HS. unfold moderate in *.
  destruct B as [[minX minY] [maxX maxY]]. simpl in *. change Padding with 120.
  unfold NewPointTransformer, padded, F.of_int. simpl.
  unwrap. gtb_cases; simpl; unwrap; unfold F.div;
    rewrite is_zero_inject_Z by lia; eexists; (split; [reflexivity |]);
    (apply Qle_shift_div_l; [unfold Qlt; simpl; lia |]);
    rewrite Qmult_0_l; unfold Qle; simpl; lia.
Qed.

Lemma circle_on_canvas (cx cy radius r S : Q) :
  (0 <= radius)%Q → (radius <= 45 * r)%Q →
  (0 <= cx - 60 * r)%Q → (cx + 60 * r <= S)%Q →
  (0 <= cy - 60 * r)%Q → (cy + 60 * r <= S)%Q →
  Forall (Shapes.in_box 0 S 0 S)
         (Shapes.points (Shapes.circleAt (F.Fin cx) (F.Fin cy) (F.Fin radius))).
Proof.
  intros H1 H2 H3 H4 H5 H6. unfold Shapes.in_box. simpl.
  repeat constructor; simpl; q_arith.
Qed.

(** Where a bot is drawn with a margin of [BotSize] on every side. *)
Lemma body_on_canvas (p : PointTransformer.t) (bot : Bot.t)
    (shape : F.float64 → F.float64 → F.float64 → GcOp) (r cx cy S : Q) :
  shape = circleAt ∨ shape = hexagonAt →
  PointTransformer.ratio p = F.Fin r → (0 <= r)%Q →
  PointTransformer.X p (Bot.X bot) = F.Fin cx →
  PointTransformer.Y p (Bot.Y bot) = F.Fin cy →
  (0 <= cx - 60 * r)%Q → (cx + 60 * r <= S)%Q →
  (0 <= cy - 60 * r)%Q → (cy + 60 * r <= S)%Q →
  0 < Bot.Health bot <= GoInt.MaxInt →
  ∀ op path, op ∈ body p bot shape ++ shield p bot → outline op = Some path →
             Forall (Shapes.in_box 0 S 0 S) (Shapes.points path).
Proof.
  intros Hshape Hr Hr0 HX HY H1 H2 H3 H4 Hh op path Hop Hpath.
  assert (ER : PointTransformer.Resize p 30 = F.Fin (30 * r)).
  { unfold PointTransformer.Resize. rewrite Hr. reflexivity. }
  assert (Hbody : Forall (Shapes.in_box 0 S 0 S)
            (Shapes.points (Shapes.circleAt (F.Fin cx) (F.Fin cy) (F.Fin (30 * r)))))
    by (apply (circle_on_canvas cx cy (30 * r) r S); lra).
  assert (Hshield : Forall (Shapes.in_box 0 S 0 S)
            (Shapes.points (Shapes.circleAt (F.Fin cx) (F.Fin cy)
                              (F.Fin (30 * r * (11 # 10))))))
    by (apply (circle_on_canvas cx cy (30 * r * (11 # 10)) r S); lra).
  assert (Hmark : ∀ q, (0 <= q)%Q → (q <= 1)%Q →
            Forall (Shapes.in_box 0 S 0 S)
              (Shapes.points (Shapes.circleAt (F.Fin cx) (F.Fin cy)
                                (F.Fin (30 * r * q)))))
    by (intros q Hq0 Hq1; apply (circle_on_canvas cx cy (30 * r * q) r S);
        try assumption; nra).
  unfold body, shield, MaxBotHealth, F.of_int in Hop.
  change (GoInt.quo_const BotSize 2) with 30 in Hop.
  rewrite HX, HY, ER in Hop. unwrap.
  unfold F.div in Hop. rewrite is_zero_inject_Z in Hop by lia.
  set (q := (inject_Z (12 - Bot.Health bot) / inject_Z 12)%Q) in *.
  assert (Hq1 : (q <= 1)%Q).
  { unfold q. apply Qle_shift_div_r; [reflexivity |].
    unfold Qle; simpl; lia. }
  assert (Hq0 : positive (F.Fin q) = true → (0 <= q)%Q).
  { simpl. intros Hpos. apply negb_true_iff in Hpos.
    destruct (Qlt_le_dec 0 q) as [Hlt | Hle]; [apply Qlt_le_weak; exact Hlt |].
    apply Qle_bool_iff in Hle. congruence. }
  simpl F.mul in Hop.
  destruct (positive (F.Fin q)) eqn:Hpos, (Bot.Shield bot);
    destruct Hshape as [-> | ->]; simpl in Hop;
    repeat (apply elem_of_cons in Hop as [-> | Hop]);
    try (inversion Hop; fail);
    simpl in Hpath; try discriminate Hpath; injection Hpath as <-;
    first [exact Hbody | exact Hshield | apply Hmark; auto; fail | constructor].
Qed.

Lemma bodies_on_canvas (p : PointTransformer.t) (r S : Q) (bots : list Bot.t) :
  PointTransformer.ratio p = F.Fin r → (0 <= r)%Q →
  (∀ bot, bot ∈ bots → Bot.Health bot <= GoInt.MaxInt ∧
     ∃ cx cy,
       PointTransformer.X p (Bot.X bot) = F.Fin cx ∧
       PointTransformer.Y p (Bot.Y bot) = F.Fin cy ∧
       (0 <= cx - 60 * r)%Q ∧ (cx + 60 * r <= S)%Q ∧
       (0 <= cy - 60 * r)%Q ∧ (cy + 60 * r <= S)%Q) →
  ∀ bs op path, bodies p bots = Ok bs → op ∈ bs → outline op = Some path →
                Forall (Shapes.in_box 0 S 0 S) (Shapes.points path).
Proof.
  intros Hr Hr0. induction bots as [|bot rest IH]; intros Hall bs op path Hbs Hop Hpath.
  - injection Hbs as <-. inversion Hop.
  - assert (Hrest : ∀ b, b ∈ rest → Bot.Health b <= GoInt.MaxInt ∧
              ∃ cx cy,
                PointTransformer.X p (Bot.X b) = F.Fin cx ∧
                PointTransformer.Y p (Bot.Y b) = F.Fin cy ∧
                (0 <= cx - 60 * r)%Q ∧ (cx + 60 * r <= S)%Q ∧
                (0 <= cy - 60 * r)%Q ∧ (cy + 60 * r <= S)%Q)
      by (intros b Hb; apply Hall; right; exact Hb).
    simpl in Hbs. destruct (Z.leb_spec (Bot.Health bot) 0) as [Hd | Hl].
    + exact (IH Hrest bs op path Hbs Hop Hpath).
    + destruct (Hall bot ltac:(left)) as (Hmax & cx & cy & HX & HY & H1 & H2 & H3 & H4).
      assert (Hshape : ∃ shape, (shape = circleAt ∨ shape = hexagonAt) ∧
                ∃ others, bodies p rest = Ok others ∧
                  bs = [SetStrokeColor ColorBlack;
                        SetFillColor
                          (color.mk (uint8 (PowerColorWeight [*] Bot.FPow bot))
                                    (uint8 (PowerColorWeight [*] Bot.MPow bot))
                                    (uint8 (PowerColorWeight [*] Bot.SPow bot)) 255);
                        SetLineWidth (F.of_int 1)]
                       ++ body p bot shape ++ shield p bot ++ others).
      { destruct (Bot.PID bot =? 1).
        - exists circleAt. split; [left; reflexivity |]. simpl in Hbs.
          destruct (bodies p rest) as [others | | |]; try discriminate Hbs.
          injection Hbs as <-. eauto.
        - destruct (Bot.PID bot =? 2); [| discriminate Hbs].
          exists hexagonAt. split; [right; reflexivity |]. simpl in Hbs.
          destruct (bodies p rest) as [others | | |]; try discriminate Hbs.
          injection Hbs as <-. eauto. }
      destruct Hshape as (shape & Hshape & others & Hothers & ->).
      apply elem_of_app in Hop as [Hop | Hop];
        [repeat (apply elem_of_cons in Hop as [-> | Hop]); [.. | inversion Hop];
         simpl in Hpath; injection Hpath as <-; constructor |].
      rewrite app_assoc in Hop. apply elem_of_app in Hop as [Hop | Hop].
      * eapply (body_on_canvas p bot shape r cx cy S); try eassumption. lia.
      * exact (IH Hrest others op path Hothers Hop Hpath).
Qed.

(** X24. Bodies, health marks and shields are drawn inside the image: in a
    run that completes its draw loop over ticks of moderate coordinates,
    with the transformer that draws tick [i], every point named by the
    path of an operation of the loop of the bodies (the end points and
    the control points of the circles of player 1, of their health marks
    and of the shields of both players) has both coordinates in
    [[0, imageSize]] (exact arithmetic, healths within the range of
    [int]). The hexagons of player 2 are not covered: their corners are
    not rational. *)
Theorem bodies_and_shields_are_on_the_canvas
    (fl : Flags) (ticks : list Tick.t) (st : Loop) :
  drawAll fl ticks = Ok st → Forall moderate_tick ticks →
  ∀ (i : nat) (tick : Tick.t) (p : PointTransformer.t) (rebuilt : bool)
    (bs : list GcOp) (op : GcOp) (path : list Shapes.PathOp),
    ticks !! i = Some tick → used st !! i = Some (p, rebuilt) →
    Forall (λ bot, Bot.Health bot <= GoInt.MaxInt) (Tick.Bots tick) →
    bodies p (Tick.Bots tick) = Ok bs → op ∈ bs → outline op = Some path →
    Forall (Shapes.in_box 0 (inject_Z (imageSize fl)) 0 (inject_Z (imageSize fl)))
           (Shapes.points path).
Proof.
  intros Hrun Hm i tick p rebuilt bs op path Hi Hp Hhealth Hbs Hop Hpath.
  pose proof (drawAll_Ok _ _ _ Hrun) as (_ & _ & HS & _).
  apply drawAll_refits in Hrun as (tick0 & bounds0 & H0 & Hb0 & Hrefits).
  destruct (moderate_Bounds _ _ (proj1 (Forall_lookup _ _) Hm _ _ H0) Hb0)
    as [Hm0 Hwf0].
  destruct (refits_built _ _ Hm _ _ (ex_intro _ bounds0 (conj Hm0 (conj Hwf0 eq_refl)))
              Hrefits _ _ _ _ Hi Hp) as [(b & Hbm & Hbw & ->) (tb & Htb & Ho)].
  pose proof (proj1 (Forall_lookup _ _) Hm _ _ Hi) as Hmt.
  destruct (moderate_Bounds _ _ Hmt Htb) as [(M1 & M2 & M3 & M4) _].
  apply Bounds_Some_tight in Htb as (Hin & _).
  destruct (built_ratio b (imageSize fl) Hbm Hbw ltac:(lia)) as (r & Hr & Hr0).
  apply (bodies_on_canvas (NewPointTransformer b Padding (imageSize fl)) r
           (inject_Z (imageSize fl)) (Tick.Bots tick) Hr Hr0) with (bs := bs) (op := op);
    try assumption.
  intros bot Hbot. split; [exact (proj1 (Forall_forall _ _) Hhealth bot Hbot) |].
  destruct (Hin _ Hbot) as [Hx Hy]. destruct (Hmt _ Hbot) as [Mx My].
  unfold overflows, BotSize in *. unfold moderate in *.
  rewrite !orb_false_iff, !Z.gtb_ltb, !Z.ltb_ge in Ho.
  destruct Ho as (((O1 & O2) & O3) & O4). unwrap.
  apply (built_margin b (imageSize fl) (Bot.X bot) (Bot.Y bot) r Hbm Hbw ltac:(lia) Hr);
    lia.
Qed.

Lemma bodies_and_shields_are_on_the_canvas_witness :
  ∃ st, drawAll sample_flags sample_ticks = Ok st ∧
    ∀ (i : nat) (tick : Tick.t) (p : PointTransformer.t) (rebuilt : bool)
      (bs : list GcOp) (op : GcOp) (path : list Shapes.PathOp),
      sample_ticks !! i = Some tick → used st !! i = Some (p, rebuilt) →
      Forall (λ bot, Bot.Health bot <= GoInt.MaxInt) (Tick.Bots tick) →
      bodies p (Tick.Bots tick) = Ok bs → op ∈ bs → outline op = Some path →
      Forall (Shapes.in_box 0 (inject_Z (imageSize sample_flags))
                            0 (inject_Z (imageSize sample_flags)))
             (Shapes.points path).
Proof.
  destruct sample_drawAll as [st Hst]. exists st. split; [exact Hst |].
  exact (bodies_and_shields_are_on_the_canvas sample_flags sample_ticks st Hst
           sample_ticks_moderate).
Defined.

(** ** The draw/quantize pipeline *)

Import Pipeline.

Section pool_facts.

Context {Img Pal : Type}.
Variable quantize : Img → Pal.
Variable imgs : list Img.
Variable W : nat.

Local Abbreviation State := (@State Img Pal).
Local Abbreviation Worker := (@Worker Img).
Local Abbreviation Inv := (Inv quantize imgs W).
Local Abbreviation exec := (exec quantize imgs W).
Local Abbreviation run := (run quantize imgs W).
Local Abbreviation slot_done := (slot_done quantize imgs).
Local Abbreviation phase := (@phase Img W).
Local Abbreviation steps_left := (@steps_left Img Pal imgs).
Local Abbreviation one_frame := (@one_frame).
Local Abbreviation in_turn := (in_turn W).
Local Abbreviation orderly := (orderly imgs W).

Lemma acked_le (ws : list Worker) : (acked ws ≤ length ws)%nat.
Proof. induction ws as [|[] ws IH]; simpl; lia. Qed.

Lemma acked_none (ws : list Worker) :
  (∀ w, ws !! w ≠ Some WAck) → acked ws = 0%nat.
Proof.
  induction ws as [|wk ws IH]; intros H; [reflexivity |].
  assert (Hws : ∀ w, ws !! w ≠ Some WAck) by (intros w; apply (H (S w))).
  specialize (H 0%nat). destruct wk; simpl in *; auto. congruence.
Qed.

Lemma acked_full (ws : list Worker) :
  (length ws ≤ acked ws)%nat → ∀ w wk, ws !! w = Some wk → wk = WAck.
Proof.
  induction ws as [|a ws IH]; intros H w wk Hw; [discriminate Hw |].
  pose proof (acked_le ws).
  destruct a; simpl in H; try lia.
  destruct w as [|w]; simpl in Hw; [congruence |].
  apply (IH ltac:(lia) w wk Hw).
Qed.

Lemma acked_insert_ack (ws : list Worker) (w : nat) (wk : Worker) :
  ws !! w = Some wk → wk ≠ WAck → acked (<[w := WAck]> ws) = S (acked ws).
Proof.
  revert w. induction ws as [|a ws IH]; intros [|w] Hw Hne; simpl in *;
    try discriminate.
  - assert (a = wk) by congruence. subst a. destruct wk; congruence.
  - rewrite (IH w Hw Hne). destruct a; reflexivity.
Qed.

Lemma acked_insert_other (ws : list Worker) (w : nat) (wk wk' : Worker) :
  ws !! w = Some wk → wk ≠ WAck → wk' ≠ WAck → acked (<[w := wk']> ws) = acked ws.
Proof.
  revert w. induction ws as [|a ws IH]; intros [|w] Hw Hne Hne'; simpl in *;
    try discriminate.
  - assert (a = wk) by congruence. subst a. destruct wk, wk'; congruence.
  - rewrite (IH w Hw Hne Hne'). reflexivity.
Qed.

Lemma exited_le (ws : list Worker) : (exited ws ≤ length ws)%nat.
Proof. induction ws as [|[] ws IH]; simpl; lia. Qed.

Lemma exited_none (ws : list Worker) :
  (∀ w, ws !! w ≠ Some WExit) → exited ws = 0%nat.
Proof.
  induction ws as [|wk ws IH]; intros H; [reflexivity |].
  assert (Hws : ∀ w, ws !! w ≠ Some WExit) by (intros w; apply (H (S w))).
  specialize (H 0%nat). destruct wk; simpl in *; auto. congruence.
Qed.

Lemma exited_insert_exit (ws : list Worker) (w : nat) (wk : Worker) :
  ws !! w = Some wk → wk ≠ WExit → exited (<[w := WExit]> ws) = S (exited ws).
Proof.
  revert w. induction ws as [|a ws IH]; intros [|w] Hw Hne; simpl in *;
    try discriminate.
  - assert (a = wk) by congruence. subst a. destruct wk; congruence.
  - rewrite (IH w Hw Hne). destruct a; reflexivity.
Qed.

(** Some worker has not been counted yet. *)
Lemma not_all_acked (ws : list Worker) :
  (acked ws < length ws)%nat → ∃ w wk, ws !! w = Some wk ∧ wk ≠ WAck.
Proof.
  induction ws as [|a ws IH]; simpl; [lia |]. intros H.
  destruct (decide (acked ws < length ws)%nat) as [Hlt | Hge].
  - destruct (IH Hlt) as (w & wk & Hw & Hne). exists (S w), wk. auto.
  - exists 0%nat, a. split; [reflexivity |]. intros ->. simpl in H. lia.
Qed.

Lemma not_all_exited (ws : list Worker) :
  (exited ws < length ws)%nat → ∃ w wk, ws !! w = Some wk ∧ wk ≠ WExit.
Proof.
  induction ws as [|a ws IH]; simpl; [lia |]. intros H.
  destruct (decide (exited ws < length ws)%nat) as [Hlt | Hge].
  - destruct (IH Hlt) as (w & wk & Hw & Hne). exists (S w), wk. auto.
  - exists 0%nat, a. split; [reflexivity |]. intros ->. simpl in H. lia.
Qed.

Lemma steps_insert (ws : list Worker) (w : nat) (old new : Worker) :
  ws !! w = Some old →
  (sum_list_with worker_steps (<[w := new]> ws) + worker_steps old
   = sum_list_with worker_steps ws + worker_steps new)%nat.
Proof.
  revert w. induction ws as [|a ws IH]; intros [|w] Hw; simpl in *;
    try discriminate.
  - assert (a = old) by congruence. subst a. lia.
  - specialize (IH w Hw). lia.
Qed.

(** Reading the workers after one of them has moved. *)
Lemma moved_lookup (ws : list Worker) (w w' : nat) (old new wk : Worker) :
  ws !! w = Some old →
  <[w := new]> ws !! w' = Some wk ↔
  (w' = w ∧ wk = new) ∨ (w' ≠ w ∧ ws !! w' = Some wk).
Proof.
  intros Hw. rewrite list_lookup_insert_Some.
  pose proof (lookup_lt_Some _ _ _ Hw) as Hlt. split.
  - intros [(-> & -> & _) | [Hne Hl]]; [left | right]; auto.
  - intros [[-> ->] | [Hne Hl]]; [left | right]; auto.
Qed.

Lemma Inv_init : Inv (init imgs W).
Proof.
  split; unfold phase; simpl; rewrite ?length_replicate; try reflexivity.
  - unfold published; simpl; lia.
  - intros i [=].
  - intros w wk i [-> _]%lookup_replicate. discriminate.
  - intros w w' wk wk' i [-> _]%lookup_replicate. discriminate.
  - intros w i [? _]%lookup_replicate. discriminate.
  - intros w i img [? _]%lookup_replicate. discriminate.
  - intros w i [? _]%lookup_replicate. discriminate.
  - unfold published. simpl. lia.
  - intros w [? _]%lookup_replicate. discriminate.
  - intros w. split; intros [? _]%lookup_replicate; discriminate.
Qed.

(** A worker that is neither stopped nor stopping moves to another such
    place: the phase of the driver is not disturbed. *)
Lemma phase_work (d : Driver) (ws : list Worker) (w : nat) (old new : Worker) :
  ws !! w = Some old →
  old ≠ WAck → old ≠ WExit → new ≠ WAck → new ≠ WExit →
  phase d ws → phase d (<[w := new]> ws).
Proof.
  intros Hw Ho1 Ho2 Hn1 Hn2. destruct d; simpl.
  - intros H w'. split;
      (intros [[-> E] | [Hne Hl]]%(moved_lookup _ _ _ _ _ _ Hw);
       [congruence | destruct (H w'); contradiction]).
  - intros H w'. split;
      (intros [[-> E] | [Hne Hl]]%(moved_lookup _ _ _ _ _ _ Hw);
       [congruence | destruct (H w'); contradiction]).
  - intros (Hn & Hack & Hexit). split; [exact Hn |]. split.
    + rewrite (acked_insert_other _ _ _ _ Hw); assumption.
    + intros w' [[-> E] | [Hne Hl]]%(moved_lookup _ _ _ _ _ _ Hw);
        [congruence | apply (Hexit _ Hl)].
  - intros (_ & _ & H). destruct (H _ _ Hw); contradiction.
  - intros H. destruct (H _ _ Hw); contradiction.
Qed.

(** The driver draws frame [i] into its slot. *)
Lemma exec_draw (s : State) (i : nat) (img : Img) :
  Inv s → driver s = DDraw i → imgs !! i = Some img →
  Inv (mkState (DPublish i) (workers s) (<[i := Some img]> (drawn s)) (converted s)).
Proof.
  intros [] Hd Hi. unfold published, phase in *. rewrite Hd in *.
  pose proof (lookup_lt_Some _ _ _ Hi) as Hlt.
  split; unfold published, phase; simpl; rewrite ?length_insert; try assumption.
  - intros i' [= <-]. exists img. split; [exact Hi |].
    apply list_lookup_insert_eq. lia.
  - intros w j Hw. destruct (inv_got0 w j Hw) as (img' & Himg' & Hdr).
    exists img'. split; [exact Himg' |].
    rewrite list_lookup_insert_ne; [exact Hdr |].
    specialize (inv_held0 w _ j Hw eq_refl). lia.
Qed.

(** The draw loop ends. *)
Lemma exec_loop_end (s : State) (i : nat) :
  Inv s → driver s = DDraw i → imgs !! i = None →
  Inv (mkState (DSignal 0) (workers s) (drawn s) (converted s)).
Proof.
  intros [] Hd Hi. unfold published, phase in *. rewrite Hd in *.
  apply lookup_ge_None in Hi. assert (i = length imgs) by lia. subst i.
  split; unfold published, phase; simpl; try assumption.
  - intros i [=].
  - split; [lia |]. split; [apply acked_none | ]; intros w; apply inv_phase0.
Qed.

(** [index <- i] meets the [select] of worker [w]. *)
Lemma exec_publish (s : State) (i w : nat) :
  Inv s → driver s = DPublish i → workers s !! w = Some WSelect →
  Inv (mkState (DDraw (S i)) (<[w := WGot i]> (workers s)) (drawn s) (converted s)).
Proof.
  intros [] Hd Hw. unfold published, phase in *. rewrite Hd in *.
  destruct (inv_publish0 i eq_refl) as (img & Himg & Hdr).
  pose proof (lookup_lt_Some _ _ _ Himg) as Hlt.
  split; unfold published, phase; simpl; rewrite ?length_insert; try assumption.
  - intros i' [=].
  - intros w' wk j [[-> ->] | [Hne Hl]]%(moved_lookup _ _ _ _ _ _ Hw) Hh.
    + injection Hh as <-. lia.
    + specialize (inv_held0 _ _ _ Hl Hh). lia.
  - intros w1 w2 wk1 wk2 j
      [[-> ->] | [Hne1 Hl1]]%(moved_lookup _ _ _ _ _ _ Hw)
      [[-> ->] | [Hne2 Hl2]]%(moved_lookup _ _ _ _ _ _ Hw) Hh1 Hh2;
      try reflexivity.
    + injection Hh1 as <-. specialize (inv_held0 _ _ _ Hl2 Hh2). lia.
    + injection Hh2 as <-. specialize (inv_held0 _ _ _ Hl1 Hh1). lia.
    + eapply inv_unique0; eassumption.
  - intros w' j [[-> [= <-]] | [Hne Hl]]%(moved_lookup _ _ _ _ _ _ Hw); eauto.
  - intros w' j img' [[-> [=]] | [Hne Hl]]%(moved_lookup _ _ _ _ _ _ Hw); eauto.
  - intros w' j [[-> [=]] | [Hne Hl]]%(moved_lookup _ _ _ _ _ _ Hw).
    apply (inv_clear0 _ _ Hl).
  - intros j Hj. destruct (decide (j = i)) as [-> | Hne].
    + left. exists w, (WGot i). split; [| reflexivity].
      apply (moved_lookup _ _ _ _ _ _ Hw). left. auto.
    + destruct (inv_slots0 j ltac:(lia)) as [(w' & wk & Hl & Hh) | Hdone];
        [left | right; exact Hdone].
      exists w', wk. split; [| exact Hh].
      apply (moved_lookup _ _ _ _ _ _ Hw). right. split; [| exact Hl].
      intros ->. rewrite Hw in Hl. injection Hl as <-. discriminate Hh.
  - intros w' [[-> [=]] | [Hne Hl]]%(moved_lookup _ _ _ _ _ _ Hw).
    apply (inv_no_panic0 _ Hl).
  - intros w'. split;
      intros [[-> [=]] | [Hne Hl]]%(moved_lookup _ _ _ _ _ _ Hw);
      destruct (inv_phase0 w'); contradiction.
Qed.


(** [drawDone <- true] meets the [select] of worker [w]. *)
Lemma exec_signal (s : State) (n w : nat) :
  Inv s → driver s = DSignal n → (n < W)%nat → workers s !! w = Some WSelect →
  Inv (mkState (DSignal (S n)) (<[w := WAck]> (workers s)) (drawn s) (converted s)).
Proof.
  intros [] Hd Hn Hw. unfold published, phase in *. rewrite Hd in *.
  destruct inv_phase0 as (_ & Hack & Hexit).
  split; unfold published, phase; simpl; rewrite ?length_insert; try assumption.
  - intros i' [=].
  - intros w' wk j [[-> ->] | [Hne Hl]]%(moved_lookup _ _ _ _ _ _ Hw) Hh.
    + discriminate Hh.
    + apply (inv_held0 _ _ _ Hl Hh).
  - intros w1 w2 wk1 wk2 j
      [[-> ->] | [Hne1 Hl1]]%(moved_lookup _ _ _ _ _ _ Hw)
      [[-> ->] | [Hne2 Hl2]]%(moved_lookup _ _ _ _ _ _ Hw) Hh1 Hh2;
      try discriminate.
    eapply inv_unique0; eassumption.
  - intros w' j [[-> [=]] | [Hne Hl]]%(moved_lookup _ _ _ _ _ _ Hw); eauto.
  - intros w' j img' [[-> [=]] | [Hne Hl]]%(moved_lookup _ _ _ _ _ _ Hw); eauto.
  - intros w' j [[-> [=]] | [Hne Hl]]%(moved_lookup _ _ _ _ _ _ Hw).
    apply (inv_clear0 _ _ Hl).
  - intros j Hj.
    destruct (inv_slots0 j Hj) as [(w' & wk & Hl & Hh) | Hdone];
      [left | right; exact Hdone].
    exists w', wk. split; [| exact Hh].
    apply (moved_lookup _ _ _ _ _ _ Hw). right. split; [| exact Hl].
    intros ->. rewrite Hw in Hl. injection Hl as <-. discriminate Hh.
  - intros w' [[-> [=]] | [Hne Hl]]%(moved_lookup _ _ _ _ _ _ Hw).
    apply (inv_no_panic0 _ Hl).
  - split; [lia |]. split.
    + rewrite (acked_insert_ack _ _ _ Hw); [lia | discriminate].
    + intros w' [[-> [=]] | [Hne Hl]]%(moved_lookup _ _ _ _ _ _ Hw).
      apply (Hexit _ Hl).
Qed.

(** All [drawDone] signals are sent. *)
Lemma exec_signal_end (s : State) (n : nat) :
  Inv s → driver s = DSignal n → ¬ (n < W)%nat →
  Inv (mkState (DWait 0) (workers s) (drawn s) (converted s)).
Proof.
  intros [] Hd Hn. unfold published, phase in *. rewrite Hd in *.
  destruct inv_phase0 as (HnW & Hack & Hexit).
  split; unfold published, phase; simpl; try assumption.
  - intros i' [=].
  - assert (Hall : ∀ w wk, workers s !! w = Some wk → wk = WAck)
      by (intros w wk Hw; apply (acked_full (workers s)) with w; [lia | exact Hw]).
    split; [lia |]. split; [| intros w wk Hw; left; eapply Hall, Hw].
    apply exited_none. intros w Hw. apply Hall in Hw. discriminate Hw.
Qed.

(** [<-convertDone] meets the send of worker [w]. *)
Lemma exec_ack (s : State) (n w : nat) :
  Inv s → driver s = DWait n → (n < W)%nat → workers s !! w = Some WAck →
  Inv (mkState (DWait (S n)) (<[w := WExit]> (workers s)) (drawn s) (converted s)).
Proof.
  intros [] Hd Hn Hw. unfold published, phase in *. rewrite Hd in *.
  destruct inv_phase0 as (_ & Hex & Hall).
  assert (Hidle : ∀ w' wk j, workers s !! w' = Some wk → held wk = Some j → False).
  { intros w' wk j Hl Hh. destruct (Hall _ _ Hl) as [-> | ->]; discriminate Hh. }
  split; unfold published, phase; simpl; rewrite ?length_insert; try assumption.
  - intros i' [=].
  - intros w' wk j [[-> ->] | [Hne Hl]]%(moved_lookup _ _ _ _ _ _ Hw) Hh.
    + discriminate Hh.
    + apply (inv_held0 _ _ _ Hl Hh).
  - intros w1 w2 wk1 wk2 j
      [[-> ->] | [Hne1 Hl1]]%(moved_lookup _ _ _ _ _ _ Hw)
      [[-> ->] | [Hne2 Hl2]]%(moved_lookup _ _ _ _ _ _ Hw) Hh1 Hh2;
      try discriminate.
    eapply inv_unique0; eassumption.
  - intros w' j [[-> [=]] | [Hne Hl]]%(moved_lookup _ _ _ _ _ _ Hw); eauto.
  - intros w' j img' [[-> [=]] | [Hne Hl]]%(moved_lookup _ _ _ _ _ _ Hw); eauto.
  - intros w' j [[-> [=]] | [Hne Hl]]%(moved_lookup _ _ _ _ _ _ Hw).
    apply (inv_clear0 _ _ Hl).
  - intros j Hj.
    destruct (inv_slots0 j Hj) as [(w' & wk & Hl & Hh) | Hdone];
      [destruct (Hidle _ _ _ Hl Hh) | right; exact Hdone].
  - intros w' [[-> [=]] | [Hne Hl]]%(moved_lookup _ _ _ _ _ _ Hw).
    apply (inv_no_panic0 _ Hl).
  - split; [lia |]. split.
    + rewrite (exited_insert_exit _ _ _ Hw); [lia | discriminate].
    + intros w' wk [[-> ->] | [Hne Hl]]%(moved_lookup _ _ _ _ _ _ Hw); eauto.
Qed.

(** All acknowledgements are in. *)
Lemma exec_finish (s : State) (n : nat) :
  Inv s → driver s = DWait n →
  Inv (mkState DWrite (workers s) (drawn s) (converted s)).
Proof.
  intros [] Hd. unfold published, phase in *. rewrite Hd in *.
  split; unfold published, phase; simpl; try assumption.
  - intros i' [=].
  - apply inv_phase0.
Qed.


(** Worker [w] reads [drawn[i]]. *)
Lemma exec_read (s : State) (w i : nat) (img : Img) :
  Inv s → workers s !! w = Some (WGot i) → drawn s !! i = Some (Some img) →
  Inv (mkState (driver s) (<[w := WDither i img]> (workers s))
               (drawn s) (converted s)).
Proof.
  intros [] Hw Hdr.
  destruct (inv_got0 _ _ Hw) as (img' & Himg & Hdr').
  assert (img' = img) by congruence. subst img'.
  split; unfold published in *; simpl; rewrite ?length_insert; try assumption.
  - intros w' wk j [[-> ->] | [Hne Hl]]%(moved_lookup _ _ _ _ _ _ Hw) Hh.
    + apply (inv_held0 _ _ _ Hw Hh).
    + apply (inv_held0 _ _ _ Hl Hh).
  - intros w1 w2 wk1 wk2 j
      [[-> ->] | [Hne1 Hl1]]%(moved_lookup _ _ _ _ _ _ Hw)
      [[-> ->] | [Hne2 Hl2]]%(moved_lookup _ _ _ _ _ _ Hw) Hh1 Hh2;
      try reflexivity.
    + symmetry. apply (inv_unique0 _ _ _ _ _ Hl2 Hw Hh2 Hh1).
    + apply (inv_unique0 _ _ _ _ _ Hl1 Hw Hh1 Hh2).
    + eapply inv_unique0; eassumption.
  - intros w' j [[-> [=]] | [Hne Hl]]%(moved_lookup _ _ _ _ _ _ Hw); eauto.
  - intros w' j img' [[-> [= <- <-]] | [Hne Hl]]%(moved_lookup _ _ _ _ _ _ Hw); eauto.
  - intros w' j [[-> [=]] | [Hne Hl]]%(moved_lookup _ _ _ _ _ _ Hw).
    apply (inv_clear0 _ _ Hl).
  - intros j Hj.
    destruct (inv_slots0 j Hj) as [(w' & wk & Hl & Hh) | Hdone];
      [left | right; exact Hdone].
    destruct (decide (w' = w)) as [-> | Hne].
    + exists w, (WDither i img). split.
      * apply (moved_lookup _ _ _ _ _ _ Hw). left. auto.
      * rewrite Hw in Hl. injection Hl as <-. exact Hh.
    + exists w', wk. split; [| exact Hh].
      apply (moved_lookup _ _ _ _ _ _ Hw). right. auto.
  - intros w' [[-> [=]] | [Hne Hl]]%(moved_lookup _ _ _ _ _ _ Hw).
    apply (inv_no_panic0 _ Hl).
  - eapply phase_work; [exact Hw | discriminate .. | exact inv_phase0].
Qed.

(** Storing the dithering of frame [i] keeps every finished slot. *)
Lemma slot_done_store (s : State) (i j : nat) (img : Img) (d : Driver)
    (ws : list Worker) (dr : list (option Img)) :
  imgs !! i = Some img → slot_done s j →
  slot_done (mkState d ws dr (<[i := Some (quantize img)]> (converted s))) j.
Proof.
  intros Hi (img' & Himg' & Hc). exists img'. split; [exact Himg' |]. simpl.
  destruct (decide (i = j)) as [-> | Hne].
  - assert (img' = img) by congruence. subst img'.
    apply list_lookup_insert_eq. eapply lookup_lt_Some, Hc.
  - rewrite list_lookup_insert_ne by exact Hne. exact Hc.
Qed.

(** Worker [w] stores the dithering of frame [i]. *)
Lemma exec_store (s : State) (w i : nat) (img : Img) :
  Inv s → workers s !! w = Some (WDither i img) →
  Inv (mkState (driver s) (<[w := WClear i]> (workers s))
               (drawn s) (<[i := Some (quantize img)]> (converted s))).
Proof.
  intros [] Hw.
  pose proof (inv_dither0 _ _ _ Hw) as Himg.
  pose proof (lookup_lt_Some _ _ _ Himg) as Hlt.
  split; unfold published in *; simpl; rewrite ?length_insert; try assumption.
  - intros w' wk j [[-> ->] | [Hne Hl]]%(moved_lookup _ _ _ _ _ _ Hw) Hh.
    + apply (inv_held0 _ _ _ Hw Hh).
    + apply (inv_held0 _ _ _ Hl Hh).
  - intros w1 w2 wk1 wk2 j
      [[-> ->] | [Hne1 Hl1]]%(moved_lookup _ _ _ _ _ _ Hw)
      [[-> ->] | [Hne2 Hl2]]%(moved_lookup _ _ _ _ _ _ Hw) Hh1 Hh2;
      try reflexivity.
    + symmetry. apply (inv_unique0 _ _ _ _ _ Hl2 Hw Hh2 Hh1).
    + apply (inv_unique0 _ _ _ _ _ Hl1 Hw Hh1 Hh2).
    + eapply inv_unique0; eassumption.
  - intros w' j [[-> [=]] | [Hne Hl]]%(moved_lookup _ _ _ _ _ _ Hw); eauto.
  - intros w' j img' [[-> [=]] | [Hne Hl]]%(moved_lookup _ _ _ _ _ _ Hw); eauto.
  - intros w' j [[-> [= <-]] | [Hne Hl]]%(moved_lookup _ _ _ _ _ _ Hw).
    + exists img. split; [exact Himg |]. simpl.
      apply list_lookup_insert_eq. lia.
    + apply slot_done_store; [exact Himg | apply (inv_clear0 _ _ Hl)].
  - intros j Hj.
    destruct (inv_slots0 j Hj) as [(w' & wk & Hl & Hh) | Hdone];
      [left | right; apply slot_done_store; assumption].
    destruct (decide (w' = w)) as [-> | Hne].
    + exists w, (WClear i). split.
      * apply (moved_lookup _ _ _ _ _ _ Hw). left. auto.
      * rewrite Hw in Hl. injection Hl as <-. exact Hh.
    + exists w', wk. split; [| exact Hh].
      apply (moved_lookup _ _ _ _ _ _ Hw). right. auto.
  - intros w' [[-> [=]] | [Hne Hl]]%(moved_lookup _ _ _ _ _ _ Hw).
    apply (inv_no_panic0 _ Hl).
  - eapply phase_work; [exact Hw | discriminate .. | exact inv_phase0].
Qed.

(** Worker [w] empties [drawn[i]] and returns to its [select]. *)
Lemma exec_clear (s : State) (w i : nat) :
  Inv s → workers s !! w = Some (WClear i) →
  Inv (mkState (driver s) (<[w := WSelect]> (workers s))
               (<[i := None]> (drawn s)) (converted s)).
Proof.
  intros [] Hw.
  pose proof (inv_held0 _ _ _ Hw eq_refl) as Hlt.
  split; unfold published in *; simpl; rewrite ?length_insert; try assumption.
  - intros i' Hd. destruct (inv_publish0 _ Hd) as (img & Himg & Hdr).
    exists img. split; [exact Himg |]. rewrite Hd in Hlt.
    rewrite list_lookup_insert_ne by lia. exact Hdr.
  - intros w' wk j [[-> ->] | [Hne Hl]]%(moved_lookup _ _ _ _ _ _ Hw) Hh.
    + discriminate Hh.
    + apply (inv_held0 _ _ _ Hl Hh).
  - intros w1 w2 wk1 wk2 j
      [[-> ->] | [Hne1 Hl1]]%(moved_lookup _ _ _ _ _ _ Hw)
      [[-> ->] | [Hne2 Hl2]]%(moved_lookup _ _ _ _ _ _ Hw) Hh1 Hh2;
      try discriminate.
    eapply inv_unique0; eassumption.
  - intros w' j [[-> [=]] | [Hne Hl]]%(moved_lookup _ _ _ _ _ _ Hw).
    destruct (inv_got0 _ _ Hl) as (img & Himg & Hdr).
    exists img. split; [exact Himg |].
    rewrite list_lookup_insert_ne; [exact Hdr |].
    intros ->. apply Hne. apply (inv_unique0 _ _ _ _ _ Hl Hw eq_refl eq_refl).
  - intros w' j img' [[-> [=]] | [Hne Hl]]%(moved_lookup _ _ _ _ _ _ Hw); eauto.
  - intros w' j [[-> [=]] | [Hne Hl]]%(moved_lookup _ _ _ _ _ _ Hw).
    apply (inv_clear0 _ _ Hl).
  - intros j Hj.
    destruct (inv_slots0 j Hj) as [(w' & wk & Hl & Hh) | Hdone];
      [| right; exact Hdone].
    destruct (decide (w' = w)) as [-> | Hne].
    + right. rewrite Hw in Hl. injection Hl as <-. injection Hh as <-.
      apply (inv_clear0 _ _ Hw).
    + left. exists w', wk. split; [| exact Hh].
      apply (moved_lookup _ _ _ _ _ _ Hw). right. auto.
  - intros w' [[-> [=]] | [Hne Hl]]%(moved_lookup _ _ _ _ _ _ Hw).
    apply (inv_no_panic0 _ Hl).
  - eapply phase_work; [exact Hw | discriminate .. | exact inv_phase0].
Qed.

(** Every step keeps the invariant. *)
Lemma exec_Inv (s s' : State) (a : Action) :
  Inv s → exec s a = Some s' → Inv s'.
Proof.
  intros HI H. destruct a as [w | w]; simpl in H.
  - destruct (driver s) as [i | i | n | n |] eqn:Hd.
    + destruct (imgs !! i) as [img |] eqn:Hi; injection H as <-.
      * apply exec_draw; assumption.
      * eapply exec_loop_end; eassumption.
    + destruct (workers s !! w) as [[] |] eqn:Hw; try discriminate H.
      injection H as <-. apply exec_publish; assumption.
    + destruct (decide (n < W)%nat).
      * destruct (workers s !! w) as [[] |] eqn:Hw; try discriminate H.
        injection H as <-. apply exec_signal; assumption.
      * injection H as <-. eapply exec_signal_end; eassumption.
    + destruct (decide (n < W)%nat).
      * destruct (workers s !! w) as [[] |] eqn:Hw; try discriminate H.
        injection H as <-. apply exec_ack; assumption.
      * injection H as <-. eapply exec_finish; eassumption.
    + discriminate H.
  - destruct (workers s !! w) as [[| i | i img | i | | |] |] eqn:Hw;
      try discriminate H.
    + destruct (inv_got _ _ _ _ HI _ _ Hw) as (img & _ & Hdr).
      rewrite Hdr in H. injection H as <-. apply exec_read; assumption.
    + injection H as <-. apply exec_store; assumption.
    + injection H as <-. apply exec_clear; assumption.
Qed.

Lemma run_Inv (sched : list Action) :
  ∀ s s', Inv s → run sched s = Some s' → Inv s'.
Proof.
  induction sched as [|a sched IH]; intros s s' HI H; simpl in H.
  - injection H as <-. exact HI.
  - destruct (exec s a) as [s1 |] eqn:E; [| discriminate H].
    eapply IH; [eapply exec_Inv; eassumption | exact H].
Qed.

(** Once the driver is past both loops, every slot is filled. *)
Lemma Inv_output (s : State) :
  Inv s → driver s = DWrite → converted s = (Some ∘ quantize) <$> imgs.
Proof.
  intros [] Hd. unfold published, phase in *. rewrite Hd in *.
  apply list_eq. intros j. rewrite list_lookup_fmap.
  destruct (imgs !! j) as [img |] eqn:Hj; simpl.
  - destruct (inv_slots0 j (lookup_lt_Some _ _ _ Hj))
      as [(w & wk & Hl & Hh) | (img' & Himg' & Hc)].
    + destruct (inv_phase0 _ _ Hl) as [-> | ->]; discriminate Hh.
    + congruence.
  - apply lookup_ge_None. apply lookup_ge_None in Hj. lia.
Qed.


(** *** No deadlock, and a bound on the length of schedules *)

(** A worker that is not stopped, stopping or waiting can move. *)
Lemma busy_worker_moves (s : State) (w : nat) (wk : Worker) :
  workers s !! w = Some wk →
  wk ≠ WSelect → wk ≠ WAck → wk ≠ WExit → wk ≠ WPanic →
  ∃ s', exec s (Work w) = Some s'.
Proof.
  intros Hw H1 H2 H3 H4. simpl. rewrite Hw.
  destruct wk; try contradiction; eauto.
  destruct (drawn s !! i) as [[img |] |]; eauto.
Qed.

Lemma exec_progress (s : State) :
  (1 ≤ W)%nat → Inv s → driver s ≠ DWrite → ∃ a s', exec s a = Some s'.
Proof.
  intros HW HI Hd. pose proof (inv_phase _ _ _ _ HI) as Hph.
  pose proof (inv_workers _ _ _ _ HI) as Hlen.
  pose proof (inv_no_panic _ _ _ _ HI) as Hnp.
  assert (Hidle : ∀ w wk, workers s !! w = Some wk →
            wk ≠ WAck → wk ≠ WExit →
            (∃ s', exec s (Work w) = Some s') ∨ wk = WSelect).
  { intros w wk Hw H2 H3.
    assert (Hp : wk ≠ WPanic) by (intros ->; apply (Hnp _ Hw)).
    destruct wk; try contradiction; try (right; reflexivity);
      left; eapply busy_worker_moves; try eassumption; discriminate. }
  destruct (driver s) as [i | i | n | n |] eqn:E; simpl in Hph.
  - exists (Drive 0). simpl. rewrite E. destruct (imgs !! i); eauto.
  - destruct (lookup_lt_is_Some_2 (workers s) 0 ltac:(lia)) as [wk Hw].
    destruct (Hph 0%nat) as [H2 H3].
    destruct (Hidle 0%nat wk Hw) as [[s' Hs'] | ->]; try congruence.
    + exists (Work 0), s'. exact Hs'.
    + exists (Drive 0). simpl. rewrite E, Hw. eauto.
  - destruct Hph as (_ & Hack & Hexit).
    destruct (decide (n < W)%nat) as [Hn | Hn].
    + destruct (not_all_acked (workers s) ltac:(lia)) as (w & wk & Hw & Hne).
      destruct (Hidle w wk Hw Hne) as [[s' Hs'] | ->].
      * intros ->. apply (Hexit _ Hw).
      * exists (Work w), s'. exact Hs'.
      * exists (Drive w). simpl. rewrite E, Hw.
        destruct (decide (n < W)%nat); [eauto | contradiction].
    + exists (Drive 0). simpl. rewrite E.
      destruct (decide (n < W)%nat); [contradiction | eauto].
  - destruct Hph as (_ & Hex & Hall).
    destruct (decide (n < W)%nat) as [Hn | Hn].
    + destruct (not_all_exited (workers s) ltac:(lia)) as (w & wk & Hw & Hne).
      destruct (Hall _ _ Hw) as [-> | ->]; [| contradiction].
      exists (Drive w). simpl. rewrite E, Hw.
      destruct (decide (n < W)%nat); [eauto | contradiction].
    + exists (Drive 0). simpl. rewrite E.
      destruct (decide (n < W)%nat); [contradiction | eauto].
  - contradiction.
Qed.

(** Every step uses up one of the steps that are left. *)
Lemma exec_steps_left (s s' : State) (a : Action) :
  Inv s → exec s a = Some s' → steps_left s = S (steps_left s').
Proof.
  intros HI H. unfold Pipeline.steps_left. destruct a as [w | w]; simpl in H.
  - destruct (driver s) as [i | i | n | n |] eqn:Hd.
    + pose proof (inv_published _ _ _ _ HI) as Hp. unfold published in Hp.
      rewrite Hd in Hp.
      destruct (imgs !! i) as [img |] eqn:Hi; injection H as <-; simpl.
      * lia.
      * apply lookup_ge_None in Hi. lia.
    + destruct (inv_publish _ _ _ _ HI i Hd) as (img & Himg%lookup_lt_Some & _).
      destruct (workers s !! w) as [[] |] eqn:Hw; try discriminate H.
      injection H as <-. simpl.
      pose proof (steps_insert _ _ _ (WGot i) Hw). simpl in *. lia.
    + destruct (decide (n < W)%nat).
      * destruct (workers s !! w) as [[] |] eqn:Hw; try discriminate H.
        injection H as <-. simpl.
        pose proof (steps_insert _ _ _ (@WAck Img) Hw). simpl in *. lia.
      * injection H as <-. simpl. lia.
    + destruct (decide (n < W)%nat).
      * destruct (workers s !! w) as [[] |] eqn:Hw; try discriminate H.
        injection H as <-. simpl.
        pose proof (steps_insert _ _ _ (@WExit Img) Hw). simpl in *. lia.
      * injection H as <-. simpl. lia.
    + discriminate H.
  - destruct (workers s !! w) as [[| i | i img | i | | |] |] eqn:Hw;
      try discriminate H.
    + destruct (inv_got _ _ _ _ HI _ _ Hw) as (img & _ & Hdr).
      rewrite Hdr in H. injection H as <-. simpl.
      pose proof (steps_insert _ _ _ (WDither i img) Hw). simpl in *. lia.
    + injection H as <-. simpl.
      pose proof (steps_insert _ _ _ (@WClear Img i) Hw). simpl in *. lia.
    + injection H as <-. simpl.
      pose proof (steps_insert _ _ _ (@WSelect Img) Hw). simpl in *. lia.
Qed.

Lemma run_steps_left (sched : list Action) :
  ∀ s s', Inv s → run sched s = Some s' →
          steps_left s = (length sched + steps_left s')%nat.
Proof.
  induction sched as [|a sched IH]; intros s s' HI H; simpl in H.
  - injection H as <-. reflexivity.
  - destruct (exec s a) as [s1 |] eqn:E; [| discriminate H].
    rewrite (exec_steps_left _ _ _ HI E).
    rewrite (IH _ _ (exec_Inv _ _ _ HI E) H). simpl. lia.
Qed.

Lemma steps_left_init :
  steps_left (init imgs W) = (5 * length imgs + 2 * W + 3)%nat.
Proof.
  unfold Pipeline.steps_left. simpl.
  assert (E : ∀ n, sum_list_with worker_steps (replicate n (@WSelect Img)) = (2 * n)%nat).
  { induction n as [|n IH]; simpl in *; lia. }
  rewrite E. lia.
Qed.

(** *** A schedule that completes *)

Lemma run_app (sched1 sched2 : list Action) (s : State) :
  run (sched1 ++ sched2) s = run sched1 s ≫= run sched2.
Proof.
  revert s. induction sched1 as [|a sched1 IH]; intros s; simpl; [reflexivity |].
  destruct (exec s a); [apply IH | reflexivity].
Qed.

Lemma replicate_next {A : Type} (n m : nat) (a b : A) :
  <[n := a]> (replicate n a ++ replicate (S m) b)
  = replicate (S n) a ++ replicate m b.
Proof. induction n as [|n IH]; simpl in *; [reflexivity | f_equal; exact IH]. Qed.

Lemma replicate_lookup_next {A : Type} (n m : nat) (a b : A) :
  (replicate n a ++ replicate (S m) b) !! n = Some b.
Proof. induction n as [|n IH]; simpl; [reflexivity | exact IH]. Qed.

(** Worker 0 dithers frame [k] while every other worker waits. *)
Lemma one_frame_runs (s : State) (k : nat) :
  (1 ≤ W)%nat → Inv s → driver s = DDraw k → workers s = replicate W WSelect →
  (k < length imgs)%nat →
  ∃ s', run one_frame s = Some s' ∧ Inv s' ∧ driver s' = DDraw (S k) ∧
        workers s' = replicate W WSelect.
Proof.
  intros HW HI Hd Hws Hk.
  destruct (lookup_lt_is_Some_2 imgs k Hk) as [img Himg].
  assert (H0 : (replicate W (@WSelect Img)) !! 0%nat = Some WSelect)
    by (apply lookup_replicate_2; lia).
  assert (HlenW : (0 < length (replicate W (@WSelect Img)))%nat)
    by (rewrite length_replicate; lia).
  unfold Pipeline.one_frame. simpl. rewrite Hd, Himg. simpl. rewrite Hws, H0. simpl.
  rewrite list_lookup_insert_eq by exact HlenW.
  set (s1 := mkState (DPublish k) (replicate W WSelect)
                     (<[k := Some img]> (drawn s)) (converted s)).
  assert (HI1 : Inv s1) by (subst s1; rewrite <- Hws; apply exec_draw; assumption).
  set (s2 := mkState (DDraw (S k)) (<[0%nat := WGot k]> (replicate W WSelect))
                     (<[k := Some img]> (drawn s)) (converted s)).
  assert (HI2 : Inv s2) by (apply (exec_publish s1 k 0%nat HI1 eq_refl H0)).
  assert (Hdr : <[k := Some img]> (drawn s) !! k = Some (Some img)).
  { apply list_lookup_insert_eq. rewrite (inv_drawn _ _ _ _ HI). exact Hk. }
  rewrite Hdr. simpl.
  rewrite !list_insert_insert_eq, !list_lookup_insert_eq by exact HlenW. simpl.
  rewrite !list_insert_insert_eq, !list_lookup_insert_eq by exact HlenW. simpl.
  rewrite !list_insert_insert_eq.
  rewrite (list_insert_id (replicate W WSelect) 0 WSelect H0).
  eexists. split; [reflexivity |]. simpl. split; [| split; reflexivity].
  assert (Hl2 : workers s2 !! 0%nat = Some (WGot k))
    by (apply list_lookup_insert_eq; exact HlenW).
  pose proof (exec_read s2 0%nat k img HI2 Hl2 Hdr) as HI3.
  simpl in HI3. rewrite list_insert_insert_eq in HI3.
  match type of HI3 with Inv ?s3 =>
    assert (Hl3 : workers s3 !! 0%nat = Some (WDither k img))
      by (apply list_lookup_insert_eq; exact HlenW);
    pose proof (exec_store s3 0%nat k img HI3 Hl3) as HI4
  end.
  simpl in HI4. rewrite list_insert_insert_eq in HI4.
  match type of HI4 with Inv ?s4 =>
    assert (Hl4 : workers s4 !! 0%nat = Some (WClear k))
      by (apply list_lookup_insert_eq; exact HlenW);
    pose proof (exec_clear s4 0%nat k HI4 Hl4) as HI5
  end.
  simpl in HI5. rewrite !list_insert_insert_eq in HI5.
  rewrite (list_insert_id (replicate W WSelect) 0 WSelect H0) in HI5.
  exact HI5.
Qed.

Lemma frames_run (n : nat) :
  (1 ≤ W)%nat →
  ∀ s k, Inv s → driver s = DDraw k → workers s = replicate W WSelect →
         (k + n ≤ length imgs)%nat →
         ∃ s', run (concat (replicate n one_frame)) s = Some s' ∧ Inv s' ∧
               driver s' = DDraw (k + n) ∧ workers s' = replicate W WSelect.
Proof.
  intros HW. induction n as [|n IH]; intros s k HI Hd Hws Hk.
  - exists s. rewrite Nat.add_0_r. auto.
  - destruct (one_frame_runs s k HW HI Hd Hws ltac:(lia)) as (s1 & Hr1 & HI1 & Hd1 & Hws1).
    destruct (IH s1 (S k) HI1 Hd1 Hws1 ltac:(lia)) as (s2 & Hr2 & HI2 & Hd2 & Hws2).
    exists s2.
    change (concat (replicate (S n) one_frame))
      with (one_frame ++ concat (replicate n one_frame)).
    rewrite run_app, Hr1. simpl.
    split; [exact Hr2 |]. split; [exact HI2 |].
    split; [rewrite Hd2; f_equal; lia | exact Hws2].
Qed.

(** The driver tells the last [m] workers to stop, in order. *)
Lemma signals_run (m : nat) :
  ∀ s n, (n + m = W)%nat → driver s = DSignal n →
         workers s = replicate n WAck ++ replicate m WSelect →
         ∃ s', run (Drive <$> seq n m) s = Some s' ∧
               driver s' = DSignal W ∧ workers s' = replicate W WAck.
Proof.
  induction m as [|m IH]; intros s n Hnm Hd Hws.
  - exists s. rewrite app_nil_r in Hws. assert (n = W) by lia. subst n. auto.
  - simpl. rewrite Hd. destruct (decide (n < W)%nat); [| lia].
    rewrite Hws, replicate_lookup_next, replicate_next.
    apply IH; [lia | reflexivity | reflexivity].
Qed.

(** The driver collects the acknowledgement of the last [m] workers. *)
Lemma acks_run (m : nat) :
  ∀ s n, (n + m = W)%nat → driver s = DWait n →
         workers s = replicate n WExit ++ replicate m WAck →
         ∃ s', run (Drive <$> seq n m) s = Some s' ∧ driver s' = DWait W.
Proof.
  induction m as [|m IH]; intros s n Hnm Hd Hws.
  - exists s. assert (n = W) by lia. subst n. auto.
  - simpl. rewrite Hd. destruct (decide (n < W)%nat); [| lia].
    rewrite Hws, replicate_lookup_next, replicate_next.
    apply IH; [lia | reflexivity | reflexivity].
Qed.

Lemma orderly_completes :
  (1 ≤ W)%nat → ∃ s, run orderly (init imgs W) = Some s ∧ driver s = DWrite.
Proof.
  intros HW. unfold Pipeline.orderly.
  destruct (frames_run (length imgs) HW (init imgs W) 0 Inv_init eq_refl eq_refl
              ltac:(lia)) as (s1 & Hr1 & HI1 & Hd1 & Hws1).
  rewrite run_app, Hr1. simpl. rewrite Hd1. simpl.
  rewrite (proj2 (lookup_ge_None imgs (length imgs)) (le_n _)).
  destruct (signals_run W (mkState (DSignal 0) (workers s1) (drawn s1) (converted s1))
              0 eq_refl eq_refl Hws1) as (s2 & Hr2 & Hd2 & Hws2).
  rewrite run_app. unfold Pipeline.in_turn. rewrite Hr2. simpl. rewrite Hd2.
  destruct (decide (W < W)%nat); [lia |].
  destruct (acks_run W (mkState (DWait 0) (workers s2) (drawn s2) (converted s2))
              0 eq_refl eq_refl Hws2) as (s3 & Hr3 & Hd3).
  rewrite run_app, Hr3. simpl. rewrite Hd3.
  destruct (decide (W < W)%nat); [lia |]. eauto.
Qed.

End pool_facts.


(** C6. For every list of frames and every number [W >= 1] of workers:
    some schedule takes the pipeline to the point where [main] hands
    [converted] to the encoder; along every schedule no worker panics, a
    goroutine can move as long as that point is not reached, and at most
    [5 N + 2 W + 3] steps are taken; and whenever that point is reached,
    slot [i] of [converted] holds the dithering of frame [i], for every
    [i]: the sequence read by index is the one obtained by dithering the
    frames one after the other in tick order, whatever [W] and the
    schedule. *)
Theorem pool_output_is_tick_order
    {Img Pal : Type} (quantize : Img → Pal) (imgs : list Img) (W : nat) :
  (1 ≤ W)%nat →
  (∃ sched s, run quantize imgs W sched (init imgs W) = Some s ∧ driver s = DWrite) ∧
  ∀ sched s, run quantize imgs W sched (init imgs W) = Some s →
    (∀ w, workers s !! w ≠ Some WPanic) ∧
    (length sched ≤ 5 * length imgs + 2 * W + 3)%nat ∧
    (driver s ≠ DWrite → ∃ a s', exec quantize imgs W s a = Some s') ∧
    (driver s = DWrite → converted s = (Some ∘ quantize) <$> imgs).
Proof.
  intros HW. split.
  - destruct (orderly_completes quantize imgs W HW) as (s & Hr & Hd). eauto.
  - intros sched s Hr.
    pose proof (run_Inv quantize imgs W sched _ _ (Inv_init quantize imgs W) Hr) as HI.
    split; [apply (inv_no_panic _ _ _ _ HI) |]. split; [| split].
    + pose proof (run_steps_left quantize imgs W sched _ _
                    (Inv_init quantize imgs W) Hr) as Hs.
      rewrite steps_left_init in Hs. lia.
    + apply (exec_progress quantize imgs W s HW HI).
    + apply (Inv_output quantize imgs W s HI).
Qed.

Lemma pool_output_is_tick_order_witness :
  let imgs := [mkFrame 600 []; mkFrame 600 [Stroke]] in
  let sched :=
    [Drive 0; Drive 1; Drive 0; Drive 0; Work 0; Work 0; Work 0; Work 1;
     Work 1; Work 1; Drive 0; Drive 0; Drive 1; Drive 0; Drive 1; Drive 0;
     Drive 0]%nat in
  ∃ s, run FloydSteinberg imgs 2 sched (init imgs 2) = Some s ∧
       driver s = DWrite ∧
       converted s = (Some ∘ FloydSteinberg) <$> imgs.
Proof.
  intros imgs sched.
  destruct (run FloydSteinberg imgs 2 sched (init imgs 2)) as [s |] eqn:Hr;
    [| vm_compute in Hr; discriminate Hr].
  assert (Hd : driver s = DWrite) by (vm_compute in Hr; injection Hr as <-; reflexivity).
  exists s. split; [reflexivity |]. split; [exact Hd |].
  destruct (pool_output_is_tick_order FloydSteinberg imgs 2 (le_S 1 1 (le_n 1)))
    as [_ H].
  destruct (H sched s Hr) as (_ & _ & _ & Hout). exact (Hout Hd).
Defined.

(** The hand-over of [main] and the worker pool agree: in a completed run,
    what any completing schedule of [W] workers leaves in [converted] is
    the [Image] that the single-threaded reading of [main] hands to the
    encoder. *)
Lemma main_image_is_pool_output (fl : Flags) (ticks : list Tick.t) (gif : GIF) :
  main fl ticks = Ok gif →
  ∃ frames,
    Forall2 (λ tick img, ∃ p, drawTick p (imageSize fl) tick = Ok img) ticks frames ∧
    ∀ W sched s,
      run FloydSteinberg frames W sched (init frames W) = Some s →
      driver s = DWrite → converted s = Image gif.
Proof.
  intros H. apply main_image in H as (frames & HF & Himg).
  exists frames. split; [exact HF |]. intros W sched s Hr Hd. rewrite Himg.
  apply (Inv_output FloydSteinberg frames W s); [| exact Hd].
  exact (run_Inv FloydSteinberg frames W sched _ _ (Inv_init FloydSteinberg frames W) Hr).
Qed.

(** ** More on the pipeline *)

Section pool_more.

Context {Img Pal : Type}.
Variable quantize : Img → Pal.
Variable imgs : list Img.
Variable W : nat.

Local Abbreviation State := (@State Img Pal).
Local Abbreviation Worker := (@Worker Img).
Local Abbreviation Inv := (Inv quantize imgs W).
Local Abbreviation exec := (exec quantize imgs W).
Local Abbreviation run := (run quantize imgs W).
Local Abbreviation Owned := (@Owned Img Pal imgs).

Lemma exited_full (ws : list Worker) :
  (length ws ≤ exited ws)%nat → ∀ w wk, ws !! w = Some wk → wk = WExit.
Proof.
  induction ws as [|a ws IH]; intros H w wk Hw; [discriminate Hw |].
  pose proof (exited_le quantize ws).
  destruct a; simpl in H; try lia.
  destruct w as [|w]; simpl in Hw; [congruence |].
  apply (IH ltac:(lia) w wk Hw).
Qed.

Lemma Owned_init : Owned (init imgs W).
Proof.
  split; simpl.
  - intros i img [? _]%lookup_replicate. discriminate.
  - discriminate.
Qed.

(** A worker that changes place keeps the frame it holds, and the others
    are not touched. *)
Lemma owner_stays (ws : list Worker) (w : nat) (old new : Worker)
    (d0 d : Driver) (i : nat) :
  ws !! w = Some old →
  (∀ j, held old = Some j → held new = Some j) →
  (d0 = DPublish i → d = DPublish i ∨ held new = Some i) →
  d0 = DPublish i ∨ (∃ w' wk, ws !! w' = Some wk ∧ held wk = Some i) →
  d = DPublish i ∨ (∃ w' wk, <[w := new]> ws !! w' = Some wk ∧ held wk = Some i).
Proof.
  intros Hw Hkeep Hdrv [Hp | (w' & wk & Hw' & Hh)].
  - destruct (Hdrv Hp) as [-> | Hn]; [left; reflexivity |].
    right. exists w, new. split; [| exact Hn].
    apply list_lookup_insert_eq. eapply lookup_lt_Some; exact Hw.
  - right. destruct (decide (w' = w)) as [-> | Hne].
    + exists w, new. split.
      * apply list_lookup_insert_eq. eapply lookup_lt_Some; exact Hw.
      * apply Hkeep. congruence.
    + exists w', wk. split; [| exact Hh].
      rewrite list_lookup_insert_ne by congruence. exact Hw'.
Qed.

Lemma exec_Owned (s s' : State) (a : Action) :
  Inv s → Owned s → exec s a = Some s' → Owned s'.
Proof.
  intros HI [Hlive Hdone] H. destruct a as [w | w]; simpl in H.
  - destruct (driver s) as [i | i | n | n |] eqn:Hd.
    + destruct (imgs !! i) as [img |] eqn:Hi; injection H as <-;
        (split; simpl; [| discriminate]); intros j img' Hj.
      * destruct (decide (i = j)) as [<- | Hne].
        -- rewrite list_lookup_insert_eq in Hj
             by (rewrite (inv_drawn _ _ _ _ HI); eapply lookup_lt_Some; exact Hi).
           split; [congruence | left; reflexivity].
        -- rewrite list_lookup_insert_ne in Hj by exact Hne.
           destruct (Hlive j img' Hj) as [Himg [Hp | Ho]]; [discriminate Hp |].
           split; [exact Himg | right; exact Ho].
      * destruct (Hlive j img' Hj) as [Himg [Hp | Ho]]; [discriminate Hp |].
        split; [exact Himg | right; exact Ho].
    + destruct (workers s !! w) as [[] |] eqn:Hw; try discriminate H.
      injection H as <-. split; simpl; [| discriminate]. intros j img' Hj.
      destruct (Hlive j img' Hj) as [Himg Ho]. split; [exact Himg |]. right.
      destruct (owner_stays (workers s) w WSelect (WGot i) (DPublish i) (DDraw (S i)) j Hw) as [Hp | Hq];
        [discriminate | | exact Ho | discriminate Hp | exact Hq].
      intros [= <-]. right. reflexivity.
    + destruct (decide (n < W)%nat).
      * destruct (workers s !! w) as [[] |] eqn:Hw; try discriminate H.
        injection H as <-. split; simpl; [| discriminate]. intros j img' Hj.
        destruct (Hlive j img' Hj) as [Himg [Hp | Ho]]; [discriminate Hp |].
        split; [exact Himg |]. right.
        destruct (owner_stays (workers s) w WSelect WAck (DSignal n) (DSignal (S n)) j Hw) as [Hp | Hq];
          [discriminate | discriminate | right; exact Ho | discriminate Hp | exact Hq].
      * injection H as <-. split; simpl; [| discriminate]. intros j img' Hj.
        destruct (Hlive j img' Hj) as [Himg [Hp | Ho]]; [discriminate Hp |].
        split; [exact Himg | right; exact Ho].
    + pose proof (inv_phase _ _ _ _ HI) as Hph. rewrite Hd in Hph.
      destruct Hph as (Hn & Hex & Hall).
      destruct (decide (n < W)%nat).
      * destruct (workers s !! w) as [[] |] eqn:Hw; try discriminate H.
        injection H as <-. split; simpl; [| discriminate]. intros j img' Hj.
        destruct (Hlive j img' Hj) as [Himg [Hp | Ho]]; [discriminate Hp |].
        split; [exact Himg |]. right.
        destruct (owner_stays (workers s) w WAck WExit (DWait n) (DWait (S n)) j Hw) as [Hp | Hq];
          [discriminate | discriminate | right; exact Ho | discriminate Hp | exact Hq].
      * injection H as <-. split; simpl.
        -- intros j img' Hj.
           destruct (Hlive j img' Hj) as [Himg [Hp | Ho]]; [discriminate Hp |].
           split; [exact Himg | right; exact Ho].
        -- intros _. apply exited_full.
           rewrite (inv_workers _ _ _ _ HI). lia.
    + discriminate H.
  - destruct (workers s !! w) as [[| i | i img | i | | |] |] eqn:Hw; try discriminate H.
    + destruct (inv_got _ _ _ _ HI w i Hw) as (img & Himg & Hdr).
      rewrite Hdr in H. injection H as <-. split; simpl.
      * intros j img' Hj. destruct (Hlive j img' Hj) as [Himg' Ho].
        split; [exact Himg' |].
        apply (owner_stays (workers s) w (WGot i) (WDither i img) (driver s) (driver s) j Hw);
          [intros k Hk; exact Hk | intros Hp; left; exact Hp | exact Ho].
      * intros Hdw w' wk Hw'. specialize (Hdone Hdw w _ Hw). discriminate Hdone.
    + injection H as <-. split; simpl.
      * intros j img' Hj. destruct (Hlive j img' Hj) as [Himg' Ho].
        split; [exact Himg' |].
        apply (owner_stays (workers s) w (WDither i img) (WClear i) (driver s) (driver s) j Hw);
          [intros k Hk; exact Hk | intros Hp; left; exact Hp | exact Ho].
      * intros Hdw w' wk Hw'. specialize (Hdone Hdw w _ Hw). discriminate Hdone.
    + injection H as <-. split; simpl.
      * intros j img' Hj.
        destruct (decide (i = j)) as [<- | Hne].
        -- destruct (inv_clear _ _ _ _ HI w i Hw) as (img & Himg%lookup_lt_Some & _).
           rewrite list_lookup_insert_eq in Hj
             by (rewrite (inv_drawn _ _ _ _ HI); exact Himg).
           discriminate Hj.
        -- rewrite list_lookup_insert_ne in Hj by exact Hne.
           destruct (Hlive j img' Hj) as [Himg' [Hp | (w' & wk & Hw' & Hh)]];
             (split; [exact Himg' |]); [left; exact Hp |].
           right. exists w', wk. split; [| exact Hh].
           rewrite list_lookup_insert_ne; [exact Hw' |].
           intros <-. rewrite Hw in Hw'. injection Hw' as <-. simpl in Hh. congruence.
      * intros Hdw w' wk Hw'. specialize (Hdone Hdw w _ Hw). discriminate Hdone.
Qed.

Lemma run_Owned (sched : list Action) :
  ∀ s s', Inv s → Owned s → run sched s = Some s' → Owned s'.
Proof.
  induction sched as [|a sched IH]; intros s s' HI HO H; simpl in H.
  - injection H as <-. exact HO.
  - destruct (exec s a) as [s1 |] eqn:E; [| discriminate H].
    eapply IH; [eapply exec_Inv; eassumption | eapply exec_Owned; eassumption | exact H].
Qed.

Lemma held_length (ws : list Worker) : (length (omap held ws) ≤ length ws)%nat.
Proof.
  unfold omap. induction ws as [|wk ws IH]; [simpl; lia |].
  destruct wk; simpl in *; lia.
Qed.

Lemma in_flight_bound (s : State) :
  Inv s → Owned s → (length (in_flight s) ≤ W + 1)%nat.
Proof.
  intros HI [Hlive _].
  pose (sending := match driver s with DPublish i => [i] | _ => [] end).
  assert (Hsub : in_flight s ⊆+ sending ++ omap held (workers s)).
  { apply NoDup_submseteq; [apply NoDup_filter, NoDup_seq |].
    intros i [Hi _]%list_elem_of_filter.
    destruct (drawn s !! i) as [[img |] |] eqn:E;
      try (destruct Hi as [? Hi]; discriminate Hi).
    destruct (Hlive i img E) as [_ [Hp | (w & wk & Hw & Hh)]].
    - apply elem_of_app. left. unfold sending. rewrite Hp. apply list_elem_of_singleton.
      reflexivity.
    - apply elem_of_app. right. apply list_elem_of_omap. exists wk.
      split; [eapply list_elem_of_lookup_2; exact Hw | exact Hh]. }
  apply submseteq_length in Hsub. rewrite length_app in Hsub.
  pose proof (held_length (workers s)) as Hh.
  rewrite (inv_workers _ _ _ _ HI) in Hh.
  assert (length sending ≤ 1)%nat by (subst sending; destruct (driver s); simpl; lia).
  lia.
Qed.

Lemma Owned_end (s : State) :
  Inv s → Owned s → driver s = DWrite →
  drawn s = replicate (length imgs) None ∧ workers s = replicate W WExit.
Proof.
  intros HI [Hlive Hdone] Hd. split.
  - apply eq_sym, replicate_as_Forall. split; [apply (inv_drawn _ _ _ _ HI) |].
    apply Forall_lookup. intros i [img |] Hi; [| reflexivity].
    destruct (Hlive i img Hi) as [_ [Hp | (w & wk & Hw & Hh)]]; [congruence |].
    rewrite (Hdone Hd w wk Hw) in Hh. discriminate Hh.
  - apply eq_sym, replicate_as_Forall. split; [apply (inv_workers _ _ _ _ HI) |].
    apply Forall_lookup. intros w wk Hw. symmetry. exact (Hdone Hd w wk Hw).
Qed.

Lemma no_worker_no_progress (sched : list Action) :
  W = 0%nat → imgs ≠ [] →
  ∀ s, workers s = [] → driver s = DDraw 0 ∨ (driver s = DPublish 0 ∧ sched = []) →
       ∀ s', run sched s = Some s' →
             (driver s' = DDraw 0 ∧ sched = []) ∨
             (driver s' = DPublish 0 ∧ (length sched ≤ 1)%nat).
Proof.
  intros HW Hne s Hws Hd s' H.
  destruct sched as [|a sched]; simpl in H.
  - injection H as <-. destruct Hd as [Hd | [Hd _]]; [left | right]; auto.
  - destruct Hd as [Hd | [_ [=]]].
    destruct a as [w | w]; simpl in H; rewrite ?Hd, ?Hws in H; simpl in H;
      [| discriminate H].
    destruct imgs as [|img rest]; [contradiction |]. simpl in H.
    destruct sched as [|b sched]; simpl in H.
    + injection H as <-. right. simpl. auto.
    + destruct b as [w' | w']; simpl in H; rewrite ?Hws in H; discriminate H.
Qed.

End pool_more.

(** X18. At most one undithered frame for each worker, and one more: along
    every schedule of the pipeline, every non-nil entry [i] of [drawn] is
    the frame of tick [i], and it is either the frame that the driver is
    sending on [index] or a frame that a worker is busy with; so that no
    more than [W + 1] entries of [drawn] are non-nil at any time. *)
Theorem frames_in_flight_are_owned
    {Img Pal : Type} (quantize : Img → Pal) (imgs : list Img) (W : nat)
    (sched : list Action) (s : State) :
  run quantize imgs W sched (init imgs W) = Some s →
  (length (in_flight s) ≤ W + 1)%nat ∧
  ∀ i img, drawn s !! i = Some (Some img) →
    imgs !! i = Some img ∧
    (driver s = DPublish i ∨
     ∃ w wk, workers s !! w = Some wk ∧ held wk = Some i).
Proof.
  intros Hr.
  pose proof (run_Inv quantize imgs W sched _ _ (Inv_init quantize imgs W) Hr) as HI.
  pose proof (run_Owned quantize imgs W sched _ _ (Inv_init quantize imgs W)
                (Owned_init imgs W) Hr) as HO.
  split; [exact (in_flight_bound quantize imgs W s HI HO) |].
  exact (own_live _ _ HO).
Qed.

Lemma frames_in_flight_are_owned_witness :
  let imgs := [mkFrame 600 []; mkFrame 600 [Stroke]; mkFrame 600 [Fill]] in
  let sched := [Drive 0; Drive 0; Drive 0; Work 0; Drive 1; Drive 0]%nat in
  ∃ s, run FloydSteinberg imgs 2 sched (init imgs 2) = Some s ∧
       (length (in_flight s) ≤ 2 + 1)%nat.
Proof.
  intros imgs sched.
  destruct (run FloydSteinberg imgs 2 sched (init imgs 2)) as [s |] eqn:Hr;
    [| vm_compute in Hr; discriminate Hr].
  exists s. split; [reflexivity |].
  exact (proj1 (frames_in_flight_are_owned FloydSteinberg imgs 2 sched s Hr)).
Defined.

(** X19. What a completed pipeline leaves behind: whenever a schedule has
    taken the driver past both of its loops, every entry of [drawn] is
    nil, every worker has returned from [convert], and the schedule has
    taken exactly [5 N + 2 W + 3] steps, for [N] frames and [W] workers:
    no frame is dithered twice and no step is wasted, whatever the
    interleaving. *)
Theorem finished_pool_is_clean
    {Img Pal : Type} (quantize : Img → Pal) (imgs : list Img) (W : nat)
    (sched : list Action) (s : State) :
  run quantize imgs W sched (init imgs W) = Some s → driver s = DWrite →
  drawn s = replicate (length imgs) None ∧
  workers s = replicate W WExit ∧
  length sched = (5 * length imgs + 2 * W + 3)%nat.
Proof.
  intros Hr Hd.
  pose proof (run_Inv quantize imgs W sched _ _ (Inv_init quantize imgs W) Hr) as HI.
  pose proof (run_Owned quantize imgs W sched _ _ (Inv_init quantize imgs W)
                (Owned_init imgs W) Hr) as HO.
  destruct (Owned_end quantize imgs W s HI HO Hd) as [Hdr Hws].
  split; [exact Hdr |]. split; [exact Hws |].
  pose proof (run_steps_left quantize imgs W sched _ _
                (Inv_init quantize imgs W) Hr) as Hs.
  rewrite steps_left_init in Hs. unfold steps_left in Hs. rewrite Hd, Hws in Hs.
  assert (E : ∀ n, sum_list_with worker_steps (replicate n (@WExit Img)) = 0%nat).
  { induction n as [|n IH]; simpl in *; lia. }
  rewrite E in Hs. simpl in Hs. lia.
Qed.

Lemma finished_pool_is_clean_witness :
  let imgs := [mkFrame 600 []; mkFrame 600 [Stroke]] in
  let sched :=
    [Drive 0; Drive 1; Drive 0; Drive 0; Work 0; Work 0; Work 0; Work 1;
     Work 1; Work 1; Drive 0; Drive 0; Drive 1; Drive 0; Drive 1; Drive 0;
     Drive 0]%nat in
  ∃ s, run FloydSteinberg imgs 2 sched (init imgs 2) = Some s ∧
       drawn s = replicate (length imgs) None ∧
       workers s = replicate 2 WExit ∧
       length sched = (5 * length imgs + 2 * 2 + 3)%nat.
Proof.
  intros imgs sched.
  destruct (run FloydSteinberg imgs 2 sched (init imgs 2)) as [s |] eqn:Hr;
    [| vm_compute in Hr; discriminate Hr].
  assert (Hd : driver s = DWrite) by (vm_compute in Hr; injection Hr as <-; reflexivity).
  exists s. split; [reflexivity |].
  exact (finished_pool_is_clean FloydSteinberg imgs 2 sched s Hr Hd).
Defined.

(** X20. Why [main] insists on one thread at least: with no worker and at
    least one frame, the pipeline takes one step, the drawing of the
    first frame, and then nothing can move: the driver is blocked for
    ever in [index <- 0] and never reaches the encoder. *)
Theorem pool_without_workers_is_stuck
    {Img Pal : Type} (quantize : Img → Pal) (imgs : list Img)
    (sched : list Action) (s : State) :
  imgs ≠ [] → run quantize imgs 0 sched (init imgs 0) = Some s →
  driver s ≠ DWrite ∧ (length sched ≤ 1)%nat ∧
  (length sched = 1%nat → ∀ a, exec quantize imgs 0 s a = None).
Proof.
  intros Hne Hr.
  destruct (no_worker_no_progress quantize imgs 0 sched eq_refl Hne (init imgs 0)
              eq_refl (or_introl eq_refl) s Hr) as [[Hd ->] | [Hd Hl]].
  - rewrite Hd. split; [discriminate |]. split; [simpl; lia | discriminate].
  - rewrite Hd. split; [discriminate |]. split; [exact Hl |]. intros Hone a.
    assert (Hws : workers s = []).
    { destruct sched as [|a0 [|]]; try discriminate Hone. simpl in Hr.
      destruct a0 as [w | w]; simpl in Hr; [| discriminate Hr].
      destruct (imgs !! 0%nat); injection Hr as <-; reflexivity. }
    destruct a as [w | w]; simpl; rewrite ?Hd, Hws; reflexivity.
Qed.

Lemma pool_without_workers_is_stuck_witness :
  let imgs := [mkFrame 600 []] in
  ∃ s, run FloydSteinberg imgs 0 [Drive 0%nat] (init imgs 0) = Some s ∧
       driver s ≠ DWrite ∧
       ∀ a, exec FloydSteinberg imgs 0 s a = None.
Proof.
  intros imgs.
  destruct (run FloydSteinberg imgs 0 [Drive 0%nat] (init imgs 0)) as [s |] eqn:Hr;
    [| vm_compute in Hr; discriminate Hr].
  assert (Hne : imgs ≠ []) by discriminate.
  destruct (pool_without_workers_is_stuck FloydSteinberg imgs [Drive 0%nat] s Hne Hr)
    as (Hd & _ & Hstuck).
  exists s. split; [reflexivity |]. split; [exact Hd | exact (Hstuck eq_refl)].
Defined.
